(** * aap-mcp-server: the specification compiler and the dispatch gateway

    A shallow embedding of [extract-tools.ts] (the OpenAPI-to-tool compiler)
    and of the catalog, session and dispatch code of the server entry point,
    followed by the properties proved about them.

    Conventions of the embedding.
    - A JavaScript string is a sequence of code units; the embedding carries
      the code units 0..255 as Rocq's [string].  Case mapping is the one of
      the ASCII letters, white space is the ECMAScript white space and line
      terminators that fall in that range.
    - A JavaScript object is the ordered list of its own enumerable
      properties.  Objects that can be shared or cyclic (the schema graph of
      a dereferenced OpenAPI document) live in a heap and are named by their
      identity; arrays are carried by value.
    - [console.warn] and [console.log] calls are kept only where a property
      below speaks about them. *)

From Stdlib Require Import ZArith Ascii String List Permutation Sorted Lia.
From Stdlib Require Import DecimalString.
From stdpp Require Import base option list gmap sets strings.

Set Warnings "-register-all,-clear-no-such-hyp".
Local Open Scope string_scope.
Local Open Scope list_scope.

(** ** Part I.  JavaScript strings *)

Module JsString.

Definition code (c : ascii) : N := N_of_ascii c.

Definition isUpper (c : ascii) : bool := (65 <=? code c)%N && (code c <=? 90)%N.
Definition isLower (c : ascii) : bool := (97 <=? code c)%N && (code c <=? 122)%N.
Definition isDigit (c : ascii) : bool := (48 <=? code c)%N && (code c <=? 57)%N.

Definition charToLowerCase (c : ascii) : ascii :=
  if isUpper c then ascii_of_N (code c + 32) else c.

Definition charToUpperCase (c : ascii) : ascii :=
  if isLower c then ascii_of_N (code c - 32) else c.

Fixpoint mapChars (f : ascii → ascii) (s : string) : string :=
  match s with
  | EmptyString => EmptyString
  | String c s' => String (f c) (mapChars f s')
  end.

(** [String.prototype.toLowerCase] and [toUpperCase]. *)
Definition toLowerCase : string → string := mapChars charToLowerCase.
Definition toUpperCase : string → string := mapChars charToUpperCase.

(** White space and line terminators stripped by [String.prototype.trim]:
    TAB, LF, VT, FF, CR, SPACE and NBSP. *)
Definition isWhiteSpace (c : ascii) : bool :=
  ((9 <=? code c)%N && (code c <=? 13)%N) || (code c =? 32)%N || (code c =? 160)%N.

Fixpoint trimStart (s : string) : string :=
  match s with
  | EmptyString => EmptyString
  | String c s' => if isWhiteSpace c then trimStart s' else s
  end.

Fixpoint trimEnd (s : string) : string :=
  match s with
  | EmptyString => EmptyString
  | String c s' =>
      match trimEnd s' with
      | EmptyString => if isWhiteSpace c then EmptyString else String c EmptyString
      | t => String c t
      end
  end.

Definition trim (s : string) : string := trimEnd (trimStart s).

(** [s.split(sep)] for a separator of one code unit. *)
Fixpoint split (sep : ascii) (s : string) : list string :=
  match s with
  | EmptyString => [EmptyString]
  | String c s' =>
      if Ascii.eqb c sep then EmptyString :: split sep s'
      else match split sep s' with
           | piece :: rest => String c piece :: rest
           | [] => [String c EmptyString]
           end
  end.

Definition LF : ascii := ascii_of_N 10.
Definition CR : ascii := ascii_of_N 13.

(** [s.split("\n\n")[0]]: the text before the first pair of line feeds. *)
Fixpoint splitBlankLineHead (s : string) : string :=
  match s with
  | EmptyString => EmptyString
  | String c s' =>
      match s' with
      | String d _ =>
          if Ascii.eqb c LF && Ascii.eqb d LF then EmptyString
          else String c (splitBlankLineHead s')
      | EmptyString => String c EmptyString
      end
  end.

Definition startsWithChar (c : ascii) (s : string) : bool :=
  match s with
  | String d _ => Ascii.eqb d c
  | EmptyString => false
  end.

Fixpoint endsWithChar (c : ascii) (s : string) : bool :=
  match s with
  | EmptyString => false
  | String d EmptyString => Ascii.eqb d c
  | String _ s' => endsWithChar c s'
  end.

(** [s.replace(/}$/, "")]-style removal of one trailing code unit. *)
Fixpoint dropTrailingChar (c : ascii) (s : string) : string :=
  match s with
  | EmptyString => EmptyString
  | String d EmptyString => if Ascii.eqb d c then EmptyString else s
  | String d s' => String d (dropTrailingChar c s')
  end.

Definition dropLeadingChar (c : ascii) (s : string) : string :=
  match s with
  | String d s' => if Ascii.eqb d c then s' else s
  | EmptyString => EmptyString
  end.

Fixpoint allChars (p : ascii → bool) (s : string) : bool :=
  match s with
  | EmptyString => true
  | String c s' => p c && allChars p s'
  end.

(** [String(n)] for a non-negative integer, and for an integer. *)
Definition ofNat (n : nat) : string := NilEmpty.string_of_uint (Nat.to_uint n).
Definition ofZ (z : Z) : string := NilEmpty.string_of_int (Z.to_int z).

End JsString.

Import JsString.

(** ** Part II.  JavaScript values and objects *)

(** Values found in a parsed document.  [VObj id] is a reference to the heap
    object of identity [id]; two occurrences of the same [id] are the same
    object. *)
Inductive Value : Type :=
| VUndefined
| VNull
| VBool (b : bool)
| VNum (z : Z)
| VStr (s : string)
| VArr (l : list Value)
| VObj (id : nat).

(** Own enumerable properties, in order. *)
Abbreviation Obj := (list (string * Value)).
Abbreviation Heap := (gmap nat Obj).

Definition isUndefined (v : Value) : bool :=
  match v with VUndefined => true | _ => false end.

(** ToBoolean. *)
Definition truthy (v : Value) : bool :=
  match v with
  | VUndefined | VNull => false
  | VBool b => b
  | VNum z => negb (z =? 0)%Z
  | VStr s => negb (String.eqb s "")
  | VArr _ | VObj _ => true
  end.

(** Property tables: read, write (in place when the key exists, appended
    otherwise), delete and the [in] test. *)
Section Props.
Context {A : Type}.

Fixpoint getProp (k : string) (o : list (string * A)) : option A :=
  match o with
  | [] => None
  | (k', v) :: o' => if String.eqb k' k then Some v else getProp k o'
  end.

Fixpoint setProp (k : string) (v : A) (o : list (string * A)) : list (string * A) :=
  match o with
  | [] => [(k, v)]
  | (k', v') :: o' =>
      if String.eqb k' k then (k, v) :: o' else (k', v') :: setProp k v o'
  end.

Fixpoint deleteProp (k : string) (o : list (string * A)) : list (string * A) :=
  match o with
  | [] => []
  | (k', v') :: o' =>
      if String.eqb k' k then deleteProp k o' else (k', v') :: deleteProp k o'
  end.

Definition hasProp (k : string) (o : list (string * A)) : bool :=
  match getProp k o with Some _ => true | None => false end.
End Props.

(** ** Part III.  [normalizeBoolean] and [shouldIncludeOperationForMcp] *)

Definition normalizeBoolean (value : Value) : option bool :=
  match value with
  | VBool b => Some b
  | VStr s =>
      let normalized := toLowerCase (trim s) in
      if bool_decide (normalized ∈ ["true"; "1"; "yes"; "on"]) then Some true
      else if bool_decide (normalized ∈ ["false"; "0"; "no"; "off"]) then Some false
      else None
  | _ => None
  end.

(** The [x-mcp] values are read from the operation, the path item and the
    document.  The result comes with the places whose value drew a
    [console.warn]. *)
Inductive XMcpLevel := AtOperation | AtPathItem | AtRoot.

Definition shouldIncludeWithWarnings (rootRaw pathRaw opRaw : Value) (defaultInclude : bool)
  : bool * list XMcpLevel :=
  match normalizeBoolean opRaw with
  | Some opVal => (opVal, [])
  | None =>
      let w1 := if isUndefined opRaw then [] else [AtOperation] in
      match normalizeBoolean pathRaw with
      | Some pathVal => (pathVal, w1)
      | None =>
          let w2 := if isUndefined pathRaw then w1 else w1 ++ [AtPathItem] in
          match normalizeBoolean rootRaw with
          | Some rootVal => (rootVal, w2)
          | None =>
              let w3 := if isUndefined rootRaw then w2 else w2 ++ [AtRoot] in
              (defaultInclude, w3)
          end
      end
  end.

(** ** Part IV.  Operation identifiers: [titleCase], [generateOperationId] *)

Definition isSeparator (c : ascii) : bool :=
  Ascii.eqb c "-" || Ascii.eqb c "_" || Ascii.eqb c "/".

(** The code units that the pattern [.] does not match. *)
Definition isLineTerminator (c : ascii) : bool := Ascii.eqb c LF || Ascii.eqb c CR.

(** [str.replace(/[-_/](.)/g, (_, char) => char.toUpperCase())]: scanning
    from the left, a separator followed by a code unit that [.] matches is
    replaced, together with that code unit, by its upper case; the scan
    resumes after the pair. *)
Fixpoint replaceSeparators (s : string) : string :=
  match s with
  | EmptyString => EmptyString
  | String c s' =>
      match s' with
      | String d s'' =>
          if isSeparator c && negb (isLineTerminator d)
          then String (charToUpperCase d) (replaceSeparators s'')
          else String c (replaceSeparators s')
      | EmptyString => String c EmptyString
      end
  end.

(** [str.replace(/^./, (char) => char.toUpperCase())]. *)
Definition capitalizeFirst (s : string) : string :=
  match s with
  | String c s' => if isLineTerminator c then s else String (charToUpperCase c) s'
  | EmptyString => EmptyString
  end.

Definition titleCase (str : string) : string :=
  capitalizeFirst
    (dropTrailingChar "}"
       (dropLeadingChar "{"
          (replaceSeparators (toLowerCase str)))).

Definition isPathParameter (part : string) : bool :=
  startsWithChar "{" part && endsWithChar "}" part.

(** The body of the [parts.forEach((part, index) => ...)] callback, as the
    new value of [name]. *)
Definition appendPart (nparts : nat) (name : string) (entry : nat * string) : string :=
  let '(index, part) := entry in
  if isPathParameter part then
    if (index =? nparts - 1)%nat then name +:+ "By" +:+ titleCase part else name
  else name +:+ titleCase part.

Definition pathParts (path : string) : list string :=
  List.filter (λ p, negb (String.eqb p "")) (split "/" path).

Definition generateOperationId (method path : string) : string :=
  let parts := pathParts path in
  fold_left (appendPart (length parts)) (combine (seq 0 (length parts)) parts)
            (toLowerCase method).

(** ** Part V.  Tool names: sanitising and the collision loop *)

Definition isNameChar (c : ascii) : bool :=
  isLower c || isUpper c || isDigit c || Ascii.eqb c "_" || Ascii.eqb c "-".

(** [originalBaseName.replace(/\./g, "_").replace(/[^a-z0-9_-]/gi, "_")]. *)
Definition sanitizeName (originalBaseName : string) : string :=
  mapChars (λ c, if isNameChar c then c else "_"%char)
    (mapChars (λ c, if Ascii.eqb c "." then "_"%char else c) originalBaseName).

(** The loop [while (usedNames.has(nameCandidate)) nameCandidate =
    `${nameCandidate}_${counter++}`], one iteration per unit of fuel;
    [None] when the fuel runs out before the loop exits. *)
Fixpoint dedupLoop (fuel : nat) (usedNames : gset string)
         (nameCandidate : string) (counter : nat) : option string :=
  match fuel with
  | O => None
  | S fuel' =>
      if bool_decide (nameCandidate ∈ usedNames)
      then dedupLoop fuel' usedNames (nameCandidate +:+ "_" +:+ ofNat counter) (S counter)
      else Some nameCandidate
  end.

(** The loop run with one more unit of fuel than there are used names, which
    is enough for it to exit ([dedupLoop_exits] below). *)
Definition uniqueName (usedNames : gset string) (sanitized : string) : string :=
  default sanitized (dedupLoop (S (size usedNames)) usedNames sanitized 1).

(** ** Part VI.  The schema translator, [mapOpenApiSchemaToJsonSchema] *)

(** What the translator and the compiler build: a value taken over as it is
    from the document ([OVal], which may still refer to heap objects of the
    document), or a freshly created object ([OObj]). *)
Inductive Out : Type :=
| OVal (v : Value)
| OObj (fields : list (string * Out)).

(** The values [v] with [typeof v === "object" && v !== null]. *)
Inductive ObjectRef : Type :=
| RObj (id : nat)
| RArr (l : list Value).

Definition asObject (v : Value) : option ObjectRef :=
  match v with
  | VObj id => Some (RObj id)
  | VArr l => Some (RArr l)
  | _ => None
  end.

(** An identity that the heap does not bind denotes an object without
    properties. *)
Definition heapObj (h : Heap) (id : nat) : Obj := default [] (h !! id).

(** The index-keyed properties of an array. *)
Definition indexed (l : list Value) : Obj := imap (λ i v, (ofNat i, v)) l.

Fixpoint charValues (s : string) : list Value :=
  match s with
  | EmptyString => []
  | String c s' => VStr (String c EmptyString) :: charValues s'
  end.

Definition ownProps (h : Heap) (r : ObjectRef) : Obj :=
  match r with
  | RObj id => heapObj h id
  | RArr l => indexed l
  end.

(** [Object.entries(v)]. *)
Definition entries (h : Heap) (v : Value) : Obj :=
  match v with
  | VObj id => heapObj h id
  | VArr l => indexed l
  | VStr s => indexed (charValues s)
  | _ => []
  end.

(** The [seen] set holds object identities.  An array, carried by value, has
    none: it is never found in the set and adding it changes nothing. *)
Definition seenHas (seen : gset nat) (r : ObjectRef) : bool :=
  match r with
  | RObj id => bool_decide (id ∈ seen)
  | RArr _ => false
  end.

Definition seenAdd (seen : gset nat) (r : ObjectRef) : gset nat :=
  match r with
  | RObj id => {[id]} ∪ seen
  | RArr _ => seen
  end.

Definition seenDelete (seen : gset nat) (r : ObjectRef) : gset nat :=
  match r with
  | RObj id => seen ∖ {[id]}
  | RArr _ => seen
  end.

(** [{ type: "object" }]. *)
Definition genericObject : Out := OObj [("type", OVal (VStr "object"))].

(** [{ ...schema }]. *)
Definition spread (o : Obj) : list (string * Out) :=
  map (λ kv, (kv.1, OVal kv.2)) o.

Definition vendorKeys : list string :=
  ["nullable"; "example"; "xml"; "externalDocs"; "deprecated"; "readOnly"; "writeOnly"].

Definition isStr (s : string) (v : Value) : bool :=
  match v with VStr t => String.eqb t s | _ => false end.

Definition outIsStr (s : string) (o : option Out) : bool :=
  match o with Some (OVal v) => isStr s v | _ => false end.

(** The block guarded by [if (schema.nullable)].  The [push] on a type that
    is an array shows here in the copy; the array being carried by value,
    the schema it was copied from keeps its own. *)
Definition foldNullable (jsonSchema : list (string * Out)) : list (string * Out) :=
  match getProp "type" jsonSchema with
  | Some (OVal (VArr l)) =>
      if existsb (isStr "null") l then jsonSchema
      else setProp "type" (OVal (VArr (l ++ [VStr "null"]))) jsonSchema
  | Some (OVal (VStr t)) =>
      setProp "type" (OVal (VArr [VStr t; VStr "null"])) jsonSchema
  | Some (OVal v) =>
      if truthy v then jsonSchema else setProp "type" (OVal (VStr "null")) jsonSchema
  | Some (OObj _) => jsonSchema
  | None => setProp "type" (OVal (VStr "null")) jsonSchema
  end.

(** The loop over [Object.entries(jsonSchema.properties)]; [rec] is the
    recursive call of the translator, [seen] the shared set. *)
Fixpoint mapProperties (rec : ObjectRef → gset nat → option (Out * gset nat))
         (es : Obj) (mappedProps : list (string * Out)) (seen : gset nat)
  : option (list (string * Out) * gset nat) :=
  match es with
  | [] => Some (mappedProps, seen)
  | (key, propSchema) :: es' =>
      match asObject propSchema with
      | Some r =>
          match rec r seen with
          | Some (m, seen') => mapProperties rec es' (setProp key m mappedProps) seen'
          | None => None
          end
      | None =>
          match propSchema with
          | VBool b => mapProperties rec es' (setProp key (OVal (VBool b)) mappedProps) seen
          | _ => mapProperties rec es' mappedProps seen
          end
      end
  end.

(** The copy [jsonSchema] of a schema before its children are translated:
    the spread, the integer type made a number, the vendor keys deleted and
    the nullable flag folded into the type. *)
Definition copySchema (own : Obj) : list (string * Out) :=
  let jsonSchema := spread own in
  let jsonSchema :=
    if match getProp "type" own with Some v => isStr "integer" v | None => false end
    then setProp "type" (OVal (VStr "number")) jsonSchema else jsonSchema in
  let jsonSchema := fold_left (λ o k, deleteProp k o) vendorKeys jsonSchema in
  if match getProp "nullable" own with Some v => truthy v | None => false end
  then foldNullable jsonSchema else jsonSchema.

(** The value of [jsonSchema.properties] when the guard
    [jsonSchema.type === "object" && jsonSchema.properties] holds. *)
Definition propertiesToMap (jsonSchema : list (string * Out)) : option Value :=
  match getProp "properties" jsonSchema with
  | Some (OVal properties) =>
      if outIsStr "object" (getProp "type" jsonSchema) && truthy properties
      then Some properties else None
  | _ => None
  end.

(** The object [jsonSchema.items] when the guard [jsonSchema.type ===
    "array" && typeof jsonSchema.items === "object" && jsonSchema.items !==
    null] holds. *)
Definition itemsToMap (jsonSchema : list (string * Out)) : option ObjectRef :=
  match getProp "items" jsonSchema with
  | Some (OVal items) =>
      if outIsStr "array" (getProp "type" jsonSchema) then asObject items else None
  | _ => None
  end.

(** The translator.  [seen] is the mutable set that all recursive calls
    share: it is passed in and handed back, and the [finally] block is the
    [seenDelete] at the end.  One unit of fuel is spent per nested call;
    [None] means that the fuel ran out. *)
Fixpoint mapOpenApiSchemaToJsonSchema (fuel : nat) (h : Heap)
         (schema : ObjectRef) (seen : gset nat) : option (Out * gset nat) :=
  match fuel with
  | O => None
  | S fuel' =>
      let own := ownProps h schema in
      if hasProp "$ref" own then Some (genericObject, seen)
      else if seenHas seen schema then Some (genericObject, seen)
      else
        let seen := seenAdd seen schema in
        let jsonSchema := copySchema own in
        let withProperties :=
          match propertiesToMap jsonSchema with
          | Some properties =>
              match mapProperties (mapOpenApiSchemaToJsonSchema fuel' h)
                      (entries h properties) [] seen with
              | Some (mappedProps, seen') =>
                  Some (setProp "properties" (OObj mappedProps) jsonSchema, seen')
              | None => None
              end
          | None => Some (jsonSchema, seen)
          end in
        match withProperties with
        | None => None
        | Some (jsonSchema, seen) =>
            let withItems :=
              match itemsToMap jsonSchema with
              | Some items =>
                  match mapOpenApiSchemaToJsonSchema fuel' h items seen with
                  | Some (m, seen') => Some (setProp "items" m jsonSchema, seen')
                  | None => None
                  end
              | None => Some (jsonSchema, seen)
              end in
            match withItems with
            | None => None
            | Some (jsonSchema, seen) => Some (OObj jsonSchema, seenDelete seen schema)
            end
        end
  end.

(** A top-level call, [mapOpenApiSchemaToJsonSchema(schema)], with a fresh
    [seen] set and one more unit of fuel than the heap has objects, which is
    enough ([mapSchema_terminates] below). *)
Definition mapSchema (h : Heap) (schema : nat) : Out :=
  match mapOpenApiSchemaToJsonSchema (S (size h)) h (RObj schema) ∅ with
  | Some (jsonSchema, _) => jsonSchema
  | None => genericObject
  end.

(** ** Part VII.  The OpenAPI document, as the compiler reads it *)

(** [OpenAPIV3.HttpMethods] of the openapi-types package, in the order of
    [Object.values]. *)
Inductive HttpMethods := GET | PUT | POST | DELETE | OPTIONS | HEAD | PATCH | TRACE.

Definition allHttpMethods : list HttpMethods :=
  [GET; PUT; POST; DELETE; OPTIONS; HEAD; PATCH; TRACE].

Definition methodName (m : HttpMethods) : string :=
  match m with
  | GET => "get" | PUT => "put" | POST => "post" | DELETE => "delete"
  | OPTIONS => "options" | HEAD => "head" | PATCH => "patch" | TRACE => "trace"
  end.

Definition methodEqb (a b : HttpMethods) : bool := String.eqb (methodName a) (methodName b).

Record ParameterObject := {
  paramName : string;
  paramIn : string;
  paramDescription : option string;
  paramRequired : bool;
  paramSchema : option nat  (* identity of the schema object, when there is one *)
}.

Record MediaTypeObject := { mediaSchema : option nat }.

Record RequestBodyObject := {
  bodyDescription : option string;
  bodyRequired : bool;
  bodyContent : option (list (string * MediaTypeObject))
}.

Abbreviation SecurityRequirementObject := (list (string * list string)).

(** The [security] key of an operation: absent, [null], or an array. *)
Inductive SecurityField :=
| SecurityUnset
| SecurityNull
| SecurityArray (requirements : list SecurityRequirementObject).

(** An operation as it stands in the document. *)
Record RawOperation := {
  rawXMcp : Value;
  rawXAiDescription : option string;
  rawDeprecated : option bool;
  rawSecurity : SecurityField;
  rawSummary : option string;
  rawDescription : option string;
  rawOperationId : option string;
  rawRequestBody : option RequestBodyObject;
  rawParameters : option (list ParameterObject)
}.

Record AAPOperationObject := {
  xMcp : Value;
  xAiDescription : string;
  deprecated : bool;
  security : SecurityField;
  summary : option string;
  description : option string;
  operationId : option string;
  requestBody : option RequestBodyObject;
  parameters : option (list ParameterObject)
}.

(** [new AAPOperationObject(rawOperation)]. *)
Definition newAAPOperationObject (rawOperation : RawOperation) : AAPOperationObject :=
  {| xMcp := rawXMcp rawOperation;
     xAiDescription := default "" (rawXAiDescription rawOperation);
     deprecated := default false (rawDeprecated rawOperation);
     security := rawSecurity rawOperation;
     summary := rawSummary rawOperation;
     description := rawDescription rawOperation;
     operationId := rawOperationId rawOperation;
     requestBody := rawRequestBody rawOperation;
     parameters := rawParameters rawOperation |}.

Record PathItemObject := {
  pathXMcp : Value;
  pathParameters : option (list ParameterObject);
  pathOperations : list (HttpMethods * RawOperation)
}.

(** [pathItem[method]]. *)
Definition pathOperation (pathItem : PathItemObject) (method : HttpMethods)
  : option RawOperation :=
  snd <$> List.find (λ e, methodEqb e.1 method) (pathOperations pathItem).

Record Document := {
  docXMcp : Value;
  docSecurity : option (list SecurityRequirementObject);
  docPaths : option (list (string * option PathItemObject))
}.

Definition shouldIncludeOperationForMcp (api : Document) (pathItem : PathItemObject)
           (operation : AAPOperationObject) (defaultInclude : bool) : bool :=
  (shouldIncludeWithWarnings (docXMcp api) (pathXMcp pathItem) (xMcp operation)
     defaultInclude).1.

(** ** Part VIII.  [generateInputSchemaAndDetails] *)

Definition sameNameAndLocation (a b : ParameterObject) : bool :=
  String.eqb (paramName a) (paramName b) && String.eqb (paramIn a) (paramIn b).

(** [Array.prototype.findIndex], with [None] for -1. *)
Fixpoint findIndex {A : Type} (p : A → bool) (l : list A) : option nat :=
  match l with
  | [] => None
  | x :: l' => if p x then Some O else S <$> findIndex p l'
  end.

(** The callback of the merging [forEach], as the new [allParameters]. *)
Definition mergeParameter (allParameters : list ParameterObject) (opParam : ParameterObject)
  : list ParameterObject :=
  match findIndex (λ pathParam, sameNameAndLocation pathParam opParam) allParameters with
  | Some existingIndex => <[existingIndex := opParam]> allParameters
  | None => allParameters ++ [opParam]
  end.

(** [operationParameters.concat(pathParametersResolved).forEach(...)]. *)
Definition mergeParameters (operationParameters pathParametersResolved : list ParameterObject)
  : list ParameterObject :=
  fold_left mergeParameter (operationParameters ++ pathParametersResolved) [].

Definition truthyOut (o : Out) : bool :=
  match o with
  | OVal v => truthy v
  | OObj _ => true
  end.

(** [a || b]. *)
Definition orElse (a b : Out) : Out := if truthyOut a then a else b.

Definition ofOptionalString (s : option string) : Out :=
  match s with
  | Some s => OVal (VStr s)
  | None => OVal VUndefined
  end.

(** [o.description], read from an object; [undefined] from anything else. *)
Definition descriptionOf (o : Out) : Out :=
  match o with
  | OObj fields => default (OVal VUndefined) (getProp "description" fields)
  | OVal _ => OVal VUndefined
  end.

(** [if (typeof o === "object") o.description = d]. *)
Definition setDescription (d : Out) (o : Out) : Out :=
  match o with
  | OObj fields => OObj (setProp "description" d fields)
  | OVal _ => o
  end.

(** The callback of [allParameters.forEach], on the pair
    [(properties, required)]. *)
Definition addParameter (h : Heap) (acc : list (string * Out) * list string)
           (param : ParameterObject) : list (string * Out) * list string :=
  let '(properties, required) := acc in
  match paramSchema param with
  | None => acc
  | Some schema =>
      if String.eqb (paramName param) "" then acc
      else
        let mapped := mapSchema h schema in
        let mapped :=
          setDescription
            (orElse (ofOptionalString (paramDescription param)) (descriptionOf mapped))
            mapped in
        (setProp (paramName param) mapped properties,
         if paramRequired param then required ++ [paramName param] else required)
  end.

(** The request-body block, on [(properties, required, requestBodyContentType)]. *)
Definition addRequestBody (h : Heap) (operation : AAPOperationObject)
           (acc : list (string * Out) * list string)
  : list (string * Out) * list string * option string :=
  let '(properties, required) := acc in
  match requestBody operation with
  | None => (properties, required, None)
  | Some opRequestBody =>
      let jsonSchema :=
        content ← bodyContent opRequestBody;
        jsonContent ← getProp "application/json" content;
        mediaSchema jsonContent in
      let firstContent :=
        content ← bodyContent opRequestBody; head content in
      let required' :=
        if bodyRequired opRequestBody then required ++ ["requestBody"] else required in
      match jsonSchema, firstContent with
      | Some schema, _ =>
          let bodySchema := mapSchema h schema in
          let bodySchema :=
            setDescription
              (orElse (ofOptionalString (bodyDescription opRequestBody))
                 (orElse (descriptionOf bodySchema)
                    (OVal (VStr "The JSON request body."))))
              bodySchema in
          (setProp "requestBody" bodySchema properties, required',
           Some "application/json")
      | None, Some (contentType, _) =>
          let body :=
            OObj [("type", OVal (VStr "string"));
                  ("description",
                   orElse (ofOptionalString (bodyDescription opRequestBody))
                     (OVal (VStr ("Request body (content type: " +:+ contentType +:+ ")"))))] in
          (setProp "requestBody" body properties, required', Some contentType)
      | None, None => (properties, required, None)
      end
  end.

Record InputSchemaAndDetails := {
  detailsInputSchema : Out;
  detailsParameters : list ParameterObject;
  detailsRequestBodyContentType : option string
}.

Definition generateInputSchemaAndDetails (h : Heap) (operation : AAPOperationObject)
           (pathParameters : option (list ParameterObject)) : InputSchemaAndDetails :=
  let operationParameters := default [] (parameters operation) in
  let pathParametersResolved := default [] pathParameters in
  let allParameters := mergeParameters operationParameters pathParametersResolved in
  let '(properties, required, requestBodyContentType) :=
    addRequestBody h operation (fold_left (addParameter h) allParameters ([], [])) in
  let inputSchema :=
    OObj ([("type", OVal (VStr "object")); ("properties", OObj properties)]
            ++ (if bool_decide (required = []) then []
                else [("required", OVal (VArr (map VStr required)))])) in
  {| detailsInputSchema := inputSchema;
     detailsParameters := allParameters;
     detailsRequestBodyContentType := requestBodyContentType |}.

(** ** Part IX.  [extractToolsFromApi] *)

Inductive Severity := INFO | WARN | ERR.

Record McpToolLogEntry := { severity : Severity; msg : string }.

Record AAPMcpToolDefinition := {
  name : string;
  toolDescription : string;
  inputSchema : Out;
  method : HttpMethods;
  pathTemplate : string;
  toolParameters : list ParameterObject;
  executionParameters : list (string * string);
  requestBodyContentType : option string;
  securityRequirements : list SecurityRequirementObject;
  toolOperationId : string;
  toolDeprecated : bool;
  logs : list McpToolLogEntry;
  service : option string;
  toolSize : option nat
}.

Definition logNoOperationId : McpToolLogEntry :=
  {| severity := WARN; msg := "no operationId key available" |}.
Definition logTransformed (originalBaseName : string) : McpToolLogEntry :=
  {| severity := WARN; msg := "name was transformed from " +:+ originalBaseName |}.
Definition logNoDescription : McpToolLogEntry :=
  {| severity := WARN; msg := "no description in OpenAPI schema" |}.
Definition logNoSummary : McpToolLogEntry :=
  {| severity := INFO; msg := "no summary in OpenAPI schema" |}.
Definition logNoAiDescription : McpToolLogEntry :=
  {| severity := ERR; msg := "no `x-ai-description` field" |}.
Definition logAiDescriptionTooLong : McpToolLogEntry :=
  {| severity := ERR; msg := "x-ai-description is too long (>300 chars)" |}.
Definition logParameterWithoutDescription : McpToolLogEntry :=
  {| severity := ERR; msg := "has parameter(s) with no `description` key" |}.

(** Truthiness of an optional string: present and not empty. *)
Definition nonEmpty (s : option string) : option string :=
  match s with
  | Some s => if String.eqb s "" then None else Some s
  | None => None
  end.

Definition isNonEmpty (s : option string) : bool :=
  match nonEmpty s with Some _ => true | None => false end.

(** [operation["x-ai-description"] || operation.summary ||
     (operation.description ? operation.description?.trim().split("\n\n")[0] : "")]. *)
Definition resolveDescription (operation : AAPOperationObject) : string :=
  if negb (String.eqb (xAiDescription operation) "") then xAiDescription operation
  else match nonEmpty (summary operation) with
       | Some s => s
       | None =>
           match nonEmpty (description operation) with
           | Some d => splitBlankLineHead (trim d)
           | None => ""
           end
       end.

(** The properties of the input schema that are objects without a truthy
    [description]. *)
Definition missingDescriptions (inputSchema : Out) : list Out :=
  match inputSchema with
  | OObj fields =>
      match getProp "properties" fields with
      | Some (OObj properties) =>
          List.filter
            (λ p, match p with
                  | OObj _ => negb (truthyOut (descriptionOf p))
                  | OVal _ => false
                  end)
            (map snd properties)
      | _ => []
      end
  | OVal _ => []
  end.

(** [operation.security === null ? globalSecurity
     : operation.security || globalSecurity]; an array is truthy, also when
    it is empty. *)
Definition resolveSecurity (operation : AAPOperationObject)
           (globalSecurity : list SecurityRequirementObject)
  : list SecurityRequirementObject :=
  match security operation with
  | SecurityNull => globalSecurity
  | SecurityArray requirements => requirements
  | SecurityUnset => globalSecurity
  end.

(** The diagnostics pushed for one operation, in the order of the pushes. *)
Definition operationLogs (operation : AAPOperationObject)
           (originalBaseName nameCandidate : string) (inputSchema : Out)
  : list McpToolLogEntry :=
  (if isNonEmpty (operationId operation) then [] else [logNoOperationId])
    ++ (if String.eqb originalBaseName nameCandidate then []
        else [logTransformed originalBaseName])
    ++ (if isNonEmpty (description operation) then [] else [logNoDescription])
    ++ (if isNonEmpty (summary operation) then [] else [logNoSummary])
    ++ (if (String.length (xAiDescription operation) =? 0)%nat
        then [logNoAiDescription] else [])
    ++ (if (300 <? String.length (xAiDescription operation))%nat
        then [logAiDescriptionTooLong] else [])
    ++ (if bool_decide (missingDescriptions inputSchema = []) then []
        else [logParameterWithoutDescription]).

(** One turn of the inner loop, for an operation found at [pathItem[method]]:
    [None] when the turn ends in [continue], else the tool pushed.  The
    [catch] around the inclusion test is left out: nothing in the test
    throws. *)
Definition compileOperation (h : Heap) (api : Document) (defaultInclude : bool)
           (usedNames : gset string) (path : string) (pathItem : PathItemObject)
           (method : HttpMethods) (rawOperation : RawOperation)
  : option AAPMcpToolDefinition :=
  let operation := newAAPOperationObject rawOperation in
  let globalSecurity := default [] (docSecurity api) in
  if negb (shouldIncludeOperationForMcp api pathItem operation defaultInclude) then None
  else
    let originalBaseName :=
      default (generateOperationId (methodName method) path)
              (nonEmpty (operationId operation)) in
    if String.eqb originalBaseName "" then None
    else
      let nameCandidate := uniqueName usedNames (sanitizeName originalBaseName) in
      let details := generateInputSchemaAndDetails h operation (pathParameters pathItem) in
      Some {| name := nameCandidate;
              toolDescription := resolveDescription operation;
              inputSchema := detailsInputSchema details;
              method := method;
              pathTemplate := path;
              toolParameters := detailsParameters details;
              executionParameters :=
                map (λ p, (paramName p, paramIn p)) (detailsParameters details);
              requestBodyContentType := detailsRequestBodyContentType details;
              securityRequirements := resolveSecurity operation globalSecurity;
              toolOperationId := originalBaseName;
              toolDeprecated := deprecated operation;
              logs := operationLogs operation originalBaseName nameCandidate
                        (detailsInputSchema details);
              service := None;
              toolSize := None |}.

(** The state of the two loops: the tools pushed so far and [usedNames]. *)
Abbreviation ExtractState := (list AAPMcpToolDefinition * gset string)%type.

Definition extractMethod (h : Heap) (api : Document) (defaultInclude : bool)
           (path : string) (pathItem : PathItemObject)
           (st : ExtractState) (method : HttpMethods) : ExtractState :=
  match pathOperation pathItem method with
  | None => st
  | Some rawOperation =>
      match compileOperation h api defaultInclude st.2 path pathItem method rawOperation with
      | None => st
      | Some tool => (st.1 ++ [tool], {[name tool]} ∪ st.2)
      end
  end.

Definition extractPath (h : Heap) (api : Document) (defaultInclude : bool)
           (st : ExtractState) (entry : string * option PathItemObject) : ExtractState :=
  match entry.2 with
  | None => st
  | Some pathItem =>
      fold_left (extractMethod h api defaultInclude entry.1 pathItem) allHttpMethods st
  end.

Definition extractToolsFromApi (h : Heap) (api : Document) (defaultInclude : bool)
  : list AAPMcpToolDefinition :=
  match docPaths api with
  | None => []
  | Some paths => (fold_left (extractPath h api defaultInclude) paths ([], ∅)).1
  end.

(** ** Part X.  [JSON.stringify] *)

(** How an evaluation ends: with a value, with a thrown [TypeError], or
    (in the embedding only) with the fuel spent. *)
Inductive Completion (A : Type) : Type :=
| Normal (a : A)
| Throw
| OutOfFuel.
Arguments Normal {A} a.
Arguments Throw {A}.
Arguments OutOfFuel {A}.

Definition quoteMark : ascii := ascii_of_N 34.
Definition backslash : ascii := ascii_of_N 92.

Definition hexDigit (n : N) : ascii :=
  if (n <? 10)%N then ascii_of_N (48 + n) else ascii_of_N (87 + n).

(** The escape of one code unit in QuoteJSONString. *)
Definition quoteChar (c : ascii) : string :=
  let n := code c in
  if (n =? 34)%N then String backslash (String quoteMark EmptyString)
  else if (n =? 92)%N then String backslash (String backslash EmptyString)
  else if (n =? 8)%N then String backslash "b"
  else if (n =? 12)%N then String backslash "f"
  else if (n =? 10)%N then String backslash "n"
  else if (n =? 13)%N then String backslash "r"
  else if (n =? 9)%N then String backslash "t"
  else if (n <? 32)%N then
    String backslash ("u00" +:+ String (hexDigit (n / 16)) (String (hexDigit (n mod 16)) EmptyString))
  else String c EmptyString.

Fixpoint quoteChars (s : string) : string :=
  match s with
  | EmptyString => EmptyString
  | String c s' => quoteChar c +:+ quoteChars s'
  end.

Definition quoteJSONString (s : string) : string :=
  String quoteMark (quoteChars s) +:+ String quoteMark EmptyString.

Fixpoint joinWith (sep : string) (l : list string) : string :=
  match l with
  | [] => EmptyString
  | [x] => x
  | x :: l' => x +:+ sep +:+ joinWith sep l'
  end.

(** The members of an object: a property whose value serialises to
    [undefined] is left out. *)
Fixpoint serializeMembers {A : Type} (ser : A → Completion (option string))
         (o : list (string * A)) : Completion (list string) :=
  match o with
  | [] => Normal []
  | (k, v) :: o' =>
      match ser v with
      | Normal strP =>
          match serializeMembers ser o' with
          | Normal rest =>
              Normal (match strP with
                      | Some text => (quoteJSONString k +:+ ":" +:+ text) :: rest
                      | None => rest
                      end)
          | Throw => Throw
          | OutOfFuel => OutOfFuel
          end
      | Throw => Throw
      | OutOfFuel => OutOfFuel
      end
  end.

Definition braces (members : list string) : string := "{" +:+ joinWith "," members +:+ "}".
Definition brackets (elements : list string) : string := "[" +:+ joinWith "," elements +:+ "]".

(** The elements of an array: an element that serialises to [undefined]
    is written [null]. *)
Fixpoint serializeElements {A : Type} (ser : A → Completion (option string))
         (l : list A) : Completion (list string) :=
  match l with
  | [] => Normal []
  | x :: l' =>
      match ser x with
      | Normal strP =>
          match serializeElements ser l' with
          | Normal rest => Normal (default "null" strP :: rest)
          | Throw => Throw
          | OutOfFuel => OutOfFuel
          end
      | Throw => Throw
      | OutOfFuel => OutOfFuel
      end
  end.

(** SerializeJSONProperty on a document value.  [stack] holds the heap
    objects being serialised; meeting one of them again is the circular
    structure [TypeError].  One unit of fuel is spent per heap object
    entered.  Numbers are the integers. *)
Fixpoint serializeJSONProperty (fuel : nat) (h : Heap) (stack : gset nat) (v : Value)
  : Completion (option string) :=
  let fix value (v : Value) : Completion (option string) :=
    match v with
    | VUndefined => Normal None
    | VNull => Normal (Some "null")
    | VBool true => Normal (Some "true")
    | VBool false => Normal (Some "false")
    | VNum z => Normal (Some (ofZ z))
    | VStr s => Normal (Some (quoteJSONString s))
    | VArr l =>
        match serializeElements value l with
        | Normal texts => Normal (Some (brackets texts))
        | Throw => Throw
        | OutOfFuel => OutOfFuel
        end
    | VObj id =>
        match fuel with
        | O => OutOfFuel
        | S fuel' =>
            if bool_decide (id ∈ stack) then Throw
            else
              match serializeMembers (serializeJSONProperty fuel' h ({[id]} ∪ stack))
                      (heapObj h id) with
              | Normal members => Normal (Some (braces members))
              | Throw => Throw
              | OutOfFuel => OutOfFuel
              end
        end
    end in
  value v.

(** SerializeJSONProperty on what the compiler built: fresh objects are
    trees, the document values inside them are serialised as above, with
    one more unit of fuel than the heap has objects, which is enough
    ([serializeOut_fuel] below). *)
Fixpoint serializeOut (h : Heap) (o : Out) : Completion (option string) :=
  match o with
  | OVal v => serializeJSONProperty (S (size h)) h ∅ v
  | OObj fields =>
      match serializeMembers (serializeOut h) fields with
      | Normal texts => Normal (Some (braces texts))
      | Throw => Throw
      | OutOfFuel => OutOfFuel
      end
  end.

(** [JSON.stringify(o).length]: the number of code units of the text; the
    [undefined] that [JSON.stringify] gives for an unserialisable value has
    no [length], which throws. *)
Definition stringifyLength (h : Heap) (o : Out) : Completion nat :=
  match serializeOut h o with
  | Normal (Some text) => Normal (String.length text)
  | Normal None => Throw
  | Throw => Throw
  | OutOfFuel => OutOfFuel
  end.

(** ** Part XI.  The catalog aggregator, [generateTools] *)

(** One entry of [loadOpenApiSpecs]: the service, its document (after
    [deref], [convert] and [bundle], which are the loader's work) and the
    per-service hook [reformatFunc].  The hook's code is in the loader, not
    in the files at hand; it comes with the entry, as in the source, giving
    the tool as the hook leaves it, or [None] when its result is falsy. *)
Record OpenApiSpec := {
  specService : string;
  specDocument : Document;
  reformatFunc : AAPMcpToolDefinition → option AAPMcpToolDefinition
}.

Definition allowedOperations (allowWriteOperations : bool) : list string :=
  if allowWriteOperations
  then ["GET"; "POST"; "PUT"; "PATCH"; "DELETE"; "HEAD"; "OPTIONS"]
  else ["GET"; "HEAD"; "OPTIONS"].

Definition withService (s : string) (t : AAPMcpToolDefinition) : AAPMcpToolDefinition :=
  {| name := name t; toolDescription := toolDescription t; inputSchema := inputSchema t;
     method := method t; pathTemplate := pathTemplate t;
     toolParameters := toolParameters t; executionParameters := executionParameters t;
     requestBodyContentType := requestBodyContentType t;
     securityRequirements := securityRequirements t;
     toolOperationId := toolOperationId t; toolDeprecated := toolDeprecated t;
     logs := logs t; service := Some s; toolSize := toolSize t |}.

Definition withSize (n : nat) (t : AAPMcpToolDefinition) : AAPMcpToolDefinition :=
  {| name := name t; toolDescription := toolDescription t; inputSchema := inputSchema t;
     method := method t; pathTemplate := pathTemplate t;
     toolParameters := toolParameters t; executionParameters := executionParameters t;
     requestBodyContentType := requestBodyContentType t;
     securityRequirements := securityRequirements t;
     toolOperationId := toolOperationId t; toolDeprecated := toolDeprecated t;
     logs := logs t; service := service t; toolSize := Some n |}.

(** The callback of [tools.filter]: the tool kept, with its service, or
    [None] when it is dropped.  The diagnostic pushed on a tool of a method
    that is not allowed goes with the dropped tool. *)
Definition filterTool (allowWriteOperations : bool) (spec : OpenApiSpec)
           (tool : AAPMcpToolDefinition) : option AAPMcpToolDefinition :=
  let tool := withService (specService spec) tool in
  if bool_decide (toUpperCase (methodName (method tool)) ∈ allowedOperations allowWriteOperations)
  then reformatFunc spec tool
  else None.

(** The loop over the specs: [rawToolList]. *)
Definition rawToolList (h : Heap) (allowWriteOperations : bool) (openApiSpecs : list OpenApiSpec)
  : list AAPMcpToolDefinition :=
  fold_left
    (λ raw spec,
       raw ++ omap (filterTool allowWriteOperations spec)
                   (extractToolsFromApi h (specDocument spec) true))
    openApiSpecs [].

(** [{ name: tool.name, description: tool.description, inputSchema: tool.inputSchema }]. *)
Definition sizedObject (tool : AAPMcpToolDefinition) : Out :=
  OObj [("name", OVal (VStr (name tool)));
        ("description", OVal (VStr (toolDescription tool)));
        ("inputSchema", inputSchema tool)].

(** [rawToolList.map((tool) => ({ ...tool, size: toolSize }))]. *)
Fixpoint toolsWithSize (h : Heap) (raw : list AAPMcpToolDefinition)
  : Completion (list AAPMcpToolDefinition) :=
  match raw with
  | [] => Normal []
  | tool :: raw' =>
      match stringifyLength h (sizedObject tool) with
      | Normal n =>
          match toolsWithSize h raw' with
          | Normal rest => Normal (withSize n tool :: rest)
          | Throw => Throw
          | OutOfFuel => OutOfFuel
          end
      | Throw => Throw
      | OutOfFuel => OutOfFuel
      end
  end.

Definition sizeOf (t : AAPMcpToolDefinition) : nat := default O (toolSize t).

(** [toolsWithSize.sort((a, b) => b.size - a.size)].  The sort of an array
    is stable; with this comparator an element goes before the first one
    of the sorted rest that is not larger. *)
Fixpoint insertBySize (t : AAPMcpToolDefinition) (sorted : list AAPMcpToolDefinition)
  : list AAPMcpToolDefinition :=
  match sorted with
  | [] => [t]
  | u :: sorted' =>
      if (sizeOf t <? sizeOf u)%nat then u :: insertBySize t sorted' else t :: sorted
  end.

Definition sortBySizeDescending (l : list AAPMcpToolDefinition) : list AAPMcpToolDefinition :=
  foldr insertBySize [] l.

Definition generateTools (h : Heap) (allowWriteOperations : bool)
           (openApiSpecs : list OpenApiSpec) : Completion (list AAPMcpToolDefinition) :=
  match toolsWithSize h (rawToolList h allowWriteOperations openApiSpecs) with
  | Normal sized => Normal (sortBySizeDescending sized)
  | Throw => Throw
  | OutOfFuel => OutOfFuel
  end.

(** ** Part XII.  Sessions and the dispatch gateway *)

Record Session := {
  token : string;
  userAgent : string;
  category : string;
  transport : nat
}.

Abbreviation SessionData := (gmap string Session).
Abbreviation Categories := (gmap string (list string)).

(** [Object.values(allCategories).flat()]. *)
Definition allCategoryTools (allCategories : Categories) : list string :=
  concat (map snd (map_to_list allCategories)).

(** [filterToolsByCategory]; [None] is the [TypeError] of calling
    [includes] on an [undefined] selection, which happens at the first tool
    that the filter visits. *)
Definition filterToolsByCategory (allCategories : Categories)
           (tools : list AAPMcpToolDefinition) (category : string)
  : option (list AAPMcpToolDefinition) :=
  let toolsSelection :=
    if String.eqb category "all" then Some (allCategoryTools allCategories)
    else allCategories !! category in
  match tools, toolsSelection with
  | [], _ => Some []
  | _, Some selection =>
      Some (List.filter (λ tool, bool_decide (name tool ∈ selection)) tools)
  | _, None => None
  end.

Inductive Reply (A : Type) : Type :=
| Result (a : A)
| Failure (message : string).
Arguments Result {A} a.
Arguments Failure {A} message.

(** The session of a request, or the error thrown by
    [if (!sessionId || !sessionData[sessionId])]. *)
Definition sessionOf (sessionData : SessionData) (sessionId : option string)
  : Reply Session :=
  match sessionId with
  | Some sid =>
      if String.eqb sid "" then Failure "Invalid or missing session ID"
      else match sessionData !! sid with
           | Some s => Result s
           | None => Failure "Invalid or missing session ID"
           end
  | None => Failure "Invalid or missing session ID"
  end.

(** The [tools/list] handler. *)
Definition listTools (allCategories : Categories) (allTools : list AAPMcpToolDefinition)
           (sessionData : SessionData) (sessionId : option string)
  : Reply (list (string * string * Out)) :=
  match sessionOf sessionData sessionId with
  | Failure m => Failure m
  | Result s =>
      match filterToolsByCategory allCategories allTools (category s) with
      | Some filteredTools =>
          Result (map (λ tool, (name tool, toolDescription tool, inputSchema tool))
                      filteredTools)
      | None => Failure "TypeError"
      end
  end.

(** The [tools/call] handler up to the point where the HTTP request is
    built: the tool and the session that the request is made for, or the
    error thrown before. *)
Definition resolveCall (allTools : list AAPMcpToolDefinition) (sessionData : SessionData)
           (sessionId : option string) (toolName : string)
  : Reply (AAPMcpToolDefinition * Session) :=
  match sessionOf sessionData sessionId with
  | Failure m => Failure m
  | Result s =>
      match List.find (λ t, String.eqb (name t) toolName) allTools with
      | Some tool => Result (tool, s)
      | None => Failure ("Unknown tool: " +:+ toolName)
      end
  end.

(** [extractBearerToken]. *)
Definition extractBearerToken (authHeader : option string) : option string :=
  match authHeader with
  | Some a =>
      if String.eqb a "" then None
      else if String.prefix "Bearer " a then Some (String.substring 7 (String.length a - 7) a)
      else None
  | None => None
  end.

(** The category bound by [mcpPostHandler]. *)
Definition boundCategory (allCategories : Categories) (requested : option string) : string :=
  match requested with
  | Some c => if bool_decide (c ∈ dom allCategories) then c else "all"
  | None => "all"
  end.

(** What changes the session registry. *)
Inductive SessionEvent :=
| Initialize (requestedCategory : option string) (authHeader : option string)
             (userAgentHeader : option string) (newSessionId : string)
             (tokenIsValid : bool) (newTransport : nat)
| TransportClosed (sid : string)
| Terminate (sid : string)
| Shutdown.

Definition storeSessionData (sessionData : SessionData) (sessionId token userAgent category : string)
           (transport : nat) : SessionData :=
  <[sessionId := {| token := token; userAgent := userAgent;
                    category := category; transport := transport |}]> sessionData.

(** One change of the registry.  [Initialize] is a POST without a session
    header that carries an initialize request: [onsessioninitialized] stores
    the session when the header has a bearer token and [validateToken]
    accepts it. *)
Definition sessionStep (allCategories : Categories) (sessionData : SessionData)
           (e : SessionEvent) : SessionData :=
  match e with
  | Initialize requested authHeader userAgentHeader sessionId tokenIsValid transport =>
      let category := boundCategory allCategories requested in
      match nonEmpty (extractBearerToken authHeader) with
      | Some token =>
          if tokenIsValid
          then storeSessionData sessionData sessionId token
                 (default "unknown" (nonEmpty userAgentHeader)) category transport
          else sessionData
      | None => sessionData
      end
  | TransportClosed sid => delete sid sessionData
  | Terminate sid => delete sid sessionData
  | Shutdown => ∅
  end.

Definition runSessions (allCategories : Categories) (events : list SessionEvent)
  : SessionData :=
  fold_left (sessionStep allCategories) events ∅.

(** ** Part XIII.  Notions used to state the properties *)



(** The strings of a list, one after the other. *)
Definition appendAll (l : list string) : string := foldr String.append EmptyString l.

(** What one path segment adds to the identifier, in the words of the
    specification: a parameter segment adds [By] and its title-cased name
    when it is the last segment and nothing otherwise; any other segment
    adds its title case. *)
Definition contribution (nparts : nat) (entry : nat * string) : string :=
  let '(index, part) := entry in
  if isPathParameter part then
    if (index =? nparts - 1)%nat then "By" +:+ titleCase part else EmptyString
  else titleCase part.

(** The candidate after [k] turns of the collision loop: the suffixes
    [_counter], [_counter+1], ... are appended one after the other. *)
Fixpoint suffixed (nameCandidate : string) (counter k : nat) : string :=
  match k with
  | O => nameCandidate
  | S k' => suffixed (nameCandidate +:+ "_" +:+ ofNat counter) (S counter) k'
  end.

(** The names in use that are at least as long as the candidate: each turn
    of the loop lengthens the candidate and so removes one of them. *)
Definition atLeastAsLong (c : string) (usedNames : gset string) : gset string :=
  filter (λ u, String.length c ≤ String.length u)%nat usedNames.

(** [tool] is what the compiler pushes for the operation [rawOperation],
    found in the document at the tool's path and method, under some set of
    names in use. *)
Definition compiledFrom (h : Heap) (api : Document) (defaultInclude : bool)
           (tool : AAPMcpToolDefinition) (rawOperation : RawOperation) : Prop :=
  ∃ paths usedNames pathItem,
    docPaths api = Some paths ∧
    In (pathTemplate tool, Some pathItem) paths ∧
    pathOperation pathItem (method tool) = Some rawOperation ∧
    compileOperation h api defaultInclude usedNames (pathTemplate tool) pathItem
                     (method tool) rawOperation = Some tool.

(** The names of a document's tools, in the order of compilation: a name
    is not among the names before it, and it is the sanitised identifier
    followed by the suffixes [_1], [_2], ... up to the first that gives a
    name not yet taken. *)
Inductive NamedInOrder : list AAPMcpToolDefinition → Prop :=
| NamedNone : NamedInOrder []
| NamedNext (tools : list AAPMcpToolDefinition) (tool : AAPMcpToolDefinition) (k : nat) :
    NamedInOrder tools →
    name tool ∉ map name tools →
    name tool = suffixed (sanitizeName (toolOperationId tool)) 1 k →
    (∀ j, (j < k)%nat →
          suffixed (sanitizeName (toolOperationId tool)) 1 j ∈ map name tools) →
    NamedInOrder (tools ++ [tool]).

(** A non-empty word over [A-Za-z0-9_-]. *)
Definition validName (s : string) : Prop := s ≠ "" ∧ allChars isNameChar s = true.

(** Diagnostics are compared by severity and message. *)
Definition severityEqb (a b : Severity) : bool :=
  match a, b with
  | INFO, INFO | WARN, WARN | ERR, ERR => true
  | _, _ => false
  end.

Definition sameLog (a b : McpToolLogEntry) : bool :=
  severityEqb (severity a) (severity b) && String.eqb (msg a) (msg b).

(** How many times a diagnostic stands in a list of diagnostics. *)
Definition countLog (e : McpToolLogEntry) (l : list McpToolLogEntry) : nat :=
  length (List.filter (sameLog e) l).

(** The claim on security, in the words of the specification: the global
    list for an operation whose [security] is unset, [null] or an empty
    array, the operation's own list otherwise. *)
Definition securityAsSpecified (api : Document) (rawOperation : RawOperation)
           (tool : AAPMcpToolDefinition) : Prop :=
  match rawSecurity rawOperation with
  | SecurityUnset | SecurityNull | SecurityArray [] =>
      securityRequirements tool = default [] (docSecurity api)
  | SecurityArray requirements => securityRequirements tool = requirements
  end.

(** The entry of a list that was declared last for the name and location
    of [p]. *)
Definition lastDeclared (p : ParameterObject) (l : list ParameterObject)
  : option ParameterObject :=
  List.find (sameNameAndLocation p) (rev l).

(** What the merging loop keeps true of [allParameters], [l] being the
    entries visited so far: no two entries share a name and location, every
    entry is the one declared last for its name and location, and every
    visited entry has its name and location represented. *)
Definition Merged (l allParameters : list ParameterObject) : Prop :=
  (∀ i j a b, allParameters !! i = Some a → allParameters !! j = Some b →
              sameNameAndLocation a b = true → i = j) ∧
  (∀ q, In q allParameters → lastDeclared q l = Some q) ∧
  (∀ p, In p l → ∃ q, In q allParameters ∧ sameNameAndLocation q p = true).

(** Descending order: every tool is at least as large as those after it. *)
Definition notSmaller (a b : AAPMcpToolDefinition) : Prop := (sizeOf b ≤ sizeOf a)%nat.

(** A tool that carries a size carries the length of its serialisation. *)
Definition sizedBySerialization (h : Heap) (tool : AAPMcpToolDefinition) : Prop :=
  ∃ text, serializeOut h (sizedObject tool) = Normal (Some text) ∧
          toolSize tool = Some (String.length text).

(** The byte length of a text, in the words of the specification: the
    number of bytes of its UTF-8 encoding, one for a code unit below 128
    and two for the others that the embedding carries. *)
Fixpoint utf8ByteLength (s : string) : nat :=
  match s with
  | EmptyString => O
  | String c s' => ((if (code c <? 128)%N then 1 else 2) + utf8ByteLength s')%nat
  end.

Definition isAscii (c : ascii) : bool := (code c <? 128)%N.

(** The category that [mcpPostHandler] binds is [all] or a key of the
    category map. *)
Definition knownCategory (allCategories : Categories) (c : string) : Prop :=
  c = "all" ∨ c ∈ dom allCategories.

(** ** Part XIV.  Sample documents, catalogs and sessions *)

(** A schema that holds itself: object 1 has a property [self] that is
    object 1 again, a property [next] that is the array schema 3, whose
    items are object 1, and a property [other] that is a reference. *)
Definition cyclicHeap : Heap :=
  list_to_map
    [(1%nat, [("type", VStr "object"); ("properties", VObj 2)]);
     (2%nat, [("self", VObj 1); ("next", VObj 3); ("other", VObj 4)]);
     (3%nat, [("type", VStr "array"); ("items", VObj 1)]);
     (4%nat, [("$ref", VStr "#/components/schemas/Other")])].

(** A document with one path, no path-level parameters and the given
    operations, under a global security list. *)
Definition documentAt (path : string) (pathParams : option (list ParameterObject))
           (operations : list (HttpMethods * RawOperation)) : Document :=
  {| docXMcp := VUndefined;
     docSecurity := Some [[("bearerAuth", [])]];
     docPaths := Some [(path, Some {| pathXMcp := VUndefined;
                                      pathParameters := pathParams;
                                      pathOperations := operations |})] |}.

Fixpoint repeatChar (c : ascii) (n : nat) : string :=
  match n with
  | O => EmptyString
  | S n' => String c (repeatChar c n')
  end.

(** An operation whose AI-facing description has 301 code units. *)
Definition verboseOperation : RawOperation :=
  {| rawXMcp := VUndefined; rawXAiDescription := Some (repeatChar "a" 301);
     rawDeprecated := None; rawSecurity := SecurityUnset;
     rawSummary := Some "Get widget"; rawDescription := None;
     rawOperationId := None; rawRequestBody := None; rawParameters := None |}.

Definition verboseDocument : Document := documentAt "/widgets/{id}" None [(GET, verboseOperation)].

(** An operation that declares an empty [security] array. *)
Definition publicOperation : RawOperation :=
  {| rawXMcp := VUndefined; rawXAiDescription := Some "Service status";
     rawDeprecated := None; rawSecurity := SecurityArray [];
     rawSummary := None; rawDescription := None;
     rawOperationId := Some "status"; rawRequestBody := None; rawParameters := None |}.

Definition publicDocument : Document := documentAt "/status" None [(GET, publicOperation)].

(** Proves [compiledFrom] for a tool of a sample document, by evaluation. *)
Ltac compiled_from_sample :=
  eexists _, ∅, _;
  split; [reflexivity |];
  split; [left; reflexivity |];
  split; [reflexivity | vm_compute; reflexivity].

(** The operation and the path item both declare the path parameter [id]. *)
Definition operationLevelParameter : ParameterObject :=
  {| paramName := "id"; paramIn := "path";
     paramDescription := Some "Widget id, as the operation declares it";
     paramRequired := true; paramSchema := None |}.

Definition pathLevelParameter : ParameterObject :=
  {| paramName := "id"; paramIn := "path";
     paramDescription := Some "Widget id, as the path item declares it";
     paramRequired := false; paramSchema := None |}.

Definition overridingOperation : RawOperation :=
  {| rawXMcp := VUndefined; rawXAiDescription := Some "Fetch a widget";
     rawDeprecated := None; rawSecurity := SecurityUnset;
     rawSummary := None; rawDescription := None;
     rawOperationId := Some "getWidget"; rawRequestBody := None;
     rawParameters := Some [operationLevelParameter] |}.

Definition overridingDocument : Document :=
  documentAt "/widgets/{id}" (Some [pathLevelParameter]) [(GET, overridingOperation)].

(** Modelled from the spec: the per-service hook [reformatFunc] is code of
    the loader, which is not among the sources.  The specification has the
    aggregator stamp each tool with its service and drop the tools of
    methods that are not allowed, and nothing else; the hook that does
    nothing else keeps every tool as it is. *)
Definition keepTool (tool : AAPMcpToolDefinition) : option AAPMcpToolDefinition := Some tool.

Definition listOperation : RawOperation :=
  {| rawXMcp := VUndefined; rawXAiDescription := Some "List the items";
     rawDeprecated := None; rawSecurity := SecurityUnset;
     rawSummary := None; rawDescription := None;
     rawOperationId := Some "list"; rawRequestBody := None; rawParameters := None |}.

(** Three operations of one document with the same identifier. *)
Definition tripleDocument : Document :=
  {| docXMcp := VUndefined;
     docSecurity := None;
     docPaths := Some [("/a", Some {| pathXMcp := VUndefined; pathParameters := None;
                                      pathOperations :=
                                        [(GET, listOperation); (POST, listOperation);
                                         (DELETE, listOperation)] |})] |}.

(** Two operations of one document with the same identifier. *)
Definition listDocument : Document :=
  {| docXMcp := VUndefined;
     docSecurity := None;
     docPaths := Some [("/items", Some {| pathXMcp := VUndefined;
                                          pathParameters := None;
                                          pathOperations := [(GET, listOperation)] |});
                       ("/things", Some {| pathXMcp := VUndefined;
                                           pathParameters := None;
                                           pathOperations := [(GET, listOperation)] |})] |}.

(** Two services that publish the same document. *)
Definition twoServices : list OpenApiSpec :=
  [{| specService := "controller"; specDocument := listDocument; reformatFunc := keepTool |};
   {| specService := "gateway"; specDocument := listDocument; reformatFunc := keepTool |}].

(** A service with a short and a long operation, the short one first. *)
Definition describedOperation : RawOperation :=
  {| rawXMcp := VUndefined;
     rawXAiDescription := Some "List the job templates that the user may launch";
     rawDeprecated := None; rawSecurity := SecurityUnset;
     rawSummary := None; rawDescription := None;
     rawOperationId := Some "job_templates_list"; rawRequestBody := None;
     rawParameters := None |}.

Definition mixedDocument : Document :=
  {| docXMcp := VUndefined;
     docSecurity := None;
     docPaths := Some [("/status", Some {| pathXMcp := VUndefined;
                                           pathParameters := None;
                                           pathOperations := [(GET, publicOperation)] |});
                       ("/job_templates", Some {| pathXMcp := VUndefined;
                                                  pathParameters := None;
                                                  pathOperations := [(GET, describedOperation)] |})] |}.

Definition mixedService : list OpenApiSpec :=
  [{| specService := "controller"; specDocument := mixedDocument; reformatFunc := keepTool |}].

(** An operation whose description holds a letter outside ASCII: the code
    unit 233, e with an acute accent. *)
Definition accentedOperation : RawOperation :=
  {| rawXMcp := VUndefined;
     rawXAiDescription := Some ("Caf" +:+ String (ascii_of_N 233) " menu");
     rawDeprecated := None; rawSecurity := SecurityUnset;
     rawSummary := None; rawDescription := None;
     rawOperationId := Some "menu"; rawRequestBody := None; rawParameters := None |}.

Definition accentedService : list OpenApiSpec :=
  [{| specService := "cafe";
      specDocument := documentAt "/menu" None [(GET, accentedOperation)];
      reformatFunc := keepTool |}].

(** A read-only category that leaves [deleteWidget] out. *)
Definition sampleCategories : Categories :=
  list_to_map [("readonly", ["getWidget"]); ("admin", ["getWidget"; "deleteWidget"])].

Definition sampleTool (n : string) (m : HttpMethods) : AAPMcpToolDefinition :=
  {| name := n; toolDescription := n; inputSchema := genericObject; method := m;
     pathTemplate := "/widgets/{id}"; toolParameters := []; executionParameters := [];
     requestBodyContentType := None; securityRequirements := [];
     toolOperationId := n; toolDeprecated := false; logs := []; service := None;
     toolSize := None |}.

Definition sampleCatalog : list AAPMcpToolDefinition :=
  [sampleTool "deleteWidget" DELETE; sampleTool "getWidget" GET].

Definition sampleSessions : SessionData :=
  {["s-1" := {| token := "secret"; userAgent := "cli"; category := "readonly";
                transport := 0%nat |}]}.

(** ** Part XV.  The HTTP routes of the gateway and of the views *)

(** The names that a plain object inherits from [Object.prototype]: a
    lookup [o[k]] with such a [k] that [o] does not have itself gives a
    function (or, for [__proto__], the prototype object), which is truthy
    and is no array. *)
Definition objectPrototypeKeys : list string :=
  ["constructor"; "__defineGetter__"; "__defineSetter__"; "hasOwnProperty";
   "__lookupGetter__"; "__lookupSetter__"; "isPrototypeOf"; "propertyIsEnumerable";
   "toString"; "valueOf"; "__proto__"; "toLocaleString"].

(** What [mcpPostHandler] does with a request: hand it to the transport
    of its session, open a new transport for an initialize request that
    names no session, or answer 400.  As in [sessionOf], the registry is
    looked up for its own properties: an identifier named like a property
    that the registry inherits is outside the model. *)
Inductive PostRoute :=
| ReuseTransport (transport : nat)
| NewTransport
| BadRequest.

Definition mcpPostRoute (sessionData : SessionData) (sessionId : option string)
           (isInitializeRequest : bool) : PostRoute :=
  match nonEmpty sessionId with
  | Some sid =>
      match sessionData !! sid with
      | Some s => ReuseTransport (transport s)
      | None => BadRequest
      end
  | None => if isInitializeRequest then NewTransport else BadRequest
  end.

(** [mcpGetHandler] and the guard of [mcpDeleteHandler]: the transport that
    gets the request, or the 400 answer. *)
Definition mcpGetRoute (sessionData : SessionData) (sessionId : option string) : Reply nat :=
  match sessionOf sessionData sessionId with
  | Result s => Result (transport s)
  | Failure m => Failure m
  end.




(** [tool.service || "unknown"]. *)
Definition serviceOf (tool : AAPMcpToolDefinition) : string :=
  default "unknown" (nonEmpty (service tool)).




(** [getCategoryColor]: the sum of the code units of the name picks one of
    eight colours. *)
Definition categoryColors : list string :=
  ["#6c757d"; "#28a745"; "#dc3545"; "#17a2b8"; "#007acc"; "#ff9800"; "#9c27b0"; "#4caf50"].

Definition charCodeSum (s : string) : N :=
  fold_left (λ acc char, (acc + code char)%N) (list_ascii_of_string s) 0%N.

Definition getCategoryColor (categoryName : string) : option string :=
  categoryColors !! N.to_nat (charCodeSum categoryName mod N.of_nat (length categoryColors)).

(** ** Part XVI.  The diagnostics added when the server starts *)

Definition logDeprecated : McpToolLogEntry :=
  {| severity := INFO; msg := "endpoint is deprecated" |}.
Definition logNameOver64 : McpToolLogEntry :=
  {| severity := ERR; msg := "tool name is too long (64)" |}.
Definition logNameOver40 : McpToolLogEntry :=
  {| severity := WARN; msg := "tool name is too long (40)" |}.

Definition pushLogs (entries : list McpToolLogEntry) (t : AAPMcpToolDefinition)
  : AAPMcpToolDefinition :=
  {| name := name t; toolDescription := toolDescription t; inputSchema := inputSchema t;
     method := method t; pathTemplate := pathTemplate t;
     toolParameters := toolParameters t; executionParameters := executionParameters t;
     requestBodyContentType := requestBodyContentType t;
     securityRequirements := securityRequirements t;
     toolOperationId := toolOperationId t; toolDeprecated := toolDeprecated t;
     logs := logs t ++ entries; service := service t; toolSize := toolSize t |}.

(** The body of the [allTools.forEach] of [main]. *)
Definition startupLogs (tool : AAPMcpToolDefinition) : list McpToolLogEntry :=
  (if toolDeprecated tool then [logDeprecated] else [])
    ++ (if (64 <? String.length (name tool))%nat then [logNameOver64]
        else if (40 <? String.length (name tool))%nat then [logNameOver40]
        else []).

Definition annotateTool (tool : AAPMcpToolDefinition) : AAPMcpToolDefinition :=
  pushLogs (startupLogs tool) tool.

(** ** Part XVII.  The request of a tool call *)

(** [String(v)].  An array is joined with commas, with nothing written for
    an element that is [null] or [undefined]. *)
Fixpoint toStringValue (v : Value) : string :=
  match v with
  | VUndefined => "undefined"
  | VNull => "null"
  | VBool true => "true"
  | VBool false => "false"
  | VNum z => ofZ z
  | VStr s => s
  | VArr l =>
      joinWith ","
        (map (λ x, match x with
                   | VUndefined | VNull => EmptyString
                   | _ => toStringValue x
                   end) l)
  | VObj _ => "[object Object]"
  end.

(** [args[name]] for the own properties of the arguments; a name that the
    arguments inherit from [Object.prototype] is outside this model. *)
Definition argument (args : Obj) (name : string) : Value :=
  default VUndefined (getProp name args).

(** What is left of [s] after the prefix [p], when [s] starts with it. *)
Fixpoint stripPrefix (p s : string) : option string :=
  match p with
  | EmptyString => Some s
  | String a p' =>
      match s with
      | String b s' => if Ascii.eqb a b then stripPrefix p' s' else None
      | EmptyString => None
      end
  end.

(** The first occurrence of [pattern] in [s]: what stands before it and
    what stands after it. *)
Fixpoint findFirst (pattern s : string) : option (string * string) :=
  match stripPrefix pattern s with
  | Some after => Some (EmptyString, after)
  | None =>
      match s with
      | EmptyString => None
      | String c s' =>
          match findFirst pattern s' with
          | Some (before, after) => Some (String c before, after)
          | None => None
          end
      end
  end.

Definition dollar : ascii := ascii_of_N 36.

(** GetSubstitution for a string pattern, which has no captures: [$$] is a
    dollar sign, [$&] the matched text, [$`] the text before the match,
    [$'] the text after it, and any other text stands for itself. *)
Fixpoint getSubstitution (matched before after replacement : string) : string :=
  match replacement with
  | EmptyString => EmptyString
  | String c rest =>
      if Ascii.eqb c dollar then
        match rest with
        | String d rest' =>
            if Ascii.eqb d dollar then String dollar (getSubstitution matched before after rest')
            else if Ascii.eqb d "&" then matched +:+ getSubstitution matched before after rest'
            else if Ascii.eqb d "`" then before +:+ getSubstitution matched before after rest'
            else if Ascii.eqb d "'" then after +:+ getSubstitution matched before after rest'
            else String c (getSubstitution matched before after rest)
        | EmptyString => String c EmptyString
        end
      else String c (getSubstitution matched before after rest)
  end.

(** [s.replace(pattern, replacement)] with a string pattern. *)
Definition replaceFirst (s pattern replacement : string) : string :=
  match findFirst pattern s with
  | Some (before, after) =>
      before +:+ getSubstitution pattern before after replacement +:+ after
  | None => s
  end.

Definition placeholder (name : string) : string := "{" +:+ name +:+ "}".

(** One turn of the first loop over [tool.parameters]. *)
Definition substitutePathParameter (args : Obj) (url : string) (param : ParameterObject)
  : string :=
  if String.eqb (paramIn param) "path" && truthy (argument args (paramName param))
  then replaceFirst url (placeholder (paramName param))
                    (toStringValue (argument args (paramName param)))
  else url.

Definition substitutePathParameters (args : Obj) (parameters : list ParameterObject)
           (url : string) : string :=
  fold_left (substitutePathParameter args) parameters url.

(** The second loop: the list of [URLSearchParams]. *)
Definition queryParams (args : Obj) (parameters : list ParameterObject)
  : list (string * string) :=
  omap (λ param,
          if String.eqb (paramIn param) "query"
             && negb (isUndefined (argument args (paramName param)))
          then Some (paramName param, toStringValue (argument args (paramName param)))
          else None)
       parameters.

(** The UTF-8 bytes of a code unit below 256. *)
Definition utf8Bytes (c : ascii) : list N :=
  let n := code c in
  if (n <? 128)%N then [n] else [(192 + n / 64)%N; (128 + n mod 64)%N].

Definition upperHexDigit (n : N) : ascii :=
  if (n <? 10)%N then ascii_of_N (48 + n) else ascii_of_N (55 + n).

(** The bytes that the [application/x-www-form-urlencoded] serializer
    writes as they are: ASCII letters and digits and [*], [-], [.], [_]. *)
Definition formSafeByte (b : N) : bool :=
  ((48 <=? b) && (b <=? 57) || (65 <=? b) && (b <=? 90) || (97 <=? b) && (b <=? 122)
   || (b =? 42) || (b =? 45) || (b =? 46) || (b =? 95))%N.

Definition formEncodeByte (b : N) : string :=
  if formSafeByte b then String (ascii_of_N b) EmptyString
  else if (b =? 32)%N then "+"
  else String "%" (String (upperHexDigit (b / 16)) (String (upperHexDigit (b mod 16)) EmptyString)).

Fixpoint formEncode (s : string) : string :=
  match s with
  | EmptyString => EmptyString
  | String c s' =>
      fold_right (λ b rest, formEncodeByte b +:+ rest) (formEncode s') (utf8Bytes c)
  end.

(** [queryParams.toString()]. *)
Definition queryString (tuples : list (string * string)) : string :=
  joinWith "&" (map (λ '(k, v), formEncode k +:+ "=" +:+ formEncode v) tuples).

(** The URL that the handler fetches. *)
Definition buildUrl (baseUrl : string) (tool : AAPMcpToolDefinition) (args : Obj) : string :=
  let url := substitutePathParameters args (toolParameters tool) (pathTemplate tool) in
  let query := queryString (queryParams args (toolParameters tool)) in
  baseUrl +:+ (if String.eqb query "" then url else url +:+ "?" +:+ query).

(** ** Part XVIII.  The outcome of a tool call and its records *)

(** What [fetch] and the reading of the body give: no response, a response
    whose body cannot be read, or a response with a result, of which
    [compact] is [JSON.stringify(result)] and [pretty] is
    [JSON.stringify(result, null, 2)]. *)
Inductive FetchOutcome :=
| FetchFailed (message : string)
| BodyUnreadable (status : nat) (message : string)
| Responded (status : nat) (compact pretty : string).

(** The [response] argument of [logToolAccess]: the result, or
    [{ error: message }]. *)
Inductive AccessResponse :=
| AccessResult (compact : string)
| AccessError (message : string).

Record AccessRecord := {
  accessEndpoint : string;
  accessMethod : string;
  accessUserAgent : string;
  accessResponse : AccessResponse;
  accessReturnCode : nat
}.

(** [response.ok]. *)
Definition responseOk (status : nat) : bool := (200 <=? status)%nat && (status <=? 299)%nat.

(** The [try] and [catch] of the call handler from [fetch] on: the answer
    to the client and the calls of [logToolAccess], in order. *)
Definition completeCall (recordApiQueries : bool) (fullUrl : string)
           (tool : AAPMcpToolDefinition) (userAgent : string) (outcome : FetchOutcome)
  : Reply string * list AccessRecord :=
  let record response returnCode :=
    {| accessEndpoint := fullUrl; accessMethod := toUpperCase (methodName (method tool));
       accessUserAgent := userAgent; accessResponse := response;
       accessReturnCode := returnCode |} in
  let recorded (l : list AccessRecord) := if recordApiQueries then l else [] in
  let failed message := Failure ("Tool execution failed: " +:+ message) in
  match outcome with
  | FetchFailed message => (failed message, recorded [record (AccessError message) O])
  | BodyUnreadable status message =>
      (failed message, recorded [record (AccessError message) status])
  | Responded status compact pretty =>
      if responseOk status then
        (Result pretty, recorded [record (AccessResult compact) status])
      else
        let message := "HTTP " +:+ ofNat status +:+ ": " +:+ compact in
        (failed message,
         recorded [record (AccessResult compact) status; record (AccessError message) status])
  end.

(** The calls that [logToolAccess] makes on the metrics service. *)
Inductive MetricEvent :=
| ToolExecution (toolName service category status : string)
| ApiCall (service endpoint method : string) (statusCode : nat)
| ToolError (toolName service category errorType : string).

Definition logToolAccess (tool : AAPMcpToolDefinition) (category : string)
           (access : AccessRecord) : list MetricEvent :=
  let returnCode := accessReturnCode access in
  let status :=
    if (200 <=? returnCode)%nat && (returnCode <? 400)%nat then "success" else "error" in
  let service := serviceOf tool in
  let category := if String.eqb category "" then "uncategorized" else category in
  [ToolExecution (name tool) service category status;
   ApiCall service (accessEndpoint access) "POST" returnCode]
    ++ (if String.eqb status "error" then
          [ToolError (name tool) service category
             (if (400 <=? returnCode)%nat && (returnCode <? 500)%nat
              then "client_error" else "server_error")]
        else []).

(** The metrics of one call: those of its access records. *)
Definition callMetrics (tool : AAPMcpToolDefinition) (category : string)
           (accesses : list AccessRecord) : list MetricEvent :=
  concat (map (logToolAccess tool category) accesses).

Definition isToolExecution (e : MetricEvent) : bool :=
  match e with ToolExecution _ _ _ _ => true | _ => false end.
Definition isToolError (e : MetricEvent) : bool :=
  match e with ToolError _ _ _ _ => true | _ => false end.

(** ** Further notions *)

(** The code units of an encoded name or value. *)
Definition isFormChar (c : ascii) : bool :=
  formSafeByte (code c) || Ascii.eqb c "+" || Ascii.eqb c "%".

(** The code units of a query string. *)
Definition isQueryChar (c : ascii) : bool :=
  isFormChar c || Ascii.eqb c "=" || Ascii.eqb c "&".

Definition isNotDollar (c : ascii) : bool := negb (Ascii.eqb c dollar).

(** How many times a code unit stands in a string. *)
Fixpoint countChar (c : ascii) (s : string) : nat :=
  match s with
  | EmptyString => O
  | String d s' => ((if Ascii.eqb d c then 1 else 0) + countChar c s')%nat
  end.


(** ** Further samples *)

(** A deprecated operation whose identifier has 54 code units. *)
Definition launchOperation : RawOperation :=
  {| rawXMcp := VUndefined; rawXAiDescription := Some "Launch a job template";
     rawDeprecated := Some true; rawSecurity := SecurityUnset;
     rawSummary := Some "Launch"; rawDescription := Some "Launch a job template";
     rawOperationId := Some "api_controller_v2_workflow_job_templates_launch_create";
     rawRequestBody := None; rawParameters := None |}.

Definition launchPathItem : PathItemObject :=
  {| pathXMcp := VUndefined; pathParameters := None;
     pathOperations := [(POST, launchOperation)] |}.

Definition launchDocument : Document :=
  documentAt "/job_templates/{id}/launch" None [(POST, launchOperation)].

(** A tool with two query parameters. *)
Definition searchTool : AAPMcpToolDefinition :=
  {| name := "searchWidgets"; toolDescription := "Search widgets";
     inputSchema := genericObject; method := GET; pathTemplate := "/widgets";
     toolParameters :=
       [{| paramName := "q"; paramIn := "query"; paramDescription := None;
           paramRequired := false; paramSchema := None |};
        {| paramName := "page"; paramIn := "query"; paramDescription := None;
           paramRequired := false; paramSchema := None |}];
     executionParameters := [("q", "query"); ("page", "query")];
     requestBodyContentType := None; securityRequirements := [];
     toolOperationId := "searchWidgets"; toolDeprecated := false; logs := [];
     service := Some "controller"; toolSize := None |}.

Definition idParameter : ParameterObject :=
  {| paramName := "id"; paramIn := "path"; paramDescription := None;
     paramRequired := true; paramSchema := None |}.

(** A nullable object schema with a property. *)
Definition nullableHeap : Heap :=
  list_to_map
    [(1%nat, [("type", VStr "object"); ("nullable", VBool true); ("properties", VObj 2)]);
     (2%nat, [("count", VObj 3)]);
     (3%nat, [("type", VStr "integer")])].

(** A service with a reading and a deleting operation. *)
Definition deletingOperation : RawOperation :=
  {| rawXMcp := VUndefined; rawXAiDescription := Some "Delete a widget";
     rawDeprecated := None; rawSecurity := SecurityUnset;
     rawSummary := None; rawDescription := None;
     rawOperationId := Some "deleteWidget"; rawRequestBody := None;
     rawParameters := None |}.

Definition widgetService : list OpenApiSpec :=
  [{| specService := "controller";
      specDocument :=
        documentAt "/widgets/{id}" None
          [(GET, overridingOperation); (DELETE, deletingOperation);
           (TRACE, deletingOperation)];
      reformatFunc := keepTool |}].


(** * Properties *)

(** ** The inclusion resolver *)





(** The words of the specification's table, with their case and padding. *)
Example normalizeBoolean_accepts :
  map normalizeBoolean [VStr "TRUE"; VStr " true "; VStr "1"; VStr "yes"; VStr "on"]
    = [Some true; Some true; Some true; Some true; Some true] ∧
  map normalizeBoolean [VStr "FALSE"; VStr " false "; VStr "0"; VStr "no"; VStr "off"]
    = [Some false; Some false; Some false; Some false; Some false] ∧
  map normalizeBoolean [VStr "maybe"; VStr ""; VNum 1; VNull; VUndefined; VObj 0]
    = [None; None; None; None; None; None].
Proof. repeat split; reflexivity. Qed.

(** A value that is present but not determinate draws a warning for its
    level; an absent one draws none. *)
Example inclusion_warnings :
  shouldIncludeWithWarnings (VStr "off") VUndefined (VStr "maybe") true
    = (false, [AtOperation]) ∧
  shouldIncludeWithWarnings (VNum 2) (VStr "?") (VObj 0) false
    = (false, [AtOperation; AtPathItem; AtRoot]).
Proof. split; reflexivity. Qed.

(** ** Generated operation identifiers *)

Lemma append_cons (c : ascii) (s t : string) : String c s +:+ t = String c (s +:+ t).
Proof. reflexivity. Qed.

Lemma append_empty_l (s : string) : EmptyString +:+ s = s.
Proof. reflexivity. Qed.

Lemma append_empty_r (s : string) : s +:+ EmptyString = s.
Proof. induction s as [| c s IH]; [done | by rewrite append_cons, IH]. Qed.

Lemma append_assoc (s t u : string) : (s +:+ t) +:+ u = s +:+ (t +:+ u).
Proof. induction s as [| c s IH]; [done | by rewrite !append_cons, IH]. Qed.

Lemma appendPart_contribution (n : nat) (acc : string) (entry : nat * string) :
  appendPart n acc entry = acc +:+ contribution n entry.
Proof.
  destruct entry as [index part]. unfold appendPart, contribution.
  destruct (isPathParameter part); [destruct (index =? n - 1)%nat |];
    by rewrite ?append_empty_r, ?append_assoc.
Qed.

Lemma fold_appendPart (n : nat) (l : list (nat * string)) (acc : string) :
  fold_left (appendPart n) l acc = acc +:+ appendAll (map (contribution n) l).
Proof.
  revert acc. induction l as [| entry l IH]; intros acc; simpl.
  - by rewrite append_empty_r.
  - by rewrite IH, appendPart_contribution, append_assoc.
Qed.

Lemma sanitizeName_one_pass (s : string) :
  sanitizeName s = mapChars (λ c, if isNameChar c then c else "_"%char) s.
Proof.
  unfold sanitizeName. induction s as [| c s IH]; simpl; [done |].
  rewrite IH. f_equal.
  destruct (Ascii.eqb c ".") eqn:Hdot; [| done].
  apply Ascii.eqb_eq in Hdot as ->. reflexivity.
Qed.

Lemma sanitizeName_alphabet (s : string) : allChars isNameChar (sanitizeName s) = true.
Proof.
  rewrite sanitizeName_one_pass. induction s as [| c s IH]; simpl; [done |].
  rewrite IH, andb_true_r. by destruct (isNameChar c) eqn:Hc.
Qed.

Lemma sanitizeName_length (s : string) : String.length (sanitizeName s) = String.length s.
Proof.
  rewrite sanitizeName_one_pass. induction s as [| c s IH]; simpl; [done | by rewrite IH].
Qed.


(** In title case a separator is dropped and the code unit after it is
    capitalised; the braces of a parameter are removed. *)
Example titleCase_examples :
  titleCase "job_templates" = "JobTemplates" ∧
  titleCase "ad-hoc_COMMANDS" = "AdHocCommands" ∧
  titleCase "{id}" = "Id" ∧
  titleCase "{userId}" = "Userid".
Proof. repeat split; reflexivity. Qed.

Example generateOperationId_examples :
  generateOperationId "get" "/widgets/{id}" = "getWidgetsById" ∧
  generateOperationId "GET" "/users/{userId}/posts" = "getUsersPosts" ∧
  generateOperationId "post" "/job_templates/{id}/launch/" = "postJobTemplatesLaunch" ∧
  generateOperationId "delete" "/a/{b}/{c}" = "deleteAByC" ∧
  sanitizeName "api.v2/job templates" = "api_v2_job_templates".
Proof. repeat split; reflexivity. Qed.

(** ** The schema translator *)

Section PropTables.
Context {A : Type}.

Lemma getProp_setProp_same (k : string) (v : A) (o : list (string * A)) :
  getProp k (setProp k v o) = Some v.
Proof.
  induction o as [| [k' v'] o IH]; simpl.
  - by rewrite String.eqb_refl.
  - destruct (String.eqb k' k) eqn:Hk; simpl; [by rewrite String.eqb_refl | by rewrite Hk].
Qed.

Lemma getProp_setProp_other (k k0 : string) (v : A) (o : list (string * A)) :
  k0 ≠ k → getProp k (setProp k0 v o) = getProp k o.
Proof.
  intros Hne. apply String.eqb_neq in Hne.
  induction o as [| [k' v'] o IH]; simpl.
  - by rewrite Hne.
  - destruct (String.eqb k' k0) eqn:Hk0; simpl.
    + apply String.eqb_eq in Hk0 as ->. by rewrite Hne.
    + by rewrite IH.
Qed.

Lemma getProp_deleteProp_None (k k0 : string) (o : list (string * A)) :
  getProp k o = None → getProp k (deleteProp k0 o) = None.
Proof.
  induction o as [| [k' v'] o IH]; simpl; [done |].
  destruct (String.eqb k' k) eqn:Hk; [done |]. intros Hnone.
  destruct (String.eqb k' k0); simpl; [| rewrite Hk]; by apply IH.
Qed.

Lemma getProp_deletes_None (k : string) (ks : list string) (o : list (string * A)) :
  getProp k o = None → getProp k (fold_left (λ o k, deleteProp k o) ks o) = None.
Proof.
  revert o. induction ks as [| k0 ks IH]; intros o Hnone; simpl; [done |].
  by apply IH, getProp_deleteProp_None.
Qed.

End PropTables.

Lemma getProp_spread (k : string) (o : Obj) : getProp k (spread o) = OVal <$> getProp k o.
Proof.
  induction o as [| [k' v] o IH]; simpl; [done |].
  by destruct (String.eqb k' k).
Qed.

(** The keys of an array are written with digits only. *)
Lemma string_of_uint_digits (d : Decimal.uint) :
  allChars isDigit (NilEmpty.string_of_uint d) = true.
Proof. induction d; simpl; by rewrite ?IHd. Qed.

Lemma ofNat_digits (n : nat) : allChars isDigit (ofNat n) = true.
Proof. apply string_of_uint_digits. Qed.

Lemma getProp_imap_None {A : Type} (k : string) (f : nat → A → string * A) (l : list A) :
  (∀ i v, (f i v).1 ≠ k) → getProp k (imap f l) = None.
Proof.
  revert f. induction l as [| x l IH]; intros f Hf; simpl; [done |].
  destruct (f 0%nat x) as [k' v'] eqn:Hfx.
  assert (k' ≠ k) as Hne by (specialize (Hf 0%nat x); by rewrite Hfx in Hf).
  apply String.eqb_neq in Hne. rewrite Hne.
  apply IH. intros i v. apply Hf.
Qed.

Lemma getProp_indexed_None (k : string) (l : list Value) :
  allChars isDigit k = false → getProp k (indexed l) = None.
Proof.
  intros Hk. apply getProp_imap_None. intros i v. simpl.
  intros Heq. rewrite <- Heq, ofNat_digits in Hk. discriminate.
Qed.

(** An array taken for a schema has none of the keys that the translator
    looks at: it is copied, index by index, and nothing below it is
    translated. *)
Lemma copySchema_array (l : list Value) (k : string) :
  allChars isDigit k = false → getProp k (copySchema (indexed l)) = None.
Proof.
  intros Hk. unfold copySchema.
  rewrite !(getProp_indexed_None _ l) by reflexivity.
  apply getProp_deletes_None. rewrite getProp_spread.
  by rewrite getProp_indexed_None.
Qed.

Lemma copySchema_nil : copySchema [] = [].
Proof. reflexivity. Qed.

(** When every recursive call returns and hands [seen] back, so does the
    loop over the properties. *)
Lemma mapProperties_returns (rec : ObjectRef → gset nat → option (Out * gset nat))
      (seen : gset nat) (es : Obj) (mappedProps : list (string * Out)) :
  (∀ r, ∃ out, rec r seen = Some (out, seen)) →
  ∃ mapped, mapProperties rec es mappedProps seen = Some (mapped, seen).
Proof.
  intros Hrec. revert mappedProps.
  induction es as [| [key propSchema] es IH]; intros mappedProps; simpl; [by eexists |].
  destruct (asObject propSchema) as [r |].
  - destruct (Hrec r) as [out ->]. apply IH.
  - destruct propSchema; apply IH.
Qed.

(** The objects of the heap that are not on the active path bound the
    depth of the calls still to come. *)
Lemma unseen_shrinks (h : Heap) (seen : gset nat) (id : nat) :
  id ∈ dom h → id ∉ seen →
  (base.size (dom h ∖ ({[id]} ∪ seen)) < base.size (dom h ∖ seen))%nat.
Proof.
  intros Hdom Hseen. apply subset_size. set_solver.
Qed.

Lemma seen_restored (seen : gset nat) (id : nat) :
  id ∉ seen → ({[id]} ∪ seen) ∖ {[id]} = seen.
Proof. set_solver. Qed.

(** The two early exits need no nested call. *)
Lemma translate_reference (fuel : nat) (h : Heap) (schema : ObjectRef) (seen : gset nat) :
  hasProp "$ref" (ownProps h schema) = true →
  mapOpenApiSchemaToJsonSchema (S fuel) h schema seen = Some (genericObject, seen).
Proof. intros Href. simpl. by rewrite Href. Qed.

Lemma translate_seen (fuel : nat) (h : Heap) (schema : ObjectRef) (seen : gset nat) :
  seenHas seen schema = true →
  mapOpenApiSchemaToJsonSchema (S fuel) h schema seen = Some (genericObject, seen).
Proof. intros Hseen. simpl. rewrite Hseen. by destruct (hasProp _ _). Qed.

Lemma translate_returns (fuel : nat) (h : Heap) :
  ∀ (schema : ObjectRef) (seen : gset nat),
    (base.size (dom h ∖ seen) < fuel)%nat →
    ∃ out, mapOpenApiSchemaToJsonSchema fuel h schema seen = Some (out, seen).
Proof.
  induction fuel as [| fuel IH]; intros schema seen Hfuel; [lia |].
  destruct (hasProp "$ref" (ownProps h schema)) eqn:Href.
  { rewrite translate_reference by done. by eexists. }
  destruct (seenHas seen schema) eqn:Hseen.
  { rewrite translate_seen by done. by eexists. }
  simpl. rewrite Href, Hseen.
  destruct schema as [id | l]; simpl in *.
  - apply bool_decide_eq_false in Hseen.
    unfold heapObj in *. destruct (h !! id) as [own |] eqn:Hid; simpl in *.
    + assert (id ∈ dom h) as Hdom by (apply elem_of_dom; eauto).
      pose proof (unseen_shrinks h seen id Hdom Hseen) as Hless.
      assert (∀ r, ∃ out, mapOpenApiSchemaToJsonSchema fuel h r ({[id]} ∪ seen)
                          = Some (out, {[id]} ∪ seen)) as Hrec
          by (intros r; apply IH; lia).
      destruct (propertiesToMap (copySchema own)) as [properties |].
      * destruct (mapProperties_returns _ _ (entries h properties) [] Hrec) as [mapped ->].
        destruct (itemsToMap _) as [items |].
        -- destruct (Hrec items) as [m ->]. rewrite seen_restored by done. by eexists.
        -- rewrite seen_restored by done. by eexists.
      * destruct (itemsToMap _) as [items |].
        -- destruct (Hrec items) as [m ->]. rewrite seen_restored by done. by eexists.
        -- rewrite seen_restored by done. by eexists.
    + rewrite copySchema_nil. simpl. rewrite seen_restored by done. by eexists.
  - unfold propertiesToMap, itemsToMap.
    rewrite !copySchema_array by reflexivity. by eexists.
Qed.

(** C8.  On a finite heap of schema objects, cyclic or not, the translator
    returns as soon as its fuel exceeds the number of heap objects that are
    not on the active path, and it hands the [seen] set back as it got it.
    For an object that is already on the active path it returns the generic
    object schema without a nested call, and so it does for a reference
    object, which is not followed. *)
Theorem schema_translation_terminates (h : Heap) (schema : ObjectRef)
        (seen : gset nat) (fuel : nat) :
  (base.size (dom h ∖ seen) < fuel)%nat →
  (∃ out, mapOpenApiSchemaToJsonSchema fuel h schema seen = Some (out, seen)) ∧
  (seenHas seen schema = true →
   mapOpenApiSchemaToJsonSchema 1 h schema seen = Some (genericObject, seen) ∧
   mapOpenApiSchemaToJsonSchema fuel h schema seen = Some (genericObject, seen)) ∧
  (hasProp "$ref" (ownProps h schema) = true →
   mapOpenApiSchemaToJsonSchema 1 h schema seen = Some (genericObject, seen) ∧
   mapOpenApiSchemaToJsonSchema fuel h schema seen = Some (genericObject, seen)).
Proof.
  intros Hfuel. split; [by apply translate_returns |].
  destruct fuel as [| fuel]; [lia |].
  split; intros Hexit; split;
    first [by apply translate_seen | by apply translate_reference].
Qed.

Lemma schema_translation_terminates_witness :
  (∃ out, mapOpenApiSchemaToJsonSchema 5 cyclicHeap (RObj 1) ∅ = Some (out, ∅)) ∧
  mapOpenApiSchemaToJsonSchema 4 cyclicHeap (RObj 1) {[1%nat]}
    = Some (genericObject, {[1%nat]}) ∧
  mapOpenApiSchemaToJsonSchema 5 cyclicHeap (RObj 4) ∅ = Some (genericObject, ∅).
Proof.
  split; [| split].
  - apply (schema_translation_terminates cyclicHeap (RObj 1) ∅ 5). vm_compute. lia.
  - assert (base.size (dom cyclicHeap ∖ {[1%nat]}) < 4)%nat as Hfuel by (vm_compute; lia).
    destruct (schema_translation_terminates cyclicHeap (RObj 1) {[1%nat]} 4 Hfuel)
      as (_ & Hseen & _).
    apply Hseen. reflexivity.
  - assert (base.size (dom cyclicHeap ∖ ∅) < 5)%nat as Hfuel by (vm_compute; lia).
    destruct (schema_translation_terminates cyclicHeap (RObj 4) ∅ 5 Hfuel)
      as (_ & _ & Href).
    apply Href. reflexivity.
Defined.

(** A top-level call returns, whatever the heap. *)
Corollary mapSchema_terminates (h : Heap) (schema : nat) :
  ∃ out, mapOpenApiSchemaToJsonSchema (S (base.size h)) h (RObj schema) ∅ = Some (out, ∅)
         ∧ mapSchema h schema = out.
Proof.
  destruct (translate_returns (S (base.size h)) h (RObj schema) ∅) as [out Hout].
  { rewrite difference_empty_L, size_dom. lia. }
  exists out. split; [done |]. unfold mapSchema. by rewrite Hout.
Qed.

(** The translation of the cyclic schema: the generic object stands at the
    two places where object 1 comes back, and for the reference. *)
Example mapSchema_cyclic :
  mapSchema cyclicHeap 1
  = OObj [("type", OVal (VStr "object"));
          ("properties",
           OObj [("self", genericObject);
                 ("next", OObj [("type", OVal (VStr "array")); ("items", genericObject)]);
                 ("other", genericObject)])].
Proof. vm_compute. reflexivity. Qed.

(** Integer types become numbers, vendor keys go, [nullable] is folded into
    the type; properties are translated only under the type [object]. *)
Example mapSchema_rewrites :
  let h : Heap :=
    list_to_map
      [(1%nat, [("type", VStr "integer"); ("nullable", VBool true); ("example", VNum 3)]);
       (2%nat, [("nullable", VBool true); ("readOnly", VBool true)]);
       (3%nat, [("type", VStr "object"); ("nullable", VBool true); ("properties", VObj 4)]);
       (4%nat, [("n", VObj 1)])] in
  mapSchema h 1 = OObj [("type", OVal (VArr [VStr "number"; VStr "null"]))] ∧
  mapSchema h 2 = OObj [("type", OVal (VStr "null"))] ∧
  mapSchema h 3 = OObj [("type", OVal (VArr [VStr "object"; VStr "null"]));
                        ("properties", OVal (VObj 4))].
Proof. vm_compute. repeat split; reflexivity. Qed.

(** ** Tool names *)

Lemma length_append (s t : string) :
  String.length (s +:+ t) = (String.length s + String.length t)%nat.
Proof. induction s as [| c s IH]; [done |]. rewrite append_cons. simpl. by rewrite IH. Qed.

Lemma allChars_append (p : ascii → bool) (s t : string) :
  allChars p (s +:+ t) = allChars p s && allChars p t.
Proof.
  induction s as [| c s IH]; [done |]. rewrite append_cons. simpl.
  by rewrite IH, andb_assoc.
Qed.

Lemma allChars_weaken (p q : ascii → bool) (s : string) :
  (∀ c, p c = true → q c = true) → allChars p s = true → allChars q s = true.
Proof.
  intros Hpq. induction s as [| c s IH]; simpl; [done |].
  intros [Hc Hs]%andb_true_iff. by rewrite (Hpq c Hc), IH.
Qed.

Lemma digit_is_name_char (c : ascii) : isDigit c = true → isNameChar c = true.
Proof. unfold isNameChar. intros ->. by rewrite !orb_true_r. Qed.

Lemma suffixed_alphabet (c : string) (counter k : nat) :
  allChars isNameChar c = true → allChars isNameChar (suffixed c counter k) = true.
Proof.
  revert c counter. induction k as [| k IH]; intros c counter Hc; simpl; [done |].
  apply IH. rewrite !allChars_append, Hc. simpl.
  by rewrite (allChars_weaken _ _ _ digit_is_name_char (ofNat_digits counter)).
Qed.

Lemma suffixed_length (c : string) (counter k : nat) :
  (String.length c ≤ String.length (suffixed c counter k))%nat.
Proof.
  revert c counter. induction k as [| k IH]; intros c counter; simpl; [done |].
  etrans; [| apply IH]. rewrite length_append. lia.
Qed.

Lemma atLeastAsLong_shrinks (c c' : string) (usedNames : gset string) :
  c ∈ usedNames →
  (String.length c < String.length c')%nat →
  (base.size (atLeastAsLong c' usedNames) < base.size (atLeastAsLong c usedNames))%nat.
Proof.
  intros Hin Hlen. apply subset_size. unfold atLeastAsLong. split.
  - intros u [Hu ?]%elem_of_filter. apply elem_of_filter. split; [lia | done].
  - intros Hsub. specialize (Hsub c).
    rewrite !elem_of_filter in Hsub. destruct Hsub as [? _]; [done | lia].
Qed.

Lemma dedupLoop_exits (fuel : nat) (usedNames : gset string) (c : string) (counter : nat) :
  (base.size (atLeastAsLong c usedNames) < fuel)%nat →
  ∃ r, dedupLoop fuel usedNames c counter = Some r.
Proof.
  revert c counter. induction fuel as [| fuel IH]; intros c counter Hfuel; [lia |].
  simpl. case_bool_decide as Hin; [| by eexists].
  apply IH.
  pose proof (atLeastAsLong_shrinks c (c +:+ "_" +:+ ofNat counter) usedNames Hin) as Hless.
  rewrite !length_append in Hless. simpl in Hless. lia.
Qed.

Lemma dedupLoop_result (fuel : nat) (usedNames : gset string) (c : string) (counter : nat)
      (r : string) :
  dedupLoop fuel usedNames c counter = Some r →
  (r ∉ usedNames) ∧
  (∃ k, r = suffixed c counter k ∧ ∀ j, (j < k)%nat → suffixed c counter j ∈ usedNames).
Proof.
  revert c counter. induction fuel as [| fuel IH]; intros c counter; simpl; [done |].
  case_bool_decide as Hin.
  - intros Hloop. destruct (IH _ _ Hloop) as (Hfresh & k & -> & Hused).
    split; [done |]. exists (S k). split; [done |].
    intros [| j] Hj; simpl; [done |]. apply Hused. lia.
  - intros [= <-]. split; [done |]. exists 0%nat. split; [done |]. lia.
Qed.

(** The loop exits, on a name that is not in use and that is the candidate
    followed by the suffixes of the names found in use. *)
Lemma uniqueName_spec (usedNames : gset string) (c : string) :
  (uniqueName usedNames c ∉ usedNames) ∧
  (∃ k, uniqueName usedNames c = suffixed c 1 k ∧
        ∀ j, (j < k)%nat → suffixed c 1 j ∈ usedNames).
Proof.
  unfold uniqueName.
  destruct (dedupLoop_exits (S (base.size usedNames)) usedNames c 1) as [r Hr].
  { unfold atLeastAsLong.
    assert (filter (λ u, String.length c ≤ String.length u)%nat usedNames ⊆ usedNames)
      as Hsub by (intros u [_ Hu]%elem_of_filter; exact Hu).
    apply subseteq_size in Hsub. lia. }
  rewrite Hr. simpl. by apply dedupLoop_result in Hr.
Qed.

(** ** The tool compiler, one document at a time *)

Lemma fold_left_invariant {A B : Type} (f : A → B → A) (P : A → Prop) (l : list B) (a : A) :
  P a → (∀ a x, In x l → P a → P (f a x)) → P (fold_left f l a).
Proof.
  revert a. induction l as [| x l IH]; intros a Ha Hstep; simpl; [done |].
  apply IH.
  - apply Hstep; [by left | done].
  - intros a' y Hy. apply Hstep. by right.
Qed.

Lemma generate_parameters (h : Heap) (operation : AAPOperationObject)
      (pathParameters : option (list ParameterObject)) :
  detailsParameters (generateInputSchemaAndDetails h operation pathParameters)
  = mergeParameters (default [] (parameters operation)) (default [] pathParameters).
Proof.
  unfold generateInputSchemaAndDetails.
  by destruct (addRequestBody _ _ _) as [[properties required] contentType].
Qed.

(** What a compiled tool holds, field by field. *)
Lemma compileOperation_fields (h : Heap) (api : Document) (defaultInclude : bool)
      (usedNames : gset string) (path : string) (pathItem : PathItemObject)
      (m : HttpMethods) (rawOperation : RawOperation) (tool : AAPMcpToolDefinition) :
  compileOperation h api defaultInclude usedNames path pathItem m rawOperation = Some tool →
  let operation := newAAPOperationObject rawOperation in
  shouldIncludeOperationForMcp api pathItem operation defaultInclude = true ∧
  toolOperationId tool ≠ "" ∧
  toolOperationId tool
    = default (generateOperationId (methodName m) path) (nonEmpty (operationId operation)) ∧
  name tool = uniqueName usedNames (sanitizeName (toolOperationId tool)) ∧
  toolDescription tool = resolveDescription operation ∧
  securityRequirements tool = resolveSecurity operation (default [] (docSecurity api)) ∧
  toolParameters tool
    = mergeParameters (default [] (parameters operation))
                      (default [] (pathParameters pathItem)) ∧
  logs tool
    = operationLogs operation (toolOperationId tool) (name tool) (inputSchema tool) ∧
  pathTemplate tool = path ∧
  method tool = m.
Proof.
  intros Hcompile operation. unfold compileOperation in Hcompile. fold operation in Hcompile.
  destruct (shouldIncludeOperationForMcp api pathItem operation defaultInclude); [| done].
  simpl in Hcompile.
  destruct (String.eqb _ "") eqn:Hempty; [done |].
  apply String.eqb_neq in Hempty.
  injection Hcompile as <-. simpl.
  by rewrite generate_parameters.
Qed.

(** The two loops keep any property of their state that each pushed tool
    keeps. *)
Lemma extract_invariant (h : Heap) (api : Document) (defaultInclude : bool)
      (paths : list (string * option PathItemObject)) (P : ExtractState → Prop) :
  P ([], ∅) →
  (∀ st path pathItem m rawOperation tool,
      P st →
      In (path, Some pathItem) paths →
      pathOperation pathItem m = Some rawOperation →
      compileOperation h api defaultInclude st.2 path pathItem m rawOperation = Some tool →
      P (st.1 ++ [tool], {[name tool]} ∪ st.2)) →
  P (fold_left (extractPath h api defaultInclude) paths ([], ∅)).
Proof.
  intros Hinit Hstep. apply fold_left_invariant; [done |].
  intros st [path [pathItem |]] Hin Hst; unfold extractPath;
    cbv beta iota delta [fst snd]; [| done].
  apply fold_left_invariant; [done |].
  intros st' m _ Hst'. unfold extractMethod.
  destruct (pathOperation pathItem m) as [rawOperation |] eqn:Hop; [| done].
  destruct (compileOperation _ _ _ _ _ _ _ _) as [tool |] eqn:Hcompile; [| done].
  by eapply Hstep.
Qed.

Lemma extracted_compiledFrom (h : Heap) (api : Document) (defaultInclude : bool)
      (tool : AAPMcpToolDefinition) :
  In tool (extractToolsFromApi h api defaultInclude) →
  ∃ rawOperation, compiledFrom h api defaultInclude tool rawOperation.
Proof.
  unfold extractToolsFromApi. destruct (docPaths api) as [paths |] eqn:Hpaths; [| done].
  revert tool. apply List.Forall_forall.
  apply (extract_invariant h api defaultInclude paths
           (λ st, Forall (λ tool, ∃ rawOperation,
                            compiledFrom h api defaultInclude tool rawOperation) st.1)).
  - constructor.
  - intros st path pathItem m rawOperation tool Hst Hin Hop Hcompile. simpl.
    apply Forall_app. split; [done |]. constructor; [| constructor].
    exists rawOperation, paths, st.2, pathItem.
    destruct (compileOperation_fields _ _ _ _ _ _ _ _ _ Hcompile)
      as (_ & _ & _ & _ & _ & _ & _ & _ & -> & ->).
    done.
Qed.

Lemma nonempty_length (s : string) : s ≠ "" ↔ (0 < String.length s)%nat.
Proof. destruct s; simpl; split; (done || lia). Qed.

Lemma compiled_name_valid (usedNames : gset string) (base : string) :
  base ≠ "" → validName (uniqueName usedNames (sanitizeName base)).
Proof.
  intros Hbase.
  destruct (uniqueName_spec usedNames (sanitizeName base)) as (_ & k & -> & _). split.
  - apply nonempty_length. apply nonempty_length in Hbase.
    pose proof (suffixed_length (sanitizeName base) 1 k) as Hlen.
    rewrite sanitizeName_length in Hlen. lia.
  - apply suffixed_alphabet, sanitizeName_alphabet.
Qed.

Lemma names_within_document (h : Heap) (api : Document) (defaultInclude : bool) :
  let tools := extractToolsFromApi h api defaultInclude in
  NoDup (map name tools) ∧
  Forall (λ tool, validName (name tool)) tools ∧
  NamedInOrder tools.
Proof.
  unfold extractToolsFromApi. destruct (docPaths api) as [paths |]; simpl.
  2: { repeat split; constructor. }
  pose (P := λ st : ExtractState,
          st.2 = list_to_set (map name st.1) ∧
          NoDup (map name st.1) ∧
          Forall (λ tool, validName (name tool)) st.1 ∧
          NamedInOrder st.1).
  assert (P (fold_left (extractPath h api defaultInclude) paths ([], ∅))) as (_ & ? & ? & ?);
    [| done].
  apply extract_invariant.
  - repeat split; constructor.
  - intros [tools usedNames] path pathItem m rawOperation tool
           (Hused & Hnodup & Hvalid & Hnamed) _ _ Hcompile. simpl in *.
    destruct (compileOperation_fields _ _ _ _ _ _ _ _ _ Hcompile)
      as (_ & Hbase & _ & Hname & _).
    destruct (uniqueName_spec usedNames (sanitizeName (toolOperationId tool)))
      as (Hfresh & k & Hk & Hchain).
    rewrite <- Hname in Hfresh, Hk.
    assert (∀ s, s ∈ usedNames ↔ s ∈ map name tools) as Hmem
        by (intros s; rewrite Hused; apply elem_of_list_to_set).
    unfold P. cbn [fst snd]. repeat split.
    + rewrite map_app. simpl. set_solver.
    + rewrite map_app. apply NoDup_app. repeat split; [done | | apply NoDup_singleton].
      intros s Hs ->%list_elem_of_singleton. by apply Hfresh, Hmem.
    + apply Forall_app. split; [done |]. constructor; [| constructor].
      rewrite Hname. by apply compiled_name_valid.
    + apply (NamedNext tools tool k); [done | | done |].
      * intros Hin. by apply Hfresh, Hmem.
      * intros j Hj. by apply Hmem, Hchain.
Qed.

(** Three operations with the identifier [list]: the suffixes pile up. *)
Example names_of_tripleDocument :
  map name (extractToolsFromApi ∅ tripleDocument true) = ["list"; "list_1"; "list_1_2"].
Proof. vm_compute. reflexivity. Qed.

(** ** Diagnostics and the resolved description *)

Lemma countLog_app (e : McpToolLogEntry) (l1 l2 : list McpToolLogEntry) :
  countLog e (l1 ++ l2) = (countLog e l1 + countLog e l2)%nat.
Proof. unfold countLog. by rewrite List.filter_app, length_app. Qed.





(** ** Security requirements *)

(** C5, as amended.  The security requirements of a tool compiled from an
    operation of the document are the document's global list when the operation's [security] is unset or
    [null], and the operation's own array whenever it has one, the empty
    array included. *)
Theorem security_requirements_resolution (h : Heap) (api : Document)
        (defaultInclude : bool) (tool : AAPMcpToolDefinition) (rawOperation : RawOperation) :
  In tool (extractToolsFromApi h api defaultInclude) →
  compiledFrom h api defaultInclude tool rawOperation →
  (rawSecurity rawOperation = SecurityUnset →
   securityRequirements tool = default [] (docSecurity api)) ∧
  (rawSecurity rawOperation = SecurityNull →
   securityRequirements tool = default [] (docSecurity api)) ∧
  (∀ requirements, rawSecurity rawOperation = SecurityArray requirements →
                   securityRequirements tool = requirements).
Proof.
  intros _ (paths & usedNames & pathItem & _ & _ & _ & Hcompile).
  destruct (compileOperation_fields _ _ _ _ _ _ _ _ _ Hcompile)
    as (_ & _ & _ & _ & _ & -> & _).
  unfold resolveSecurity. simpl.
  repeat split; [by intros -> | by intros -> | by intros requirements ->].
Qed.

Lemma security_requirements_resolution_witness :
  ∃ tool,
    extractToolsFromApi ∅ publicDocument true = [tool] ∧
    securityRequirements tool = [].
Proof.
  eexists. split; [vm_compute; reflexivity |].
  match goal with
  | |- securityRequirements ?t = _ =>
      assert (In t (extractToolsFromApi ∅ publicDocument true)) as Hin
        by (vm_compute; left; reflexivity);
      assert (compiledFrom ∅ publicDocument true t publicOperation) as Hfrom
        by compiled_from_sample;
      destruct (security_requirements_resolution ∅ publicDocument true t publicOperation
                  Hin Hfrom) as (_ & _ & Harray)
  end.
  apply Harray. reflexivity.
Defined.

(** C5 as it was stated fails: the operation of [publicDocument] declares
    an empty [security] array, and its tool has the empty list, not the
    document's global list. *)
Lemma empty_security_is_not_global :
  ∃ tool,
    In tool (extractToolsFromApi ∅ publicDocument true) ∧
    compiledFrom ∅ publicDocument true tool publicOperation ∧
    rawSecurity publicOperation = SecurityArray [] ∧
    ¬ securityAsSpecified publicDocument publicOperation tool.
Proof.
  eexists. split; [vm_compute; left; reflexivity |].
  split; [compiled_from_sample |]. split; [reflexivity |].
  unfold securityAsSpecified. simpl. discriminate.
Qed.

(** ** Merging path-item and operation parameters *)

Lemma sameNameAndLocation_refl (a : ParameterObject) : sameNameAndLocation a a = true.
Proof. unfold sameNameAndLocation. by rewrite !String.eqb_refl. Qed.

Lemma sameNameAndLocation_spec (a b : ParameterObject) :
  sameNameAndLocation a b = true ↔ paramName a = paramName b ∧ paramIn a = paramIn b.
Proof.
  unfold sameNameAndLocation. rewrite andb_true_iff, !String.eqb_eq. done.
Qed.

Lemma sameNameAndLocation_sym (a b : ParameterObject) :
  sameNameAndLocation a b = sameNameAndLocation b a.
Proof. unfold sameNameAndLocation. by rewrite (String.eqb_sym (paramName a)), (String.eqb_sym (paramIn a)). Qed.

Lemma sameNameAndLocation_trans (a b c : ParameterObject) :
  sameNameAndLocation a b = true → sameNameAndLocation b c = true →
  sameNameAndLocation a c = true.
Proof. rewrite !sameNameAndLocation_spec. intros [-> ->] [-> ->]. done. Qed.

Lemma findIndex_Some {A : Type} (p : A → bool) (l : list A) (i : nat) :
  findIndex p l = Some i → ∃ x, l !! i = Some x ∧ p x = true.
Proof.
  revert i. induction l as [| x l IH]; intros i; simpl; [done |].
  destruct (p x) eqn:Hx.
  - intros [= <-]. by exists x.
  - destruct (findIndex p l) as [j |]; simpl; [| done].
    intros [= <-]. by apply IH.
Qed.

Lemma findIndex_None {A : Type} (p : A → bool) (l : list A) :
  findIndex p l = None → ∀ x, In x l → p x = false.
Proof.
  induction l as [| x l IH]; simpl; [done |].
  destruct (p x) eqn:Hx; [done |].
  destruct (findIndex p l); simpl; [done |].
  intros _ y [<- | Hy]; [done | by apply IH].
Qed.

Lemma lastDeclared_snoc (q p : ParameterObject) (l : list ParameterObject) :
  lastDeclared q (l ++ [p])
  = if sameNameAndLocation q p then Some p else lastDeclared q l.
Proof. unfold lastDeclared. by rewrite rev_unit. Qed.

Lemma mergeParameter_Merged (l allParameters : list ParameterObject) (p : ParameterObject) :
  Merged l allParameters → Merged (l ++ [p]) (mergeParameter allParameters p).
Proof.
  intros (Hdistinct & Hlast & Hcover). unfold mergeParameter.
  destruct (findIndex _ allParameters) as [i |] eqn:Hfind.
  - apply findIndex_Some in Hfind as (q & Hq & Hqp).
    pose proof (lookup_lt_Some _ _ _ Hq) as Hi.
    assert (∀ j b, j ≠ i → allParameters !! j = Some b → sameNameAndLocation b p = false)
      as Hothers.
    { intros j b Hne Hb. destruct (sameNameAndLocation b p) eqn:Hbp; [| done].
      destruct Hne. apply (Hdistinct j i b q); [done | done |].
      apply (sameNameAndLocation_trans b p q); [done |].
      by rewrite sameNameAndLocation_sym. }
    repeat split.
    + intros j1 j2 a b Ha Hb Hab.
      destruct (decide (j1 = i)) as [-> |], (decide (j2 = i)) as [-> |]; [done | | |].
      * rewrite list_lookup_insert_eq in Ha by done. injection Ha as <-.
        rewrite list_lookup_insert_ne in Hb by done.
        rewrite sameNameAndLocation_sym, (Hothers j2 b) in Hab; done.
      * rewrite list_lookup_insert_eq in Hb by done. injection Hb as <-.
        rewrite list_lookup_insert_ne in Ha by done.
        rewrite (Hothers j1 a) in Hab; done.
      * rewrite list_lookup_insert_ne in Ha, Hb by done. by eapply Hdistinct.
    + intros a [j Ha]%list_elem_of_In%list_elem_of_lookup.
      rewrite lastDeclared_snoc.
      destruct (decide (j = i)) as [-> |].
      * rewrite list_lookup_insert_eq in Ha by done. injection Ha as <-.
        by rewrite sameNameAndLocation_refl.
      * rewrite list_lookup_insert_ne in Ha by done.
        rewrite (Hothers j a) by done.
        apply Hlast, list_elem_of_In, list_elem_of_lookup. eauto.
    + intros p' [Hp' | [<- | []]]%in_app_or.
      * destruct (Hcover p' Hp') as (q' & [j Hq']%list_elem_of_In%list_elem_of_lookup & Hsame).
        destruct (decide (j = i)) as [-> |].
        -- exists p. split.
           ++ apply list_elem_of_In, list_elem_of_lookup. exists i.
              by apply list_lookup_insert_eq.
           ++ rewrite Hq in Hq'. injection Hq' as <-.
              apply (sameNameAndLocation_trans p q p'); [| done].
              by rewrite sameNameAndLocation_sym.
        -- exists q'. split; [| done].
           apply list_elem_of_In, list_elem_of_lookup. exists j.
           by rewrite list_lookup_insert_ne.
      * exists p. split; [| apply sameNameAndLocation_refl].
        apply list_elem_of_In, list_elem_of_lookup. exists i.
        by apply list_lookup_insert_eq.
  - pose proof (findIndex_None _ _ Hfind) as Hnone. simpl in Hnone.
    repeat split.
    + intros j1 j2 a b Ha Hb Hab.
      apply lookup_app_Some in Ha as [Ha | [Hj1 Ha]], Hb as [Hb | [Hj2 Hb]].
      * by eapply Hdistinct.
      * apply list_lookup_singleton_Some in Hb as [_ <-].
        rewrite Hnone in Hab; [done |].
        apply list_elem_of_In, list_elem_of_lookup. eauto.
      * apply list_lookup_singleton_Some in Ha as [_ <-].
        rewrite sameNameAndLocation_sym, Hnone in Hab; [done |].
        apply list_elem_of_In, list_elem_of_lookup. eauto.
      * apply list_lookup_singleton_Some in Ha as [? _], Hb as [? _]. lia.
    + intros a [Ha | [<- | []]]%in_app_or; rewrite lastDeclared_snoc.
      * rewrite (Hnone a Ha). by apply Hlast.
      * by rewrite sameNameAndLocation_refl.
    + intros p' [Hp' | [<- | []]]%in_app_or.
      * destruct (Hcover p' Hp') as (q' & Hq' & Hsame).
        exists q'. split; [apply in_or_app; by left | done].
      * exists p. split; [apply in_or_app; right; by left | apply sameNameAndLocation_refl].
Qed.

Lemma fold_mergeParameter_Merged (ps l allParameters : list ParameterObject) :
  Merged l allParameters → Merged (l ++ ps) (fold_left mergeParameter ps allParameters).
Proof.
  revert l allParameters. induction ps as [| p ps IH]; intros l allParameters Hmerged; simpl.
  - by rewrite app_nil_r.
  - replace (l ++ p :: ps) with ((l ++ [p]) ++ ps) by (by rewrite <- app_assoc).
    by apply IH, mergeParameter_Merged.
Qed.

(** The merged list has one entry per name and location declared at either
    level; the entry kept is the one that comes last in the operation's
    list followed by the path item's list, so a path-level entry takes the
    place of an operation-level entry of the same name and location. *)
Lemma mergeParameters_keeps_last (operationParameters pathParametersResolved : list ParameterObject) :
  Merged (operationParameters ++ pathParametersResolved)
         (mergeParameters operationParameters pathParametersResolved).
Proof.
  unfold mergeParameters.
  apply (fold_mergeParameter_Merged _ [] []).
  repeat split; intros; simpl in *; done.
Qed.

Lemma find_app {A : Type} (p : A → bool) (l1 l2 : list A) :
  List.find p (l1 ++ l2)
  = match List.find p l1 with Some x => Some x | None => List.find p l2 end.
Proof. induction l1 as [| x l1 IH]; simpl; [done |]. by destruct (p x). Qed.

Lemma path_level_entry_wins (operationParameters pathParametersResolved : list ParameterObject)
      (q p : ParameterObject) :
  In q (mergeParameters operationParameters pathParametersResolved) →
  In p pathParametersResolved →
  sameNameAndLocation q p = true →
  In q pathParametersResolved.
Proof.
  intros Hq Hp Hsame.
  destruct (mergeParameters_keeps_last operationParameters pathParametersResolved)
    as (_ & Hlast & _).
  specialize (Hlast q Hq). unfold lastDeclared in Hlast. rewrite rev_app_distr in Hlast.
  destruct (List.find (sameNameAndLocation q) (rev pathParametersResolved)) as [q' |] eqn:Hfind.
  - rewrite find_app, Hfind in Hlast. injection Hlast as ->.
    apply find_some in Hfind as [Hin _]. by apply in_rev.
  - assert (In p (rev pathParametersResolved)) as Hrev by (by apply in_rev in Hp).
    pose proof (find_none _ _ Hfind p Hrev) as Hcontra.
    rewrite Hsame in Hcontra. discriminate Hcontra.
Qed.

(** C4, on the code as it is.  When the operation and the path item both
    declare the parameter [id] in [path], the merged list of the compiled
    tool has one entry for it, and that entry is the path item's: the
    operation's entry is the one replaced. *)
Theorem operation_parameter_is_replaced :
  mergeParameters [operationLevelParameter] [pathLevelParameter] = [pathLevelParameter] ∧
  map toolParameters (extractToolsFromApi ∅ overridingDocument true)
    = [[pathLevelParameter]] ∧
  pathLevelParameter ≠ operationLevelParameter.
Proof. split; [reflexivity |]. split; [vm_compute; reflexivity | discriminate]. Qed.

(** ** The aggregated catalog *)

Lemma insertBySize_permutation (t : AAPMcpToolDefinition) (l : list AAPMcpToolDefinition) :
  Permutation (insertBySize t l) (t :: l).
Proof.
  induction l as [| u l IH]; simpl; [done |].
  destruct (sizeOf t <? sizeOf u)%nat; [| done].
  rewrite IH. apply perm_swap.
Qed.

Lemma sortBySizeDescending_permutation (l : list AAPMcpToolDefinition) :
  Permutation (sortBySizeDescending l) l.
Proof.
  induction l as [| t l IH]; simpl; [done |].
  rewrite insertBySize_permutation. by constructor.
Qed.

Lemma insertBySize_sorted (t : AAPMcpToolDefinition) (l : list AAPMcpToolDefinition) :
  StronglySorted notSmaller l → StronglySorted notSmaller (insertBySize t l).
Proof.
  induction 1 as [| u l Hsorted IH Hall]; simpl.
  - repeat constructor.
  - destruct (sizeOf t <? sizeOf u)%nat eqn:Hlt.
    + apply Nat.ltb_lt in Hlt. constructor; [done |].
      apply (Permutation_Forall (Permutation_sym (insertBySize_permutation t l))).
      constructor; [unfold notSmaller; lia | done].
    + apply Nat.ltb_ge in Hlt. constructor; [by constructor |].
      constructor; [done |].
      eapply List.Forall_impl; [| exact Hall]. unfold notSmaller. intros; lia.
Qed.

Lemma sortBySizeDescending_sorted (l : list AAPMcpToolDefinition) :
  StronglySorted notSmaller (sortBySizeDescending l).
Proof.
  induction l as [| t l IH]; simpl; [constructor | by apply insertBySize_sorted].
Qed.

Lemma toolsWithSize_spec (h : Heap) (raw sized : list AAPMcpToolDefinition) :
  toolsWithSize h raw = Normal sized →
  Forall2 (λ tool tool', ∃ n, tool' = withSize n tool) raw sized ∧
  Forall (sizedBySerialization h) sized.
Proof.
  revert sized. induction raw as [| tool raw IH]; intros sized; simpl.
  - intros [= <-]. split; constructor.
  - unfold stringifyLength.
    destruct (serializeOut h (sizedObject tool)) as [[text |] | |] eqn:Htext; try done.
    destruct (toolsWithSize h raw) as [rest | |]; try done.
    intros [= <-]. destruct (IH rest eq_refl) as [Hall Hsized].
    split; constructor; eauto.
    exists text. split; [exact Htext | reflexivity].
Qed.

(** The fuel given to the serialiser is never spent: each heap object
    entered joins the stack, and an object on the stack is not entered
    again. *)
Lemma Value_nested_ind (P : Value → Prop) :
  P VUndefined → P VNull → (∀ b, P (VBool b)) → (∀ z, P (VNum z)) → (∀ s, P (VStr s)) →
  (∀ l, Forall P l → P (VArr l)) → (∀ id, P (VObj id)) → ∀ v, P v.
Proof.
  intros Hundef Hnull Hbool Hnum Hstr Harr Hobj.
  fix IH 1. intros [| | b | z | s | l | id].
  - exact Hundef.
  - exact Hnull.
  - apply Hbool.
  - apply Hnum.
  - apply Hstr.
  - apply Harr. induction l as [| x l IHl]; constructor; [apply IH | exact IHl].
  - apply Hobj.
Qed.

Lemma Out_nested_ind (P : Out → Prop) :
  (∀ v, P (OVal v)) → (∀ fields, Forall (λ kv, P kv.2) fields → P (OObj fields)) → ∀ o, P o.
Proof.
  intros Hval Hobj. fix IH 1. intros [v | fields].
  - apply Hval.
  - apply Hobj. induction fields as [| [k o] fields IHf]; constructor; [apply IH | exact IHf].
Qed.

Lemma serializeElements_fuel {A : Type} (ser : A → Completion (option string)) (l : list A) :
  Forall (λ x, ser x ≠ OutOfFuel) l → serializeElements ser l ≠ OutOfFuel.
Proof.
  induction 1 as [| x l Hx _ IH]; simpl; [done |].
  destruct (ser x); [| done | done].
  by destruct (serializeElements ser l).
Qed.

Lemma serializeMembers_fuel {A : Type} (ser : A → Completion (option string))
      (o : list (string * A)) :
  Forall (λ kv, ser kv.2 ≠ OutOfFuel) o → serializeMembers ser o ≠ OutOfFuel.
Proof.
  induction 1 as [| [k x] o Hx _ IH]; simpl in *; [done |].
  destruct (ser x); [| done | done].
  by destruct (serializeMembers ser o).
Qed.

Lemma serializeJSONProperty_array (fuel : nat) (h : Heap) (stack : gset nat) (l : list Value) :
  serializeJSONProperty fuel h stack (VArr l)
  = match serializeElements (serializeJSONProperty fuel h stack) l with
    | Normal texts => Normal (Some (brackets texts))
    | Throw => Throw
    | OutOfFuel => OutOfFuel
    end.
Proof. destruct fuel; reflexivity. Qed.

Lemma serializeJSONProperty_object (fuel : nat) (h : Heap) (stack : gset nat) (id : nat) :
  serializeJSONProperty (S fuel) h stack (VObj id)
  = if bool_decide (id ∈ stack) then Throw
    else match serializeMembers (serializeJSONProperty fuel h ({[id]} ∪ stack))
                 (heapObj h id) with
         | Normal members => Normal (Some (braces members))
         | Throw => Throw
         | OutOfFuel => OutOfFuel
         end.
Proof. reflexivity. Qed.

Lemma serializeJSONProperty_fuel (fuel : nat) (h : Heap) :
  ∀ (stack : gset nat) (v : Value),
    (base.size (dom h ∖ stack) < fuel)%nat →
    serializeJSONProperty fuel h stack v ≠ OutOfFuel.
Proof.
  induction fuel as [| fuel IH]; intros stack v Hfuel; [lia |].
  induction v as [| | [] | z | s | l Hl | id] using Value_nested_ind; try done.
  - rewrite serializeJSONProperty_array.
    pose proof (serializeElements_fuel _ l Hl) as Hel.
    by destruct (serializeElements _ l).
  - rewrite serializeJSONProperty_object. case_bool_decide as Hin; [done |].
    unfold heapObj. destruct (h !! id) as [own |] eqn:Hid; simpl; [| done].
    assert (serializeMembers (serializeJSONProperty fuel h ({[id]} ∪ stack)) own ≠ OutOfFuel)
      as Hmembers.
    { apply serializeMembers_fuel, List.Forall_forall. intros kv _. apply IH.
      assert (id ∈ dom h) as Hdom by (apply elem_of_dom; eauto).
      pose proof (unseen_shrinks h stack id Hdom Hin). lia. }
    by destruct (serializeMembers _ own).
Qed.

Lemma serializeOut_fuel (h : Heap) (o : Out) : serializeOut h o ≠ OutOfFuel.
Proof.
  induction o as [v | fields Hfields] using Out_nested_ind.
  - change (serializeOut h (OVal v)) with (serializeJSONProperty (S (base.size h)) h ∅ v).
    apply serializeJSONProperty_fuel. rewrite difference_empty_L, size_dom. lia.
  - change (serializeOut h (OObj fields))
      with (match serializeMembers (serializeOut h) fields with
            | Normal texts => Normal (Some (braces texts))
            | Throw => Throw
            | OutOfFuel => OutOfFuel
            end).
    pose proof (serializeMembers_fuel _ fields Hfields) as Hmembers.
    by destruct (serializeMembers _ fields).
Qed.

Lemma toolsWithSize_fuel (h : Heap) (raw : list AAPMcpToolDefinition) :
  toolsWithSize h raw ≠ OutOfFuel.
Proof.
  induction raw as [| tool raw IH]; simpl; [done |].
  unfold stringifyLength. pose proof (serializeOut_fuel h (sizedObject tool)) as Hout.
  destruct (serializeOut h (sizedObject tool)) as [[text |] | |]; try done.
  by destruct (toolsWithSize h raw).
Qed.

(** The aggregator ends with a catalog or with the [TypeError] of a
    circular input schema. *)
Lemma generateTools_fuel (h : Heap) (allowWriteOperations : bool)
      (openApiSpecs : list OpenApiSpec) :
  generateTools h allowWriteOperations openApiSpecs ≠ OutOfFuel.
Proof.
  unfold generateTools.
  pose proof (toolsWithSize_fuel h (rawToolList h allowWriteOperations openApiSpecs)) as Hsized.
  by destruct (toolsWithSize h _).
Qed.

(** Where a tool of the raw list comes from. *)
Lemma rawToolList_origin (h : Heap) (allowWriteOperations : bool)
      (openApiSpecs : list OpenApiSpec) (tool : AAPMcpToolDefinition) :
  In tool (rawToolList h allowWriteOperations openApiSpecs) →
  ∃ spec compiled,
    In spec openApiSpecs ∧
    In compiled (extractToolsFromApi h (specDocument spec) true) ∧
    filterTool allowWriteOperations spec compiled = Some tool.
Proof.
  revert tool. apply List.Forall_forall. unfold rawToolList.
  apply fold_left_invariant; [constructor |].
  intros raw spec Hspec Hraw. apply Forall_app. split; [done |].
  apply List.Forall_forall. intros tool [compiled [Hc Hf]]%list_elem_of_In%list_elem_of_omap.
  exists spec, compiled. split; [done |]. split; [by apply list_elem_of_In | done].
Qed.

Lemma filterTool_name (allowWriteOperations : bool) (spec : OpenApiSpec)
      (compiled tool : AAPMcpToolDefinition) :
  filterTool allowWriteOperations spec compiled = Some tool →
  reformatFunc spec (withService (specService spec) compiled) = Some tool.
Proof. unfold filterTool. by case_bool_decide. Qed.

(** C2 as it was stated fails: the names are made unique within the tools
    of one document only, so that two services with an operation of the
    same identifier give the aggregated catalog the same name twice. *)
Lemma aggregated_names_collide :
  ∃ catalog,
    generateTools ∅ true twoServices = Normal catalog ∧
    map name catalog = ["list_1"; "list_1"; "list"; "list"] ∧
    ¬ NoDup (map name catalog).
Proof.
  eexists. split; [vm_compute; reflexivity |]. split; [reflexivity |].
  simpl. intros Hnodup. apply NoDup_cons in Hnodup as [Hnotin _].
  apply Hnotin. set_solver.
Qed.

(** Where a tool of the catalog comes from. *)
Lemma catalog_origin (h : Heap) (allowWriteOperations : bool)
      (openApiSpecs : list OpenApiSpec) (catalog : list AAPMcpToolDefinition)
      (tool : AAPMcpToolDefinition) :
  generateTools h allowWriteOperations openApiSpecs = Normal catalog →
  In tool catalog →
  ∃ spec compiled kept n,
    In spec openApiSpecs ∧
    In compiled (extractToolsFromApi h (specDocument spec) true) ∧
    reformatFunc spec (withService (specService spec) compiled) = Some kept ∧
    tool = withSize n kept.
Proof.
  unfold generateTools.
  destruct (toolsWithSize h _) as [sized | |] eqn:Hsized; try done.
  intros [= <-] Hin.
  apply (Permutation_in _ (sortBySizeDescending_permutation sized)) in Hin.
  apply toolsWithSize_spec in Hsized as [Hall _].
  apply list_elem_of_In in Hin.
  apply list_elem_of_lookup in Hin as [i Hi].
  destruct (Forall2_lookup_r _ _ _ _ _ Hall Hi) as (kept & Hkept & n & ->).
  assert (In kept (rawToolList h allowWriteOperations openApiSpecs)) as Hraw
      by (apply list_elem_of_In, list_elem_of_lookup; eauto).
  apply rawToolList_origin in Hraw as (spec & compiled & Hspec & Hcompiled & Hfilter).
  exists spec, compiled, kept, n. repeat split; try done.
  by apply filterTool_name in Hfilter.
Qed.

(** C2, as amended.  In an aggregated catalog whose hooks leave the names
    as they are, every name is a non-empty word over [A-Za-z0-9_-].  Within
    the tools compiled from one document the names are pairwise distinct,
    and a name is the sanitised identifier followed by the suffixes [_1],
    [_2], ... that the collision loop appended, each shorter candidate
    being the name of an earlier tool of that document.  Names are not made
    distinct across documents. *)
Theorem catalog_names (h : Heap) (allowWriteOperations : bool)
        (openApiSpecs : list OpenApiSpec) (catalog : list AAPMcpToolDefinition) :
  generateTools h allowWriteOperations openApiSpecs = Normal catalog →
  (∀ spec tool tool',
      In spec openApiSpecs → reformatFunc spec tool = Some tool' → name tool' = name tool) →
  Forall (λ tool, name tool ≠ "" ∧ allChars isNameChar (name tool) = true) catalog ∧
  (∀ spec, In spec openApiSpecs →
           NoDup (map name (extractToolsFromApi h (specDocument spec) true)) ∧
           NamedInOrder (extractToolsFromApi h (specDocument spec) true)).
Proof.
  intros Hcatalog Hhooks. split.
  - apply List.Forall_forall. intros tool Hin.
    destruct (catalog_origin _ _ _ _ _ Hcatalog Hin)
      as (spec & compiled & kept & n & Hspec & Hcompiled & Hkept & ->).
    change (name (withSize n kept)) with (name kept).
    rewrite (Hhooks spec _ kept Hspec Hkept).
    change (name (withService (specService spec) compiled)) with (name compiled).
    destruct (names_within_document h (specDocument spec) true) as (_ & Hvalid & _).
    rewrite List.Forall_forall in Hvalid. exact (Hvalid compiled Hcompiled).
  - intros spec _.
    destruct (names_within_document h (specDocument spec) true) as (Hnodup & _ & Hnamed).
    done.
Qed.

Lemma catalog_names_witness :
  ∃ catalog,
    generateTools ∅ true twoServices = Normal catalog ∧
    Forall (λ tool, name tool ≠ "" ∧ allChars isNameChar (name tool) = true) catalog ∧
    NoDup (map name (extractToolsFromApi ∅ listDocument true)).
Proof.
  eexists. split; [vm_compute; reflexivity |].
  match goal with
  | |- Forall _ ?c ∧ _ =>
      assert (generateTools ∅ true twoServices = Normal c) as Hcatalog
        by (vm_compute; reflexivity);
      assert (∀ spec tool tool',
                 In spec twoServices → reformatFunc spec tool = Some tool' →
                 name tool' = name tool) as Hhooks
        by (intros spec tool tool' [<- | [<- | []]] [= <-]; reflexivity);
      destruct (catalog_names ∅ true twoServices c Hcatalog Hhooks) as [Hvalid Hdocs]
  end.
  split; [exact Hvalid |].
  destruct (Hdocs _ (or_introl eq_refl)) as [Hnodup _]. exact Hnodup.
Defined.

Lemma utf8ByteLength_ascii (s : string) :
  allChars isAscii s = true → utf8ByteLength s = String.length s.
Proof.
  induction s as [| c s IH]; simpl; [done |].
  unfold isAscii at 1. intros [-> Hs]%andb_true_iff. by rewrite IH.
Qed.

(** C9, as amended.  Each tool of the aggregated catalog carries as its
    size the length of the JSON text of [{name, description, inputSchema}],
    counted in code units (which is the byte length when the text is
    ASCII), and the catalog is in descending order of size. *)
Theorem catalog_sizes_sorted (h : Heap) (allowWriteOperations : bool)
        (openApiSpecs : list OpenApiSpec) (catalog : list AAPMcpToolDefinition) :
  generateTools h allowWriteOperations openApiSpecs = Normal catalog →
  Forall (λ tool, ∃ text,
            serializeOut h (sizedObject tool) = Normal (Some text) ∧
            toolSize tool = Some (String.length text) ∧
            (allChars isAscii text = true →
             toolSize tool = Some (utf8ByteLength text))) catalog ∧
  StronglySorted (λ a b, sizeOf b ≤ sizeOf a)%nat catalog.
Proof.
  unfold generateTools.
  destruct (toolsWithSize h _) as [sized | |] eqn:Hsized; try done.
  intros [= <-]. split; [| apply sortBySizeDescending_sorted].
  apply toolsWithSize_spec in Hsized as [_ Hsized].
  apply (Permutation_Forall (Permutation_sym (sortBySizeDescending_permutation sized))).
  eapply List.Forall_impl; [| exact Hsized].
  intros tool (text & Htext & Hsize). exists text. repeat split; [done | done |].
  intros Hascii. by rewrite utf8ByteLength_ascii.
Qed.

Lemma catalog_sizes_sorted_witness :
  ∃ catalog,
    generateTools ∅ true mixedService = Normal catalog ∧
    map name catalog = ["job_templates_list"; "status"] ∧
    map toolSize catalog = [Some 141%nat; Some 96%nat] ∧
    StronglySorted (λ a b, sizeOf b ≤ sizeOf a)%nat catalog.
Proof.
  eexists. split; [vm_compute; reflexivity |].
  split; [reflexivity |]. split; [reflexivity |].
  match goal with
  | |- StronglySorted _ ?c =>
      assert (generateTools ∅ true mixedService = Normal c) as Hcatalog
        by (vm_compute; reflexivity);
      destruct (catalog_sizes_sorted ∅ true mixedService c Hcatalog) as [_ Hsorted]
  end.
  exact Hsorted.
Defined.

(** C9 as it was stated fails: the size counts code units, and the text of
    this tool has one code unit that takes two bytes. *)
Lemma size_is_not_byte_length :
  ∃ tool text,
    generateTools ∅ true accentedService = Normal [tool] ∧
    serializeOut ∅ (sizedObject tool) = Normal (Some text) ∧
    toolSize tool = Some 89%nat ∧
    utf8ByteLength text = 90%nat ∧
    toolSize tool ≠ Some (utf8ByteLength text).
Proof.
  eexists _, _. split; [vm_compute; reflexivity |].
  split; [vm_compute; reflexivity |].
  split; [reflexivity |]. split; [reflexivity |]. discriminate.
Qed.

(** ** Sessions and dispatch *)

Lemma allCategoryTools_spec (allCategories : Categories) (n : string) :
  n ∈ allCategoryTools allCategories ↔
  ∃ c selection, allCategories !! c = Some selection ∧ n ∈ selection.
Proof.
  unfold allCategoryTools. rewrite list_elem_of_In, in_concat. split.
  - intros (selection & Hsel & Hn).
    apply in_map_iff in Hsel as ([c selection'] & <- & Hc).
    exists c, selection'. split; [| by apply list_elem_of_In].
    by apply elem_of_map_to_list, list_elem_of_In.
  - intros (c & selection & Hc & Hn). exists selection. split; [| by apply list_elem_of_In].
    apply in_map_iff. exists (c, selection). split; [done |].
    by apply list_elem_of_In, elem_of_map_to_list.
Qed.

Lemma sessionOf_active (sessionData : SessionData) (sid : string) (s : Session) :
  sid ≠ "" → sessionData !! sid = Some s → sessionOf sessionData (Some sid) = Result s.
Proof.
  intros Hsid Hs. unfold sessionOf. apply String.eqb_neq in Hsid. by rewrite Hsid, Hs.
Qed.

Lemma filterToolsByCategory_selected (allCategories : Categories)
      (tools : list AAPMcpToolDefinition) (c : string) (selection : list string) :
  (if String.eqb c "all" then Some (allCategoryTools allCategories) else allCategories !! c)
    = Some selection →
  filterToolsByCategory allCategories tools c
  = Some (List.filter (λ tool, bool_decide (name tool ∈ selection)) tools).
Proof. unfold filterToolsByCategory. intros ->. by destruct tools. Qed.

(** C1.  For an active session, [tools/list] answers with the tools of the
    catalog, in catalog order, whose name is in the tool-name list of the
    session's category, or in the lists of all categories taken together
    when the category is [all]; [tools/call] finds the tool by its name in
    the whole catalog, whatever the session's category, so that every tool
    of the catalog can be called from every active session. *)
Theorem list_is_scoped_call_is_not (allCategories : Categories)
        (allTools : list AAPMcpToolDefinition) (sessionData : SessionData)
        (sid : string) (s : Session) :
  sid ≠ "" →
  sessionData !! sid = Some s →
  (category s = "all" →
   listTools allCategories allTools sessionData (Some sid)
   = Result (map (λ tool, (name tool, toolDescription tool, inputSchema tool))
                 (List.filter (λ tool, bool_decide (name tool ∈ allCategoryTools allCategories))
                              allTools))) ∧
  (∀ n, n ∈ allCategoryTools allCategories ↔
        ∃ c selection, allCategories !! c = Some selection ∧ n ∈ selection) ∧
  (∀ selection,
      category s ≠ "all" →
      allCategories !! category s = Some selection →
      listTools allCategories allTools sessionData (Some sid)
      = Result (map (λ tool, (name tool, toolDescription tool, inputSchema tool))
                    (List.filter (λ tool, bool_decide (name tool ∈ selection)) allTools))) ∧
  (∀ tool, In tool allTools →
           ∃ found, resolveCall allTools sessionData (Some sid) (name tool) = Result (found, s) ∧
                    name found = name tool ∧
                    In found allTools).
Proof.
  intros Hsid Hs. pose proof (sessionOf_active _ _ _ Hsid Hs) as Hactive.
  split; [| split; [| split]].
  - intros Hall. unfold listTools. rewrite Hactive.
    rewrite (filterToolsByCategory_selected _ _ _ (allCategoryTools allCategories)); [done |].
    by rewrite Hall.
  - apply allCategoryTools_spec.
  - intros selection Hne Hsel. unfold listTools. rewrite Hactive.
    rewrite (filterToolsByCategory_selected _ _ _ selection); [done |].
    apply String.eqb_neq in Hne. by rewrite Hne.
  - intros tool Hin. unfold resolveCall. rewrite Hactive.
    destruct (List.find (λ t, String.eqb (name t) (name tool)) allTools) as [found |] eqn:Hfind.
    + apply find_some in Hfind as [Hfound Hname]. apply String.eqb_eq in Hname.
      by exists found.
    + pose proof (find_none _ _ Hfind tool Hin) as Hcontra. simpl in Hcontra.
      by rewrite String.eqb_refl in Hcontra.
Qed.

Lemma list_is_scoped_call_is_not_witness :
  listTools sampleCategories sampleCatalog sampleSessions (Some "s-1")
  = Result [("getWidget", "getWidget", genericObject)] ∧
  ∃ found s,
    resolveCall sampleCatalog sampleSessions (Some "s-1") "deleteWidget" = Result (found, s) ∧
    category s = "readonly" ∧
    name found = "deleteWidget".
Proof.
  assert ("s-1" ≠ "") as Hsid by discriminate.
  assert (sampleSessions !! "s-1"
          = Some {| token := "secret"; userAgent := "cli"; category := "readonly";
                    transport := 0%nat |}) as Hs by reflexivity.
  destruct (list_is_scoped_call_is_not sampleCategories sampleCatalog sampleSessions
              "s-1" _ Hsid Hs) as (_ & _ & Hlist & Hcall).
  split.
  - rewrite (Hlist ["getWidget"]); [reflexivity | discriminate | reflexivity].
  - destruct (Hcall (sampleTool "deleteWidget" DELETE) (or_introl eq_refl))
      as (found & Hfound & Hname & _).
    exists found, {| token := "secret"; userAgent := "cli"; category := "readonly";
                     transport := 0%nat |}.
    split; [exact Hfound |]. split; [reflexivity | exact Hname].
Defined.

Lemma boundCategory_known (allCategories : Categories) (requested : option string) :
  knownCategory allCategories (boundCategory allCategories requested).
Proof.
  unfold boundCategory, knownCategory. destruct requested as [c |]; [| by left].
  case_bool_decide; [by right | by left].
Qed.

Lemma sessionStep_known (allCategories : Categories) (sessionData : SessionData)
      (e : SessionEvent) :
  (∀ sid s, sessionData !! sid = Some s → knownCategory allCategories (category s)) →
  ∀ sid s, sessionStep allCategories sessionData e !! sid = Some s →
           knownCategory allCategories (category s).
Proof.
  intros Hknown sid s. destruct e as [requested authHeader ua newId valid tr | sid' | sid' |];
    simpl.
  - destruct (nonEmpty (extractBearerToken authHeader)) as [tok |]; [| apply Hknown].
    destruct valid; [| apply Hknown].
    unfold storeSessionData. rewrite lookup_insert. case_decide.
    + intros [= <-]. apply boundCategory_known.
    + apply Hknown.
  - intros [_ Hs]%lookup_delete_Some. by eapply Hknown.
  - intros [_ Hs]%lookup_delete_Some. by eapply Hknown.
  - by rewrite lookup_empty.
Qed.

(** C10.  Every session in the registry, after any sequence of session
    events, is bound to [all] or to a key of the category map: a requested
    category that is not a key is replaced by [all] before the session is
    stored.  The category lookup of [tools/list] therefore finds a
    selection for every registered session. *)
Theorem registered_category_is_known (allCategories : Categories)
        (events : list SessionEvent) (tools : list AAPMcpToolDefinition)
        (sid : string) (s : Session) :
  runSessions allCategories events !! sid = Some s →
  (category s = "all" ∨ category s ∈ dom allCategories) ∧
  (∀ requested, requested ∉ dom allCategories →
                boundCategory allCategories (Some requested) = "all") ∧
  (∃ selection,
      (if String.eqb (category s) "all" then Some (allCategoryTools allCategories)
       else allCategories !! category s) = Some selection ∧
      filterToolsByCategory allCategories tools (category s)
      = Some (List.filter (λ tool, bool_decide (name tool ∈ selection)) tools)).
Proof.
  intros Hs.
  assert (knownCategory allCategories (category s)) as Hknown.
  { revert sid s Hs. unfold runSessions.
    apply (fold_left_invariant (sessionStep allCategories)
             (λ reg : SessionData,
                ∀ sid s, reg !! sid = Some s → knownCategory allCategories (category s))).
    - intros sid s. by rewrite lookup_empty.
    - intros reg e _ Hreg. by apply sessionStep_known. }
  split; [exact Hknown |]. split.
  - intros requested Hnot. unfold boundCategory. by rewrite bool_decide_eq_false_2.
  - assert (∃ selection,
               (if String.eqb (category s) "all" then Some (allCategoryTools allCategories)
                else allCategories !! category s) = Some selection) as [selection Hsel].
    { destruct (String.eqb (category s) "all") eqn:Hall; [by eexists |].
      destruct Hknown as [Heq | [selection Hin]%elem_of_dom]; [| by eexists].
      apply String.eqb_neq in Hall. done. }
    exists selection. split; [done |]. by apply filterToolsByCategory_selected.
Qed.

Lemma registered_category_is_known_witness :
  ∃ s,
    runSessions sampleCategories
      [Initialize (Some "nonesuch") (Some "Bearer secret") None "s-2" true 7] !! "s-2"
    = Some s ∧
    category s = "all" ∧
    is_Some (filterToolsByCategory sampleCategories sampleCatalog (category s)).
Proof.
  eexists. split; [vm_compute; reflexivity |]. split; [reflexivity |].
  match goal with
  | |- is_Some (filterToolsByCategory _ _ (category ?s)) =>
      assert (runSessions sampleCategories
                [Initialize (Some "nonesuch") (Some "Bearer secret") None "s-2" true 7]
                !! "s-2" = Some s) as Hs by (vm_compute; reflexivity);
      destruct (registered_category_is_known sampleCategories _ sampleCatalog "s-2" s Hs)
        as (_ & _ & selection & _ & Hfilter)
  end.
  rewrite Hfilter. by eexists.
Defined.

(** ** The compiler and the inclusion flags *)

Lemma toLowerCase_nonempty (s : string) : s ≠ "" → toLowerCase s ≠ "".
Proof. by destruct s. Qed.

Lemma append_nonempty_l (s t : string) : s ≠ "" → s +:+ t ≠ "".
Proof. by destruct s. Qed.

Lemma generateOperationId_nonempty (m : HttpMethods) (path : string) :
  generateOperationId (methodName m) path ≠ "".
Proof.
  unfold generateOperationId. rewrite fold_appendPart.
  apply append_nonempty_l, toLowerCase_nonempty. by destruct m.
Qed.

Lemma nonEmpty_Some (s : option string) (t : string) : nonEmpty s = Some t → t ≠ "".
Proof.
  destruct s as [s |]; simpl; [| done].
  destruct (String.eqb s "") eqn:Hs; [done |]. intros [= <-]. by apply String.eqb_neq.
Qed.

(** An included operation is compiled, whatever names are in use. *)
Lemma compileOperation_included (h : Heap) (api : Document) (defaultInclude : bool)
      (usedNames : gset string) (path : string) (pathItem : PathItemObject)
      (m : HttpMethods) (rawOperation : RawOperation) :
  shouldIncludeOperationForMcp api pathItem (newAAPOperationObject rawOperation)
    defaultInclude = true →
  ∃ tool, compileOperation h api defaultInclude usedNames path pathItem m rawOperation
          = Some tool.
Proof.
  intros Hinclude. unfold compileOperation. rewrite Hinclude. simpl.
  destruct (String.eqb _ "") eqn:Hempty; [| by eexists].
  apply String.eqb_eq in Hempty.
  simpl in Hempty.
  destruct (nonEmpty (rawOperationId rawOperation)) as [s |] eqn:Hid; simpl in Hempty.
  - apply nonEmpty_Some in Hid. by destruct Hid.
  - by destruct (generateOperationId_nonempty m path).
Qed.

Lemma all_methods_listed (m : HttpMethods) : In m allHttpMethods.
Proof. destruct m; simpl; tauto. Qed.

(** A fold reaches every element of its list: what the step establishes
    for an element, and later steps keep, holds at the end. *)
Lemma fold_left_reaches {A B : Type} (f : A → B → A) (Q : B → A → Prop) (l : list B) :
  (∀ a x y, Q y a → Q y (f a x)) →
  (∀ a x, In x l → Q x (f a x)) →
  ∀ a x, In x l → Q x (fold_left f l a).
Proof.
  intros Hkeep. induction l as [| y l IH]; intros Hstep a x; simpl; [done |].
  intros [<- | Hin].
  - assert (∀ l' a', Q y a' → Q y (fold_left f l' a')) as Hfold.
    { induction l' as [| z l' IHl']; intros a' Ha'; simpl; [done |]. by apply IHl', Hkeep. }
    apply Hfold, Hstep. by left.
  - apply IH; [| done]. intros a' x' Hx'. apply Hstep. by right.
Qed.

Lemma extractMethod_grows (h : Heap) (api : Document) (defaultInclude : bool)
      (path : string) (pathItem : PathItemObject) (st : ExtractState) (m : HttpMethods)
      (tool : AAPMcpToolDefinition) :
  In tool st.1 → In tool (extractMethod h api defaultInclude path pathItem st m).1.
Proof.
  intros Hin. unfold extractMethod.
  destruct (pathOperation pathItem m) as [rawOperation |]; [| done].
  destruct (compileOperation _ _ _ _ _ _ _ _) as [tool' |]; [| done].
  simpl. apply in_or_app. by left.
Qed.

Lemma extractPath_grows (h : Heap) (api : Document) (defaultInclude : bool)
      (st : ExtractState) (entry : string * option PathItemObject)
      (tool : AAPMcpToolDefinition) :
  In tool st.1 → In tool (extractPath h api defaultInclude st entry).1.
Proof.
  intros Hin. unfold extractPath. destruct entry.2 as [pathItem |]; [| done].
  revert st Hin. generalize allHttpMethods.
  induction l as [| m l IH]; intros st Hin; simpl; [done |].
  by apply IH, extractMethod_grows.
Qed.

(** The operation found at a path and method, when it is included, has its
    tool in the state after the path was visited. *)
Lemma extractPath_covers (h : Heap) (api : Document) (defaultInclude : bool)
      (st : ExtractState) (path : string) (pathItem : PathItemObject)
      (m : HttpMethods) (rawOperation : RawOperation) :
  pathOperation pathItem m = Some rawOperation →
  shouldIncludeOperationForMcp api pathItem (newAAPOperationObject rawOperation)
    defaultInclude = true →
  ∃ tool, In tool (extractPath h api defaultInclude st (path, Some pathItem)).1 ∧
          pathTemplate tool = path ∧ method tool = m.
Proof.
  intros Hop Hinclude. unfold extractPath. cbv beta iota delta [fst snd].
  apply (fold_left_reaches (extractMethod h api defaultInclude path pathItem)
           (λ m' st', ∀ rawOperation',
               pathOperation pathItem m' = Some rawOperation' →
               shouldIncludeOperationForMcp api pathItem
                 (newAAPOperationObject rawOperation') defaultInclude = true →
               ∃ tool, In tool st'.1 ∧ pathTemplate tool = path ∧ method tool = m')
           allHttpMethods) with (x := m) (rawOperation' := rawOperation);
    [| | apply all_methods_listed | done | done].
  - intros st' m1 m2 Hm2 raw' Hraw' Hinc'.
    destruct (Hm2 raw' Hraw' Hinc') as (tool & Hin & Hfields).
    exists tool. split; [by apply extractMethod_grows | done].
  - intros st' m' _ raw' Hraw' Hinc'. unfold extractMethod. rewrite Hraw'.
    destruct (compileOperation_included h api defaultInclude st'.2 path pathItem m' raw' Hinc')
      as [tool Hcompile].
    rewrite Hcompile. exists tool. split; [simpl; apply in_or_app; right; by left |].
    by destruct (compileOperation_fields _ _ _ _ _ _ _ _ _ Hcompile)
      as (_ & _ & _ & _ & _ & _ & _ & _ & -> & ->).
Qed.

(** X1.  The tools of a document are exactly its included operations:
    every tool comes from an operation, found at the tool's path and
    method, for which the inclusion resolver answers yes; and every
    operation for which it answers yes has a tool with its path and
    method. *)
Theorem extraction_matches_inclusion (h : Heap) (api : Document) (defaultInclude : bool)
        (paths : list (string * option PathItemObject)) :
  docPaths api = Some paths →
  (∀ tool, In tool (extractToolsFromApi h api defaultInclude) →
           ∃ pathItem rawOperation,
             In (pathTemplate tool, Some pathItem) paths ∧
             pathOperation pathItem (method tool) = Some rawOperation ∧
             shouldIncludeOperationForMcp api pathItem (newAAPOperationObject rawOperation)
               defaultInclude = true) ∧
  (∀ path pathItem m rawOperation,
      In (path, Some pathItem) paths →
      pathOperation pathItem m = Some rawOperation →
      shouldIncludeOperationForMcp api pathItem (newAAPOperationObject rawOperation)
        defaultInclude = true →
      ∃ tool, In tool (extractToolsFromApi h api defaultInclude) ∧
              pathTemplate tool = path ∧ method tool = m).
Proof.
  intros Hpaths. split.
  - intros tool Hin.
    destruct (extracted_compiledFrom _ _ _ _ Hin)
      as (rawOperation & paths' & usedNames & pathItem & Hpaths' & Hentry & Hop & Hcompile).
    rewrite Hpaths in Hpaths'. injection Hpaths' as <-.
    exists pathItem, rawOperation. repeat split; [done | done |].
    by destruct (compileOperation_fields _ _ _ _ _ _ _ _ _ Hcompile) as (-> & _).
  - intros path pathItem m rawOperation Hentry Hop Hinclude.
    unfold extractToolsFromApi. rewrite Hpaths.
    apply (fold_left_reaches (extractPath h api defaultInclude)
             (λ entry st, ∀ pathItem',
                 entry.2 = Some pathItem' →
                 ∀ m' rawOperation',
                   pathOperation pathItem' m' = Some rawOperation' →
                   shouldIncludeOperationForMcp api pathItem'
                     (newAAPOperationObject rawOperation') defaultInclude = true →
                   ∃ tool, In tool st.1 ∧ pathTemplate tool = entry.1 ∧ method tool = m')
             paths) with (x := (path, Some pathItem)) (pathItem' := pathItem)
                         (rawOperation' := rawOperation); try done.
    + intros st e1 e2 He2 pathItem' Hitem m' raw' Hraw' Hinc'.
      destruct (He2 pathItem' Hitem m' raw' Hraw' Hinc') as (tool & Hin & Hfields).
      exists tool. split; [by apply extractPath_grows | done].
    + intros st [path' item'] _ pathItem' Hitem m' raw' Hraw' Hinc'. simpl in Hitem.
      subst item'. by apply extractPath_covers with (rawOperation := raw').
Qed.

Lemma extraction_matches_inclusion_witness :
  ∃ tool, In tool (extractToolsFromApi ∅ verboseDocument true) ∧
          pathTemplate tool = "/widgets/{id}" ∧ method tool = GET.
Proof.
  destruct (extraction_matches_inclusion ∅ verboseDocument true _ eq_refl) as [_ Hcovers].
  eapply (Hcovers "/widgets/{id}" _ GET verboseOperation);
    [left; reflexivity | reflexivity | reflexivity].
Defined.

(** ** Parameters and the input schema of a tool *)

Lemma compileOperation_execution (h : Heap) (api : Document) (defaultInclude : bool)
      (usedNames : gset string) (path : string) (pathItem : PathItemObject)
      (m : HttpMethods) (rawOperation : RawOperation) (tool : AAPMcpToolDefinition) :
  compileOperation h api defaultInclude usedNames path pathItem m rawOperation = Some tool →
  executionParameters tool = map (λ p, (paramName p, paramIn p)) (toolParameters tool) ∧
  inputSchema tool
  = detailsInputSchema (generateInputSchemaAndDetails h (newAAPOperationObject rawOperation)
                          (pathParameters pathItem)) ∧
  requestBodyContentType tool
  = detailsRequestBodyContentType
      (generateInputSchemaAndDetails h (newAAPOperationObject rawOperation)
         (pathParameters pathItem)).
Proof.
  unfold compileOperation.
  destruct (shouldIncludeOperationForMcp _ _ _ _); [| done]. simpl.
  destruct (String.eqb _ ""); [done |]. by intros [= <-].
Qed.

Lemma merged_keys_distinct (l allParameters : list ParameterObject) :
  Merged l allParameters →
  NoDup (map (λ p, (paramName p, paramIn p)) allParameters).
Proof.
  intros (Hdistinct & _ & _). apply NoDup_alt. intros i j key Hi Hj.
  rewrite list_lookup_fmap in Hi, Hj.
  destruct (allParameters !! i) as [a |] eqn:Ha; [| done].
  destruct (allParameters !! j) as [b |] eqn:Hb; [| done].
  simpl in Hi, Hj. injection Hi as <-. injection Hj as Hname Hin.
  apply (Hdistinct i j a b Ha Hb). apply sameNameAndLocation_spec. by split.
Qed.

(** X2.  The parameters of a compiled tool are entries declared by the
    operation or the path item; every declared name and location has an
    entry, and no name and location has two: the execution parameters,
    which are the (name, location) pairs of the parameters, are pairwise
    distinct. *)
Theorem tool_parameters_cover_declared (h : Heap) (api : Document) (defaultInclude : bool)
        (usedNames : gset string) (path : string) (pathItem : PathItemObject)
        (m : HttpMethods) (rawOperation : RawOperation) (tool : AAPMcpToolDefinition) :
  compileOperation h api defaultInclude usedNames path pathItem m rawOperation = Some tool →
  let declared := default [] (rawParameters rawOperation)
                    ++ default [] (pathParameters pathItem) in
  (∀ q, In q (toolParameters tool) → In q declared) ∧
  (∀ p, In p declared → In (paramName p, paramIn p) (executionParameters tool)) ∧
  executionParameters tool = map (λ p, (paramName p, paramIn p)) (toolParameters tool) ∧
  NoDup (executionParameters tool).
Proof.
  intros Hcompile declared.
  destruct (compileOperation_fields _ _ _ _ _ _ _ _ _ Hcompile)
    as (_ & _ & _ & _ & _ & _ & Hparams & _).
  destruct (compileOperation_execution _ _ _ _ _ _ _ _ _ Hcompile) as (Hexec & _).
  simpl in Hparams.
  pose proof (mergeParameters_keeps_last (default [] (rawParameters rawOperation))
                (default [] (pathParameters pathItem))) as Hmerged.
  rewrite <- Hparams in Hmerged. fold declared in Hmerged.
  pose proof (merged_keys_distinct _ _ Hmerged) as Hnodup.
  destruct Hmerged as (_ & Hlast & Hcover).
  repeat split.
  - intros q Hq. specialize (Hlast q Hq). unfold lastDeclared in Hlast.
    apply find_some in Hlast as [Hin _]. by apply in_rev in Hin.
  - intros p Hp. destruct (Hcover p Hp) as (q & Hq & [Hname Hloc]%sameNameAndLocation_spec).
    rewrite Hexec, <- Hname, <- Hloc.
    by apply (in_map (λ p, (paramName p, paramIn p))).
  - exact Hexec.
  - by rewrite Hexec.
Qed.

Lemma tool_parameters_cover_declared_witness :
  ∃ tool,
    extractToolsFromApi ∅ overridingDocument true = [tool] ∧
    executionParameters tool = [("id", "path")] ∧
    NoDup (executionParameters tool).
Proof.
  eexists. split; [vm_compute; reflexivity |]. split; [reflexivity |].
  match goal with
  | |- NoDup (executionParameters ?t) =>
      assert (compileOperation ∅ overridingDocument true ∅ "/widgets/{id}"
                {| pathXMcp := VUndefined; pathParameters := Some [pathLevelParameter];
                   pathOperations := [(GET, overridingOperation)] |}
                GET overridingOperation = Some t) as Hcompile by (vm_compute; reflexivity);
      destruct (tool_parameters_cover_declared _ _ _ _ _ _ _ _ _ Hcompile)
        as (_ & _ & _ & Hnodup)
  end.
  exact Hnodup.
Defined.

Section PropTablesMore.
Context {A : Type}.

Lemma getProp_deleteProp_same (k : string) (o : list (string * A)) :
  getProp k (deleteProp k o) = None.
Proof.
  induction o as [| [k' v'] o IH]; simpl; [done |].
  destruct (String.eqb k' k) eqn:Hk; simpl; [done | by rewrite Hk].
Qed.

Lemma getProp_deleteProp_other (k k0 : string) (o : list (string * A)) :
  k0 ≠ k → getProp k (deleteProp k0 o) = getProp k o.
Proof.
  intros Hne. induction o as [| [k' v'] o IH]; simpl; [done |].
  destruct (String.eqb k' k0) eqn:Hk0; simpl.
  - apply String.eqb_eq in Hk0 as ->. apply String.eqb_neq in Hne. by rewrite Hne.
  - by rewrite IH.
Qed.



End PropTablesMore.





(** ** What the schema translator leaves in a translated schema *)

Lemma getProp_deletes_vendor (k : string) (o : list (string * Out)) :
  In k vendorKeys → getProp k (fold_left (λ o k, deleteProp k o) vendorKeys o) = None.
Proof.
  intros Hk. revert o. induction vendorKeys as [| k0 ks IH]; intros o; [done |].
  simpl. destruct Hk as [-> | Hk].
  - apply getProp_deletes_None, getProp_deleteProp_same.
  - by apply IH.
Qed.

Lemma getProp_deletes_other (k : string) (ks : list string) (o : list (string * Out)) :
  ¬ In k ks → getProp k (fold_left (λ o k, deleteProp k o) ks o) = getProp k o.
Proof.
  revert o. induction ks as [| k0 ks IH]; intros o Hk; simpl; [done |].
  rewrite IH by (intros Hin; apply Hk; by right).
  apply getProp_deleteProp_other. intros ->. apply Hk. by left.
Qed.

Lemma vendor_key_not_rewritten (k : string) :
  In k vendorKeys → k ≠ "type" ∧ k ≠ "properties" ∧ k ≠ "items".
Proof.
  intros Hk. repeat split; intros ->; simpl in Hk;
    repeat (destruct Hk as [Hk | Hk]; [discriminate Hk |]); done.
Qed.

Lemma foldNullable_other (k : string) (jsonSchema : list (string * Out)) :
  k ≠ "type" → getProp k (foldNullable jsonSchema) = getProp k jsonSchema.
Proof.
  intros Hk. unfold foldNullable.
  destruct (getProp "type" jsonSchema) as [[v | fields] |]; try done;
    [| by apply getProp_setProp_other].
  destruct v; try destruct (existsb _ _); try destruct (truthy _);
    try done; by apply getProp_setProp_other.
Qed.

(** After the nullable flag is folded in, the type is no string but
    ["null"]. *)
Lemma foldNullable_type (s : string) (jsonSchema : list (string * Out)) :
  s ≠ "null" → outIsStr s (getProp "type" (foldNullable jsonSchema)) = false.
Proof.
  intros Hs. apply String.eqb_neq in Hs. rewrite String.eqb_sym in Hs.
  unfold foldNullable.
  destruct (getProp "type" jsonSchema) as [[v | fields] |] eqn:Htype.
  - destruct v; simpl; rewrite ?getProp_setProp_same, ?Htype; simpl; try done.
    + destruct b; simpl; by rewrite ?getProp_setProp_same, ?Htype.
    + destruct (negb (z =? 0)%Z); simpl; by rewrite ?getProp_setProp_same, ?Htype.
    + destruct (existsb _ l); by rewrite ?getProp_setProp_same, ?Htype.
  - by rewrite Htype.
  - by rewrite getProp_setProp_same.
Qed.

Lemma copySchema_vendor (own : Obj) (k : string) :
  In k vendorKeys → getProp k (copySchema own) = None.
Proof.
  intros Hk. destruct (vendor_key_not_rewritten k Hk) as (Htype & _).
  unfold copySchema.
  destruct (match getProp "nullable" own with Some v => truthy v | None => false end);
    rewrite ?foldNullable_other by done; by apply getProp_deletes_vendor.
Qed.

Lemma copySchema_not_integer (own : Obj) :
  outIsStr "integer" (getProp "type" (copySchema own)) = false.
Proof.
  unfold copySchema.
  destruct (match getProp "nullable" own with Some v => truthy v | None => false end);
    [by apply foldNullable_type |].
  rewrite getProp_deletes_other by (simpl; intuition discriminate).
  destruct (getProp "type" own) as [v |] eqn:Htype.
  - destruct (isStr "integer" v) eqn:Hint.
    + by rewrite getProp_setProp_same.
    + by rewrite getProp_spread, Htype.
  - by rewrite getProp_spread, Htype.
Qed.

(** X4.  Whatever the translator returns is an object without the
    vendor-only keys [nullable], [example], [xml], [externalDocs],
    [deprecated], [readOnly] and [writeOnly], and its type is never the
    string [integer]. *)
Theorem translated_schema_is_clean (fuel : nat) (h : Heap) (schema : ObjectRef)
        (seen seen' : gset nat) (out : Out) :
  mapOpenApiSchemaToJsonSchema fuel h schema seen = Some (out, seen') →
  ∃ fields,
    out = OObj fields ∧
    (∀ k, In k vendorKeys → getProp k fields = None) ∧
    outIsStr "integer" (getProp "type" fields) = false.
Proof.
  destruct fuel as [| fuel]; [done |]. simpl.
  destruct (hasProp "$ref" _).
  { intros [= <- <-]. eexists. split; [reflexivity |]. split; [| done].
    intros k Hk. simpl in Hk. simpl.
    repeat (destruct Hk as [<- | Hk]; [reflexivity |]). done. }
  destruct (seenHas seen schema).
  { intros [= <- <-]. eexists. split; [reflexivity |]. split; [| done].
    intros k Hk. simpl in Hk. simpl.
    repeat (destruct Hk as [<- | Hk]; [reflexivity |]). done. }
  set (copy := copySchema (ownProps h schema)).
  assert (∀ fields,
             (fields = copy ∨ ∃ v, fields = setProp "properties" v copy) →
             ∀ fields',
               (fields' = fields ∨ ∃ m, fields' = setProp "items" m fields) →
               (∀ k, In k vendorKeys → getProp k fields' = None) ∧
               outIsStr "integer" (getProp "type" fields') = false) as Hclean.
  { intros fields Hfields fields' Hfields'. split.
    - intros k Hk. destruct (vendor_key_not_rewritten k Hk) as (_ & Hp & Hi).
      destruct Hfields' as [-> | [m ->]], Hfields as [-> | [v ->]];
        rewrite ?getProp_setProp_other by done; by apply copySchema_vendor.
    - destruct Hfields' as [-> | [m ->]], Hfields as [-> | [v ->]];
        rewrite ?getProp_setProp_other by done; apply copySchema_not_integer. }
  destruct (propertiesToMap copy) as [properties |].
  - destruct (mapProperties _ _ _ _) as [[mappedProps seen1] |]; [| done].
    destruct (itemsToMap _) as [items |].
    + destruct (mapOpenApiSchemaToJsonSchema fuel h items seen1) as [[m seen2] |]; [| done].
      intros [= <- <-]. eexists. split; [reflexivity |].
      apply (Hclean (setProp "properties" (OObj mappedProps) copy));
        right; by eexists.
    + intros [= <- <-]. eexists. split; [reflexivity |].
      apply (Hclean (setProp "properties" (OObj mappedProps) copy));
        [right; by eexists | by left].
  - destruct (itemsToMap _) as [items |].
    + destruct (mapOpenApiSchemaToJsonSchema fuel h items _) as [[m seen2] |]; [| done].
      intros [= <- <-]. eexists. split; [reflexivity |].
      apply (Hclean copy); [by left | right; by eexists].
    + intros [= <- <-]. eexists. split; [reflexivity |].
      apply (Hclean copy); by left.
Qed.

Lemma translated_schema_is_clean_witness :
  ∃ fields,
    mapSchema cyclicHeap 1 = OObj fields ∧
    getProp "nullable" fields = None ∧
    outIsStr "integer" (getProp "type" fields) = false.
Proof.
  assert (mapOpenApiSchemaToJsonSchema 5 cyclicHeap (RObj 1) ∅
          = Some (mapSchema cyclicHeap 1, ∅)) as Hrun by (vm_compute; reflexivity).
  destruct (translated_schema_is_clean _ _ _ _ _ _ Hrun) as (fields & Hout & Hvendor & Htype).
  exists fields. split; [exact Hout |]. split; [| exact Htype].
  apply Hvendor. by left.
Defined.

(** X5.  A schema marked nullable is copied without its children: with the
    flag folded in, its type is an array of types or ["null"], never the
    string [object] or [array], so that neither its properties nor its
    items are translated and the translator makes no nested call. *)
Theorem nullable_schema_children_untranslated (fuel : nat) (h : Heap) (schema : ObjectRef)
        (seen : gset nat) (nullable : Value) :
  hasProp "$ref" (ownProps h schema) = false →
  seenHas seen schema = false →
  getProp "nullable" (ownProps h schema) = Some nullable →
  truthy nullable = true →
  mapOpenApiSchemaToJsonSchema (S fuel) h schema seen
  = Some (OObj (copySchema (ownProps h schema)), seen) ∧
  mapOpenApiSchemaToJsonSchema 1 h schema seen
  = Some (OObj (copySchema (ownProps h schema)), seen) ∧
  getProp "properties" (copySchema (ownProps h schema))
  = OVal <$> getProp "properties" (ownProps h schema) ∧
  getProp "items" (copySchema (ownProps h schema))
  = OVal <$> getProp "items" (ownProps h schema).
Proof.
  intros Href Hseen Hnullable Htruthy.
  assert (∀ s, s ≠ "null" →
               outIsStr s (getProp "type" (copySchema (ownProps h schema))) = false) as Htype.
  { intros s Hs. unfold copySchema. rewrite Hnullable, Htruthy. by apply foldNullable_type. }
  assert (propertiesToMap (copySchema (ownProps h schema)) = None) as Hprops.
  { unfold propertiesToMap. rewrite Htype by done.
    by destruct (getProp "properties" _) as [[] |]. }
  assert (itemsToMap (copySchema (ownProps h schema)) = None) as Hitems.
  { unfold itemsToMap. rewrite Htype by done.
    by destruct (getProp "items" _) as [[] |]. }
  assert (seenDelete (seenAdd seen schema) schema = seen) as Hrestored.
  { destruct schema as [id | l]; simpl in *; [| done].
    apply bool_decide_eq_false in Hseen. by apply seen_restored. }
  assert (∀ k, k ≠ "type" → ¬ In k vendorKeys →
               getProp k (copySchema (ownProps h schema))
               = OVal <$> getProp k (ownProps h schema)) as Hkept.
  { intros k Hk Hvendor. unfold copySchema. rewrite Hnullable, Htruthy.
    rewrite foldNullable_other, getProp_deletes_other by done.
    destruct (match getProp "type" _ with Some v => isStr "integer" v | None => false end);
      rewrite ?getProp_setProp_other by done; apply getProp_spread. }
  repeat split.
  - simpl. by rewrite Href, Hseen, Hprops, Hitems, Hrestored.
  - simpl. by rewrite Href, Hseen, Hprops, Hitems, Hrestored.
  - apply Hkept; [done | simpl; intuition discriminate].
  - apply Hkept; [done | simpl; intuition discriminate].
Qed.

Lemma nullable_schema_children_untranslated_witness :
  mapOpenApiSchemaToJsonSchema 1 nullableHeap (RObj 1) ∅
  = Some (OObj [("type", OVal (VArr [VStr "object"; VStr "null"]));
                ("properties", OVal (VObj 2))], ∅).
Proof.
  assert (hasProp "$ref" (ownProps nullableHeap (RObj 1)) = false) as Href by reflexivity.
  assert (seenHas ∅ (RObj 1) = false) as Hseen by reflexivity.
  assert (getProp "nullable" (ownProps nullableHeap (RObj 1)) = Some (VBool true))
    as Hnullable by reflexivity.
  destruct (nullable_schema_children_untranslated 0 nullableHeap (RObj 1) ∅ (VBool true)
              Href Hseen Hnullable eq_refl) as (_ & Hone & _).
  exact Hone.
Defined.

(** ** Names that are kept and names that are changed *)

Lemma sanitizeName_fixes_valid (s : string) :
  allChars isNameChar s = true → sanitizeName s = s.
Proof.
  rewrite sanitizeName_one_pass. induction s as [| c s IH]; simpl; [done |].
  intros [Hc Hs]%andb_true_iff. by rewrite Hc, IH.
Qed.

Lemma suffixed_app (c : string) (counter k : nat) :
  ∃ suffix, suffixed c counter k = c +:+ suffix.
Proof.
  revert c counter. induction k as [| k IH]; intros c counter; simpl.
  - exists "". by rewrite append_empty_r.
  - destruct (IH (c +:+ "_" +:+ ofNat counter) (S counter)) as [suffix ->].
    eexists. by rewrite append_assoc.
Qed.

Lemma uniqueName_unused (usedNames : gset string) (c : string) :
  c ∉ usedNames → uniqueName usedNames c = c.
Proof.
  intros Hc. unfold uniqueName. simpl. by rewrite bool_decide_eq_false_2.
Qed.

Lemma logTransformed_in_logs (operation : AAPOperationObject) (base candidate : string)
      (schema : Out) :
  In (logTransformed base) (operationLogs operation base candidate schema) ↔
  base ≠ candidate.
Proof.
  unfold operationLogs. rewrite !in_app_iff.
  destruct (String.eqb base candidate) eqn:Hsame.
  - apply String.eqb_eq in Hsame. split; [| done].
    intros Hin. exfalso.
    repeat (destruct Hin as [Hin | Hin]);
      repeat match type of Hin with
        | In _ (if ?c then _ else _) => destruct c
        end;
      simpl in Hin; try done;
      destruct Hin as [Hin | []]; vm_compute in Hin; discriminate Hin.
  - apply String.eqb_neq in Hsame. split; [done |].
    intros _. right. left. by left.
Qed.

(** X6.  A compiled tool keeps the identifier of its operation as its name
    exactly when the identifier is a word over [A-Za-z0-9_-] that no
    earlier tool of the document has taken; the diagnostic that the name
    was transformed is logged exactly when the name differs from the
    identifier. *)
Theorem name_kept_or_flagged (h : Heap) (api : Document) (defaultInclude : bool)
        (usedNames : gset string) (path : string) (pathItem : PathItemObject)
        (m : HttpMethods) (rawOperation : RawOperation) (tool : AAPMcpToolDefinition) :
  compileOperation h api defaultInclude usedNames path pathItem m rawOperation = Some tool →
  (name tool = toolOperationId tool ↔
   allChars isNameChar (toolOperationId tool) = true ∧ toolOperationId tool ∉ usedNames) ∧
  (In (logTransformed (toolOperationId tool)) (logs tool) ↔
   name tool ≠ toolOperationId tool).
Proof.
  intros Hcompile.
  destruct (compileOperation_fields _ _ _ _ _ _ _ _ _ Hcompile)
    as (_ & Hbase & _ & Hname & _ & _ & _ & Hlogs & _).
  split.
  - destruct (uniqueName_spec usedNames (sanitizeName (toolOperationId tool)))
      as (Hfresh & k & Hk & _).
    rewrite <- Hname in Hfresh, Hk. split.
    + intros Hkept. rewrite Hkept in Hfresh, Hk. split; [| done].
      destruct (suffixed_app (sanitizeName (toolOperationId tool)) 1 k) as [suffix Hsuffix].
      rewrite Hsuffix in Hk.
      assert (suffix = "") as ->.
      { apply (f_equal String.length) in Hk.
        rewrite length_append, sanitizeName_length in Hk. destruct suffix; [done |].
        simpl in Hk. lia. }
      rewrite append_empty_r in Hk. rewrite Hk. apply sanitizeName_alphabet.
    + intros [Hvalid Hunused].
      by rewrite Hname, sanitizeName_fixes_valid, uniqueName_unused.
  - rewrite Hlogs, logTransformed_in_logs. split; intros Hne Heq; by apply Hne.
Qed.

Lemma name_kept_or_flagged_witness :
  ∃ tool,
    extractToolsFromApi ∅ verboseDocument true = [tool] ∧
    toolOperationId tool = "getWidgetsById" ∧
    name tool = toolOperationId tool.
Proof.
  eexists. split; [vm_compute; reflexivity |]. split; [reflexivity |].
  match goal with
  | |- name ?t = _ =>
      assert (compileOperation ∅ verboseDocument true ∅ "/widgets/{id}"
                {| pathXMcp := VUndefined; pathParameters := None;
                   pathOperations := [(GET, verboseOperation)] |}
                GET verboseOperation = Some t) as Hcompile by (vm_compute; reflexivity);
      destruct (name_kept_or_flagged _ _ _ _ _ _ _ _ _ Hcompile) as [Hkept _]
  end.
  apply Hkept. split; [reflexivity | set_solver].
Defined.

(** ** The order of the catalog *)

Lemma filter_insertBySize (p : nat → bool) (t : AAPMcpToolDefinition)
      (l : list AAPMcpToolDefinition) :
  (∀ n, p n = true → n = sizeOf t) →
  List.filter (λ u, p (sizeOf u)) (insertBySize t l)
  = List.filter (λ u, p (sizeOf u)) (t :: l).
Proof.
  intros Hp. induction l as [| u l IH]; [done |].
  simpl. destruct (sizeOf t <? sizeOf u)%nat eqn:Hlt; [| done].
  apply Nat.ltb_lt in Hlt. simpl. simpl in IH. rewrite IH.
  destruct (p (sizeOf u)) eqn:Hu; [| done].
  apply Hp in Hu. lia.
Qed.

Lemma filter_insertBySize_other (n : nat) (t : AAPMcpToolDefinition)
      (l : list AAPMcpToolDefinition) :
  sizeOf t ≠ n →
  List.filter (λ u, (sizeOf u =? n)%nat) (insertBySize t l)
  = List.filter (λ u, (sizeOf u =? n)%nat) l.
Proof.
  intros Hne. apply Nat.eqb_neq in Hne.
  induction l as [| u l IH]; simpl; [by rewrite Hne |].
  destruct (sizeOf t <? sizeOf u)%nat; simpl; [by rewrite IH | by rewrite Hne].
Qed.

(** X7.  Sorting the catalog by size keeps every tool, once each, puts no
    tool before a larger one, and leaves the tools of equal size in the
    order in which the services and their documents gave them. *)
Theorem catalog_sort_is_stable (l : list AAPMcpToolDefinition) :
  Permutation (sortBySizeDescending l) l ∧
  StronglySorted (λ a b, sizeOf b ≤ sizeOf a)%nat (sortBySizeDescending l) ∧
  ∀ n, List.filter (λ u, (sizeOf u =? n)%nat) (sortBySizeDescending l)
       = List.filter (λ u, (sizeOf u =? n)%nat) l.
Proof.
  split; [apply sortBySizeDescending_permutation |].
  split; [apply sortBySizeDescending_sorted |].
  intros n. induction l as [| t l IH]; [done |].
  change (sortBySizeDescending (t :: l)) with (insertBySize t (sortBySizeDescending l)).
  destruct (decide (sizeOf t = n)) as [Heq | Hne].
  - rewrite (filter_insertBySize (λ k, (k =? n)%nat)).
    + simpl. by rewrite IH.
    + intros k Hk. apply Nat.eqb_eq in Hk. lia.
  - rewrite filter_insertBySize_other by done. simpl.
    apply Nat.eqb_neq in Hne. by rewrite Hne, IH.
Qed.

(** ** The write-access policy *)

Lemma filterTool_allowed (allowWriteOperations : bool) (spec : OpenApiSpec)
      (compiled tool : AAPMcpToolDefinition) :
  filterTool allowWriteOperations spec compiled = Some tool →
  toUpperCase (methodName (method compiled)) ∈ allowedOperations allowWriteOperations.
Proof. unfold filterTool. by case_bool_decide. Qed.

(** X8.  Every tool of the aggregated catalog was compiled from a document
    of a listed service with a method that the write-access policy allows:
    never TRACE, and GET, HEAD or OPTIONS only when write operations are
    not allowed.  With hooks that leave the method as it is, this is the
    method of the tool in the catalog. *)
Theorem catalog_respects_write_policy (h : Heap) (allowWriteOperations : bool)
        (openApiSpecs : list OpenApiSpec) (catalog : list AAPMcpToolDefinition)
        (tool : AAPMcpToolDefinition) :
  generateTools h allowWriteOperations openApiSpecs = Normal catalog →
  In tool catalog →
  ∃ spec compiled kept n,
    In spec openApiSpecs ∧
    In compiled (extractToolsFromApi h (specDocument spec) true) ∧
    reformatFunc spec (withService (specService spec) compiled) = Some kept ∧
    tool = withSize n kept ∧
    method compiled ≠ TRACE ∧
    (allowWriteOperations = false → method compiled ∈ [GET; HEAD; OPTIONS]) ∧
    (method kept = method compiled → method tool = method compiled).
Proof.
  unfold generateTools.
  destruct (toolsWithSize h _) as [sized | |] eqn:Hsized; try done.
  intros [= <-] Hin.
  apply (Permutation_in _ (sortBySizeDescending_permutation sized)) in Hin.
  apply toolsWithSize_spec in Hsized as [Hall _].
  apply list_elem_of_In, list_elem_of_lookup in Hin as [i Hi].
  destruct (Forall2_lookup_r _ _ _ _ _ Hall Hi) as (kept & Hkept & n & ->).
  assert (In kept (rawToolList h allowWriteOperations openApiSpecs)) as Hraw
      by (apply list_elem_of_In, list_elem_of_lookup; eauto).
  apply rawToolList_origin in Hraw as (spec & compiled & Hspec & Hcompiled & Hfilter).
  exists spec, compiled, kept, n.
  pose proof (filterTool_allowed _ _ _ _ Hfilter) as Hallowed.
  apply filterTool_name in Hfilter.
  repeat split; try done.
  - intros Htrace. rewrite Htrace in Hallowed.
    destruct allowWriteOperations; simpl in Hallowed; set_solver.
  - intros ->. destruct (method compiled); simpl in Hallowed; set_solver.
Qed.

Lemma catalog_respects_write_policy_witness :
  ∃ tool,
    generateTools ∅ false widgetService = Normal [tool] ∧
    name tool = "getWidget" ∧
    method tool ∈ [GET; HEAD; OPTIONS].
Proof.
  eexists. split; [vm_compute; reflexivity |]. split; [reflexivity |].
  match goal with
  | |- method ?t ∈ _ =>
      assert (generateTools ∅ false widgetService = Normal [t]) as Hcatalog
        by (vm_compute; reflexivity);
      destruct (catalog_respects_write_policy ∅ false widgetService [t] t Hcatalog
                  (or_introl eq_refl))
        as (spec & compiled & kept & n & Hspec & _ & Hkept & Htool & _ & Hread & Hmethod)
  end.
  destruct Hspec as [<- | []]. injection Hkept as <-.
  rewrite Hmethod by reflexivity. by apply Hread.
Defined.

(** ** The life of a session *)

Lemma prefix_app (p a : string) :
  String.prefix p a = true → ∃ r, a = p +:+ r.
Proof.
  revert a. induction p as [| c p IH]; intros [| d a]; simpl; try done.
  - intros _. by exists "".
  - intros _. by exists (String d a).
  - destruct (ascii_dec c d) as [-> |]; [| done].
    intros [r ->]%IH. by exists r.
Qed.

Lemma prefix_of_app (p r : string) : String.prefix p (p +:+ r) = true.
Proof.
  induction p as [| c p IH]; [by destruct r |].
  rewrite append_cons. simpl. by destruct (ascii_dec c c).
Qed.

Lemma substring_all (s : string) : String.substring 0 (String.length s) s = s.
Proof. induction s as [| c s IH]; simpl; [done | by rewrite IH]. Qed.

Lemma substring_skip (p r : string) (n : nat) :
  String.substring (String.length p) n (p +:+ r) = String.substring 0 n r.
Proof. induction p as [| c p IH]; [done |]. rewrite append_cons. simpl. apply IH. Qed.

Lemma substring_after_bearer (r : string) :
  String.substring 7 (String.length ("Bearer " +:+ r) - 7) ("Bearer " +:+ r) = r.
Proof.
  rewrite length_append.
  replace (String.length "Bearer " + String.length r - 7)%nat with (String.length r)
    by (simpl; lia).
  etrans; [exact (substring_skip "Bearer " r (String.length r)) | apply substring_all].
Qed.

Lemma extractBearerToken_bearer (token : string) :
  extractBearerToken (Some ("Bearer " +:+ token)) = Some token.
Proof. unfold extractBearerToken. by rewrite prefix_of_app, substring_after_bearer. Qed.

(** X9.  [extractBearerToken] gives a token exactly for a header that
    starts with [Bearer] and one space, in that case; the token is the
    rest of the header, whatever it holds. *)
Theorem bearer_token_is_the_rest (authHeader token : string) :
  extractBearerToken (Some authHeader) = Some token ↔ authHeader = "Bearer " +:+ token.
Proof.
  unfold extractBearerToken. split.
  - destruct (String.eqb authHeader ""); [done |].
    destruct (String.prefix "Bearer " authHeader) eqn:Hprefix; [| done].
    apply prefix_app in Hprefix as [r ->].
    rewrite substring_after_bearer. by intros [= <-].
  - intros ->. apply extractBearerToken_bearer.
Qed.

Lemma sessionOf_Result (sessionData : SessionData) (sessionId : option string) (s : Session) :
  sessionOf sessionData sessionId = Result s ↔
  ∃ sid, sessionId = Some sid ∧ sid ≠ "" ∧ sessionData !! sid = Some s.
Proof.
  unfold sessionOf. split.
  - destruct sessionId as [sid |]; [| done].
    destruct (String.eqb sid "") eqn:Hsid; [done |]. apply String.eqb_neq in Hsid.
    destruct (sessionData !! sid) as [s' |] eqn:Hs; [| done].
    intros [= <-]. by exists sid.
  - intros (sid & -> & Hsid & Hs). apply String.eqb_neq in Hsid. by rewrite Hsid, Hs.
Qed.

(** X10.  A session opened by an initialize request whose header is
    [Bearer] and a non-empty token that the identity check accepts is
    found under its identifier, with that token, the category bound from
    the requested one and the user agent of the request ([unknown] when
    there is none); [tools/list] then answers for that category, and a
    later POST with the identifier goes to the session's transport. *)
Theorem initialized_session_is_found (allCategories : Categories)
        (allTools : list AAPMcpToolDefinition) (sessionData : SessionData)
        (requested userAgentHeader : option string) (tokenText sid : string)
        (newTransport : nat) :
  tokenText ≠ "" →
  sid ≠ "" →
  let after := sessionStep allCategories sessionData
                 (Initialize requested (Some ("Bearer " +:+ tokenText)) userAgentHeader
                             sid true newTransport) in
  let s := {| token := tokenText;
              userAgent := default "unknown" (nonEmpty userAgentHeader);
              category := boundCategory allCategories requested;
              transport := newTransport |} in
  sessionOf after (Some sid) = Result s ∧
  mcpPostRoute after (Some sid) false = ReuseTransport newTransport ∧
  (∃ listed, listTools allCategories allTools after (Some sid) = Result listed) ∧
  (∀ other, other ≠ sid → after !! other = sessionData !! other).
Proof.
  intros Htoken Hsid after s.
  assert (after = <[sid := s]> sessionData) as Hafter.
  { subst after. cbv beta iota delta [sessionStep].
    rewrite extractBearerToken_bearer. simpl.
    apply String.eqb_neq in Htoken. by rewrite Htoken. }
  assert (sessionOf after (Some sid) = Result s) as Hfound.
  { apply sessionOf_Result. exists sid. by rewrite Hafter, lookup_insert_eq. }
  repeat split.
  - exact Hfound.
  - unfold mcpPostRoute. simpl. apply String.eqb_neq in Hsid.
    by rewrite Hsid, Hafter, lookup_insert_eq.
  - unfold listTools. rewrite Hfound. simpl.
    assert (∃ selection,
               (if String.eqb (boundCategory allCategories requested) "all"
                then Some (allCategoryTools allCategories)
                else allCategories !! boundCategory allCategories requested)
               = Some selection) as [selection Hsel].
    { destruct (String.eqb _ "all") eqn:Hall; [by eexists |].
      apply String.eqb_neq in Hall.
      destruct (boundCategory_known allCategories requested)
        as [? | [selection Hin]%elem_of_dom]; [done | by eexists]. }
    rewrite (filterToolsByCategory_selected _ _ _ selection Hsel). by eexists.
  - intros other Hother. by rewrite Hafter, lookup_insert_ne.
Qed.

Lemma initialized_session_is_found_witness :
  sessionOf
    (sessionStep sampleCategories sampleSessions
       (Initialize (Some "admin") (Some ("Bearer " +:+ "t0k3n")) None "s-9" true 4))
    (Some "s-9")
  = Result {| token := "t0k3n"; userAgent := "unknown"; category := "admin";
              transport := 4%nat |}.
Proof.
  assert ("t0k3n" ≠ "") as Htoken by discriminate.
  assert ("s-9" ≠ "") as Hsid by discriminate.
  destruct (initialized_session_is_found sampleCategories sampleCatalog sampleSessions
              (Some "admin") None "t0k3n" "s-9" 4 Htoken Hsid) as (Hfound & _).
  exact Hfound.
Defined.

(** An initialize request that carries no bearer token, or an empty one,
    or a token that the identity check refuses, leaves the registry as it
    was. *)
Lemma refused_initialization_stores_nothing (allCategories : Categories)
      (sessionData : SessionData) (requested authHeader userAgentHeader : option string)
      (sid : string) (tokenIsValid : bool) (newTransport : nat) :
  tokenIsValid = false ∨ nonEmpty (extractBearerToken authHeader) = None →
  sessionStep allCategories sessionData
    (Initialize requested authHeader userAgentHeader sid tokenIsValid newTransport)
  = sessionData.
Proof.
  intros [-> | Hnone]; simpl.
  - by destruct (nonEmpty _).
  - by rewrite Hnone.
Qed.

(** X11.  Once a session is terminated, or its transport closed, its
    identifier is good for nothing: [tools/list] and [tools/call] answer
    that the session is invalid or missing, GET answers 400, and POST
    answers 400 even for an initialize request; the other sessions stay as
    they were.  The identifier is one that the registry, a plain object,
    does not inherit. *)
Theorem closed_session_is_gone (allCategories : Categories)
        (allTools : list AAPMcpToolDefinition) (sessionData : SessionData)
        (e : SessionEvent) (sid toolName : string) :
  sid ∉ objectPrototypeKeys →
  e = Terminate sid ∨ e = TransportClosed sid ∨ e = Shutdown →
  let after := sessionStep allCategories sessionData e in
  listTools allCategories allTools after (Some sid) = Failure "Invalid or missing session ID" ∧
  resolveCall allTools after (Some sid) toolName = Failure "Invalid or missing session ID" ∧
  mcpGetRoute after (Some sid) = Failure "Invalid or missing session ID" ∧
  (∀ isInitializeRequest, sid ≠ "" →
                          mcpPostRoute after (Some sid) isInitializeRequest = BadRequest) ∧
  (e ≠ Shutdown → ∀ other, other ≠ sid → after !! other = sessionData !! other).
Proof.
  intros _ He after.
  assert (after !! sid = None) as Hgone.
  { subst after. destruct He as [-> | [-> | ->]]; simpl;
      [apply lookup_delete_eq | apply lookup_delete_eq | apply lookup_empty]. }
  assert (sessionOf after (Some sid) = Failure "Invalid or missing session ID") as Hfail.
  { unfold sessionOf. rewrite Hgone. by destruct (String.eqb sid ""). }
  repeat split.
  - unfold listTools. by rewrite Hfail.
  - unfold resolveCall. by rewrite Hfail.
  - unfold mcpGetRoute. by rewrite Hfail.
  - intros isInit Hsid. unfold mcpPostRoute. simpl.
    apply String.eqb_neq in Hsid. by rewrite Hsid, Hgone.
  - intros Hshutdown other Hother. subst after.
    destruct He as [-> | [-> | ->]]; simpl; [| | done]; by rewrite lookup_delete_ne.
Qed.

Lemma closed_session_is_gone_witness :
  listTools sampleCategories sampleCatalog
    (sessionStep sampleCategories sampleSessions (Terminate "s-1")) (Some "s-1")
  = Failure "Invalid or missing session ID".
Proof.
  assert ("s-1" ∉ objectPrototypeKeys) as Hown
      by (apply (bool_decide_eq_false_1 _); vm_compute; reflexivity).
  destruct (closed_session_is_gone sampleCategories sampleCatalog sampleSessions
              (Terminate "s-1") "s-1" "getWidget" Hown (or_introl eq_refl)) as (Hlist & _).
  exact Hlist.
Defined.

(** ** Listing and calling *)

Lemma find_first {A : Type} (p : A → bool) (l : list A) (x : A) :
  List.find p l = Some x →
  ∃ pre post, l = pre ++ x :: post ∧ p x = true ∧ ∀ u, In u pre → p u = false.
Proof.
  induction l as [| y l IH]; simpl; [done |].
  destruct (p y) eqn:Hy.
  - intros [= <-]. by exists [], l.
  - intros (pre & post & -> & Hx & Hpre)%IH.
    exists (y :: pre), post. repeat split; [done |].
    intros u [<- | Hu]; [done | by apply Hpre].
Qed.

(** X12.  [tools/call] checks the session before the tool.  For an active
    session it answers that the tool is unknown exactly when no tool of the
    catalog has the name; otherwise it dispatches to the first tool of the
    catalog with that name, which matters when the catalog holds a name
    twice. *)
Theorem call_finds_first_tool (allTools : list AAPMcpToolDefinition)
        (sessionData : SessionData) (sessionId : option string) (toolName : string) :
  (∀ m, sessionOf sessionData sessionId = Failure m →
        resolveCall allTools sessionData sessionId toolName = Failure m) ∧
  (∀ s, sessionOf sessionData sessionId = Result s →
        (resolveCall allTools sessionData sessionId toolName
         = Failure ("Unknown tool: " +:+ toolName) ↔
         ∀ t, In t allTools → name t ≠ toolName) ∧
        (∀ tool s', resolveCall allTools sessionData sessionId toolName = Result (tool, s') →
                    s' = s ∧
                    ∃ pre post, allTools = pre ++ tool :: post ∧
                                name tool = toolName ∧
                                ∀ u, In u pre → name u ≠ toolName)).
Proof.
  split.
  - intros m Hm. unfold resolveCall. by rewrite Hm.
  - intros s Hs. unfold resolveCall. rewrite Hs.
    destruct (List.find _ allTools) as [found |] eqn:Hfind.
    + apply find_first in Hfind as (pre & post & Hsplit & Hname & Hpre).
      apply String.eqb_eq in Hname. split.
      * split; [done |]. intros Hnone. destruct (Hnone found); [| done].
        rewrite Hsplit. apply in_or_app. right. by left.
      * intros tool s' [= <- <-]. split; [done |]. exists pre, post.
        repeat split; [done | done |].
        intros u Hu. apply String.eqb_neq. by apply Hpre.
    + split; [| done]. split; [| done].
      intros _ t Ht. apply String.eqb_neq. exact (find_none _ _ Hfind t Ht).
Qed.

Lemma call_finds_first_tool_witness :
  resolveCall sampleCatalog sampleSessions (Some "s-1") "dropWidget"
  = Failure "Unknown tool: dropWidget".
Proof.
  destruct (call_finds_first_tool sampleCatalog sampleSessions (Some "s-1") "dropWidget")
    as [_ Hactive].
  destruct (Hactive {| token := "secret"; userAgent := "cli"; category := "readonly";
                       transport := 0%nat |} eq_refl) as [Hunknown _].
  apply Hunknown. intros t [<- | [<- | []]]; discriminate.
Defined.






(** ** The diagnostics added when the server starts *)

Lemma count_startup (e : McpToolLogEntry) (operation : AAPOperationObject)
      (base candidate : string) (schema : Out) :
  e = logDeprecated ∨ e = logNameOver64 ∨ e = logNameOver40 →
  countLog e (operationLogs operation base candidate schema) = O.
Proof.
  intros He. unfold operationLogs. rewrite !countLog_app.
  destruct (isNonEmpty (operationId operation)), (String.eqb base candidate),
    (isNonEmpty (description operation)), (isNonEmpty (summary operation)),
    (String.length (xAiDescription operation) =? 0)%nat,
    (300 <? String.length (xAiDescription operation))%nat,
    (bool_decide (missingDescriptions schema = []));
    destruct He as [-> | [-> | ->]]; reflexivity.
Qed.

(** X14.  The diagnostics that the server adds to a compiled tool when it
    starts: the name is left as it is, however long; a name of more than
    64 code units draws one ERR entry and no WARN entry, a name of 41 to 64
    code units one WARN entry and no ERR entry, a shorter name neither; a
    deprecated operation draws one INFO entry. *)
Theorem startup_diagnostics (h : Heap) (api : Document) (defaultInclude : bool)
        (usedNames : gset string) (path : string) (pathItem : PathItemObject)
        (m : HttpMethods) (rawOperation : RawOperation) (tool : AAPMcpToolDefinition) :
  compileOperation h api defaultInclude usedNames path pathItem m rawOperation = Some tool →
  let annotated := annotateTool tool in
  let n := String.length (name tool) in
  name annotated = name tool ∧
  countLog logNameOver64 (logs annotated) = (if (64 <? n)%nat then 1%nat else O) ∧
  countLog logNameOver40 (logs annotated)
  = (if (40 <? n)%nat && (n <=? 64)%nat then 1%nat else O) ∧
  countLog logDeprecated (logs annotated)
  = (if deprecated (newAAPOperationObject rawOperation) then 1%nat else O).
Proof.
  intros Hcompile annotated n.
  assert (toolDeprecated tool = deprecated (newAAPOperationObject rawOperation)) as Hdep.
  { unfold compileOperation in Hcompile.
    destruct (negb _); [done |]. destruct (String.eqb _ ""); [done |].
    by injection Hcompile as <-. }
  apply compileOperation_fields in Hcompile as (_ & _ & _ & _ & _ & _ & _ & Hlogs & _).
  split; [done |].
  unfold annotated, annotateTool, pushLogs, startupLogs. simpl logs. simpl name.
  rewrite Hlogs, Hdep. fold n. rewrite !countLog_app, !count_startup by auto.
  destruct (deprecated _), (64 <? n)%nat eqn:H64, (40 <? n)%nat eqn:H40,
    (n <=? 64)%nat eqn:Hle; try (split; [| split]; reflexivity);
    (apply Nat.ltb_lt in H64 || apply Nat.ltb_ge in H64);
    (apply Nat.ltb_lt in H40 || apply Nat.ltb_ge in H40);
    (apply Nat.leb_le in Hle || apply Nat.leb_gt in Hle); lia.
Qed.

Lemma startup_diagnostics_witness :
  ∃ tool,
    compileOperation ∅ launchDocument true ∅ "/job_templates/{id}/launch"
      (launchPathItem) POST launchOperation = Some tool ∧
    String.length (name tool) = 54%nat ∧
    countLog logNameOver64 (logs (annotateTool tool)) = O ∧
    countLog logNameOver40 (logs (annotateTool tool)) = 1%nat ∧
    countLog logDeprecated (logs (annotateTool tool)) = 1%nat.
Proof.
  eexists. split; [vm_compute; reflexivity |].
  match goal with
  | |- String.length (name ?t) = _ ∧ _ =>
      assert (compileOperation ∅ launchDocument true ∅ "/job_templates/{id}/launch"
                launchPathItem POST launchOperation = Some t) as Hc
        by (vm_compute; reflexivity);
      destruct (startup_diagnostics _ _ _ _ _ _ _ _ _ Hc) as (_ & H64 & H40 & Hdep)
  end.
  split; [reflexivity |]. split; [| split].
  - rewrite H64. reflexivity.
  - rewrite H40. reflexivity.
  - rewrite Hdep. reflexivity.
Defined.

(** ** The pages of the services and the colours of the categories *)





Lemma filter_nil_length {A : Type} (l : list A) : (length l =? 0)%nat = true ↔ l = [].
Proof. destruct l; simpl; split; intros; done. Qed.



Lemma charCodeSum_fold (l : list ascii) (acc : N) :
  fold_left (λ acc char, (acc + code char)%N) l acc
  = (acc + fold_right (λ char sum, (code char + sum)%N) 0%N l)%N.
Proof.
  revert acc. induction l as [| c l IH]; intros acc; simpl; [lia |].
  rewrite IH. lia.
Qed.

Lemma charCodeSum_permutation (l l' : list ascii) :
  Permutation l l' →
  fold_right (λ char sum, (code char + sum)%N) 0%N l
  = fold_right (λ char sum, (code char + sum)%N) 0%N l'.
Proof. induction 1; simpl; lia. Qed.

(** X16.  [getCategoryColor] gives every name, the empty one too, one of
    the eight colours, never [undefined]; and the colour depends on the
    code units of the name only, not on their order. *)
Theorem category_colour_is_defined (categoryName : string) :
  (∃ colour, getCategoryColor categoryName = Some colour ∧ In colour categoryColors) ∧
  ∀ other, Permutation (list_ascii_of_string categoryName) (list_ascii_of_string other) →
           getCategoryColor other = getCategoryColor categoryName.
Proof.
  split.
  - unfold getCategoryColor.
    destruct (lookup_lt_is_Some_2 categoryColors
                (N.to_nat (charCodeSum categoryName mod N.of_nat (length categoryColors))))
      as [colour Hcolour].
    { pose proof (N.mod_upper_bound (charCodeSum categoryName)
                    (N.of_nat (length categoryColors))) as Hbound.
      simpl in *. lia. }
    exists colour. split; [done |].
    apply list_elem_of_In. by eapply list_elem_of_lookup_2.
  - intros other Hperm. unfold getCategoryColor, charCodeSum.
    rewrite !charCodeSum_fold. by rewrite (charCodeSum_permutation _ _ Hperm).
Qed.

Lemma category_colour_is_defined_witness :
  getCategoryColor "nimda" = getCategoryColor "admin".
Proof.
  destruct (category_colour_is_defined "admin") as [_ Horder].
  apply Horder. exact (Permutation_rev (list_ascii_of_string "admin")).
Defined.

(** ** The path of a call *)

Lemma stripPrefix_Some (p s after : string) :
  stripPrefix p s = Some after ↔ s = p +:+ after.
Proof.
  revert s. induction p as [| a p IH]; intros s; simpl.
  - split; [by intros [= ->] | by intros ->].
  - destruct s as [| b s]; [done |]. rewrite append_cons.
    destruct (Ascii.eqb a b) eqn:Hab.
    + apply Ascii.eqb_eq in Hab as ->. rewrite IH. split; [by intros -> | by intros [= ->]].
    + apply Ascii.eqb_neq in Hab. split; [done | by intros [= -> _]].
Qed.

Lemma findFirst_unfold (pattern s : string) :
  findFirst pattern s
  = match stripPrefix pattern s with
    | Some after => Some (EmptyString, after)
    | None =>
        match s with
        | EmptyString => None
        | String c s' =>
            match findFirst pattern s' with
            | Some (before, after) => Some (String c before, after)
            | None => None
            end
        end
    end.
Proof. by destruct s. Qed.

Lemma findFirst_Some (pattern s before after : string) :
  findFirst pattern s = Some (before, after) →
  s = before +:+ pattern +:+ after ∧
  ∀ b a, s = b +:+ pattern +:+ a → (String.length before ≤ String.length b)%nat.
Proof.
  revert before. induction s as [| c s IH]; intros before; rewrite findFirst_unfold.
  - destruct (stripPrefix pattern "") as [rest |] eqn:Hstrip; [| done].
    intros [= <- <-]. apply stripPrefix_Some in Hstrip. split; [done |]. simpl. lia.
  - destruct (stripPrefix pattern (String c s)) as [rest |] eqn:Hstrip.
    + intros [= <- <-]. apply stripPrefix_Some in Hstrip. split; [done |]. simpl. lia.
    + destruct (findFirst pattern s) as [[before' after'] |]; [| done].
      intros [= <- <-]. destruct (IH before' eq_refl) as [Hs Hmin]. split.
      * by rewrite append_cons, <- Hs.
      * intros [| d b] a Hsplit.
        -- rewrite append_empty_l in Hsplit. apply stripPrefix_Some in Hsplit. congruence.
        -- rewrite append_cons in Hsplit. injection Hsplit as _ Hsplit.
           specialize (Hmin _ _ Hsplit). simpl. lia.
Qed.

Lemma findFirst_None (pattern s : string) :
  findFirst pattern s = None → ∀ b a, s ≠ b +:+ pattern +:+ a.
Proof.
  induction s as [| c s IH]; rewrite findFirst_unfold.
  - destruct (stripPrefix pattern "") as [rest |] eqn:Hstrip; [done |].
    intros _ [| d b] a Hsplit; [| done].
    rewrite append_empty_l in Hsplit. apply stripPrefix_Some in Hsplit. congruence.
  - destruct (stripPrefix pattern (String c s)) as [rest |] eqn:Hstrip; [done |].
    destruct (findFirst pattern s) as [[before' after'] |]; [done |].
    intros _ [| d b] a Hsplit.
    + rewrite append_empty_l in Hsplit. apply stripPrefix_Some in Hsplit. congruence.
    + rewrite append_cons in Hsplit. injection Hsplit as _ Hsplit.
      by apply (IH eq_refl b a).
Qed.

Lemma getSubstitution_plain (matched before after replacement : string) :
  allChars isNotDollar replacement = true →
  getSubstitution matched before after replacement = replacement.
Proof.
  induction replacement as [| c r IH]; [done |]. simpl.
  intros [Hc Hr]%andb_true_iff. unfold isNotDollar in Hc.
  apply negb_true_iff in Hc. rewrite Hc. by rewrite IH.
Qed.

Lemma substitutePathParameters_unchanged (args : Obj) (parameters : list ParameterObject)
      (url : string) :
  (∀ p, In p parameters → substitutePathParameter args url p = url) →
  substitutePathParameters args parameters url = url.
Proof.
  unfold substitutePathParameters.
  induction parameters as [| p l IH]; intros Hall; [done |]. simpl.
  rewrite (Hall p) by by left. apply IH. intros q Hq. apply Hall. by right.
Qed.

(** X17.  How the handler fills a path template.  A path parameter whose
    argument is absent, [null], [false], [0] or the empty string leaves its
    placeholder in the URL, and so does the whole loop when all path
    arguments are such.  A template without the placeholder is left as it
    is.  Otherwise the text of the argument, when it has no dollar sign,
    is put as it is, with no encoding, in place of the first occurrence of
    the placeholder, and the rest of the template is unchanged.  The
    parameters are not named like a property that the arguments inherit. *)
Theorem path_argument_is_inserted_as_is (args : Obj) (url : string)
        (param : ParameterObject) (value : Value) :
  paramName param ∉ objectPrototypeKeys →
  paramIn param = "path" →
  argument args (paramName param) = value →
  (truthy value = false → substitutePathParameter args url param = url) ∧
  ((∀ parameters,
       (∀ p, In p parameters → paramName p ∉ objectPrototypeKeys) →
       (∀ p, In p parameters → paramIn p = "path" →
             truthy (argument args (paramName p)) = false) →
       substitutePathParameters args parameters url = url)) ∧
  ((∀ before after, url ≠ before +:+ placeholder (paramName param) +:+ after) →
   substitutePathParameter args url param = url) ∧
  (truthy value = true →
   allChars isNotDollar (toStringValue value) = true →
   (∃ b a, url = b +:+ placeholder (paramName param) +:+ a) →
   ∃ before after,
     url = before +:+ placeholder (paramName param) +:+ after ∧
     (∀ b a, url = b +:+ placeholder (paramName param) +:+ a →
             (String.length before ≤ String.length b)%nat) ∧
     substitutePathParameter args url param = before +:+ toStringValue value +:+ after).
Proof.
  intros _ Hin Hvalue. split; [| split; [| split]].
  - intros Hfalsy. unfold substitutePathParameter. by rewrite Hvalue, Hfalsy, andb_false_r.
  - intros parameters _ Hall. apply substitutePathParameters_unchanged.
    intros p Hp. unfold substitutePathParameter.
    destruct (String.eqb (paramIn p) "path") eqn:Hpath; [| done].
    apply String.eqb_eq in Hpath. by rewrite (Hall p Hp Hpath).
  - intros Habsent. unfold substitutePathParameter, replaceFirst.
    destruct (_ && _); [| done].
    destruct (findFirst _ url) as [[before after] |] eqn:Hfind; [| done].
    apply findFirst_Some in Hfind as [Hsplit _]. by destruct (Habsent before after).
  - intros Htruthy Hplain (b & a & Hsplit).
    unfold substitutePathParameter, replaceFirst.
    rewrite Hin, Hvalue, Htruthy. simpl.
    destruct (findFirst _ url) as [[before after] |] eqn:Hfind.
    + apply findFirst_Some in Hfind as [Hurl Hmin].
      exists before, after. split; [done |]. split; [done |].
      by rewrite getSubstitution_plain.
    + by destruct (findFirst_None _ _ Hfind b a).
Qed.

Lemma path_argument_is_inserted_as_is_witness :
  (∃ before after,
      "/widgets/{id}/copy/{id}" = before +:+ "{id}" +:+ after ∧
      substitutePathParameter [("id", VStr "7/../8")] "/widgets/{id}/copy/{id}" idParameter
      = before +:+ "7/../8" +:+ after) ∧
  substitutePathParameter [("id", VNum 0)] "/widgets/{id}/" idParameter = "/widgets/{id}/".
Proof.
  assert (paramName idParameter ∉ objectPrototypeKeys) as Hown
      by (apply (bool_decide_eq_false_1 _); vm_compute; reflexivity).
  split.
  - destruct (path_argument_is_inserted_as_is [("id", VStr "7/../8")]
                "/widgets/{id}/copy/{id}" idParameter (VStr "7/../8") Hown eq_refl eq_refl)
      as (_ & _ & _ & Hfill).
    destruct Hfill as (before & after & Hurl & _ & Hresult);
      [reflexivity | reflexivity | by exists "/widgets/", "/copy/{id}" |].
    by exists before, after.
  - destruct (path_argument_is_inserted_as_is [("id", VNum 0)] "/widgets/{id}/" idParameter
                (VNum 0) Hown eq_refl eq_refl) as (Hfalsy & _).
    by apply Hfalsy.
Defined.

(** ** The query of a call *)

Lemma countChar_append (c : ascii) (s t : string) :
  countChar c (s +:+ t) = (countChar c s + countChar c t)%nat.
Proof.
  induction s as [| d s IH]; [done |]. rewrite append_cons. simpl. rewrite IH. lia.
Qed.

Lemma countChar_none (p : ascii → bool) (c : ascii) (s : string) :
  p c = false → allChars p s = true → countChar c s = O.
Proof.
  intros Hc. induction s as [| d s IH]; [done |]. simpl.
  intros [Hd Hs]%andb_true_iff. rewrite (IH Hs).
  destruct (Ascii.eqb d c) eqn:Hdc; [| done].
  apply Ascii.eqb_eq in Hdc. congruence.
Qed.

Lemma formEncode_unfold (c : ascii) (s : string) :
  formEncode (String c s)
  = fold_right (λ b rest, formEncodeByte b +:+ rest) EmptyString (utf8Bytes c)
    +:+ formEncode s.
Proof.
  simpl. generalize (formEncode s) as z. intros z.
  induction (utf8Bytes c) as [| b l IH]; [done |]. simpl.
  by rewrite IH, append_assoc.
Qed.

Lemma formEncode_char (c : ascii) :
  allChars isFormChar
    (fold_right (λ b rest, formEncodeByte b +:+ rest) EmptyString (utf8Bytes c)) = true.
Proof. destruct c as [[] [] [] [] [] [] [] []]; vm_compute; reflexivity. Qed.

Lemma formEncode_form (s : string) : allChars isFormChar (formEncode s) = true.
Proof.
  induction s as [| c s IH]; [done |].
  by rewrite formEncode_unfold, allChars_append, formEncode_char, IH.
Qed.

Lemma joinWith_cons (sep x y : string) (l : list string) :
  joinWith sep (x :: y :: l) = x +:+ sep +:+ joinWith sep (y :: l).
Proof. reflexivity. Qed.

Lemma queryString_pair (k v : string) :
  allChars isQueryChar (formEncode k +:+ "=" +:+ formEncode v) = true ∧
  countChar "=" (formEncode k +:+ "=" +:+ formEncode v) = 1%nat ∧
  countChar "&" (formEncode k +:+ "=" +:+ formEncode v) = O.
Proof.
  assert (∀ s, allChars isQueryChar (formEncode s) = true) as Hquery.
  { intros s. apply (allChars_weaken isFormChar); [| apply formEncode_form].
    intros c Hc. unfold isQueryChar. by rewrite Hc. }
  split; [| split].
  - by rewrite !allChars_append, !Hquery.
  - rewrite !countChar_append.
    rewrite !(countChar_none isFormChar "=" _ eq_refl (formEncode_form _)). reflexivity.
  - rewrite !countChar_append.
    rewrite !(countChar_none isFormChar "&" _ eq_refl (formEncode_form _)). reflexivity.
Qed.

(** The serializer of [URLSearchParams]: what it writes, one [=] for
    each pair and one [&] between two pairs. *)
Lemma queryString_shape (tuples : list (string * string)) :
  allChars isQueryChar (queryString tuples) = true ∧
  countChar "=" (queryString tuples) = length tuples ∧
  countChar "&" (queryString tuples) = pred (length tuples) ∧
  (queryString tuples = "" ↔ tuples = []).
Proof.
  assert (allChars isQueryChar (queryString tuples) = true ∧
          countChar "=" (queryString tuples) = length tuples ∧
          countChar "&" (queryString tuples) = pred (length tuples)) as (Hchars & Heq & Hamp).
  { unfold queryString. induction tuples as [| [k v] l IH]; [done |].
    destruct (queryString_pair k v) as (Hpair & Hpaireq & Hpairamp).
    destruct l as [| [k' v'] l'].
    - change (joinWith "&" (map _ [(k, v)])) with (formEncode k +:+ "=" +:+ formEncode v).
      split; [exact Hpair | split; [exact Hpaireq | exact Hpairamp]].
    - destruct IH as (IHchars & IHeq & IHamp).
      change (map _ ((k, v) :: (k', v') :: l'))
        with ((formEncode k +:+ "=" +:+ formEncode v)
                :: map (λ '(k, v), formEncode k +:+ "=" +:+ formEncode v) ((k', v') :: l')).
      change (map (λ '(k, v), formEncode k +:+ "=" +:+ formEncode v) ((k', v') :: l'))
        with ((formEncode k' +:+ "=" +:+ formEncode v')
                :: map (λ '(k, v), formEncode k +:+ "=" +:+ formEncode v) l') in *.
      rewrite joinWith_cons. split; [| split].
      + rewrite (allChars_append _ (formEncode k +:+ "=" +:+ formEncode v)), Hpair.
        rewrite (allChars_append _ "&"), IHchars. reflexivity.
      + rewrite (countChar_append _ (formEncode k +:+ "=" +:+ formEncode v)), Hpaireq.
        rewrite (countChar_append _ "&"), IHeq. reflexivity.
      + rewrite (countChar_append _ (formEncode k +:+ "=" +:+ formEncode v)), Hpairamp.
        rewrite (countChar_append _ "&"), IHamp. reflexivity. }
  split; [done |]. split; [done |]. split; [done |]. split.
  - intros Hempty. rewrite Hempty in Heq. by destruct tuples.
  - by intros ->.
Qed.

Lemma queryParams_length (args : Obj) (parameters : list ParameterObject) :
  length (queryParams args parameters)
  = length (List.filter
              (λ p, String.eqb (paramIn p) "query"
                    && negb (isUndefined (argument args (paramName p))))
              parameters).
Proof.
  unfold queryParams. induction parameters as [| p l IH]; [done |]. simpl.
  destruct (_ && _); simpl; by rewrite <- IH.
Qed.

(** X18.  The query of a call.  A query parameter is sent when its
    argument is not [undefined], also when it is [null], [false], [0] or
    the empty string.  The query string is written with ASCII letters and
    digits and the marks [* - . _ + % = &] only, with one [=] for each
    parameter sent and one [&] between two of them, so that no name and
    no value can add a parameter or end the query; the URL has a question
    mark and a query exactly when a parameter is sent.  The parameters are
    not named like a property that the arguments inherit. *)
Theorem call_query_is_well_formed (baseUrl : string) (tool : AAPMcpToolDefinition)
        (args : Obj) :
  (∀ p, In p (toolParameters tool) → paramName p ∉ objectPrototypeKeys) →
  let sent :=
    List.filter (λ p, String.eqb (paramIn p) "query"
                      && negb (isUndefined (argument args (paramName p))))
                (toolParameters tool) in
  let query := queryString (queryParams args (toolParameters tool)) in
  let url := substitutePathParameters args (toolParameters tool) (pathTemplate tool) in
  allChars isQueryChar query = true ∧
  countChar "=" query = length sent ∧
  countChar "&" query = pred (length sent) ∧
  (sent = [] → buildUrl baseUrl tool args = baseUrl +:+ url) ∧
  (sent ≠ [] → query ≠ "" ∧ buildUrl baseUrl tool args = baseUrl +:+ url +:+ "?" +:+ query).
Proof.
  intros _ sent query url.
  destruct (queryString_shape (queryParams args (toolParameters tool)))
    as (Hchars & Heq & Hamp & Hempty).
  fold query in Hchars, Heq, Hamp, Hempty.
  rewrite queryParams_length in Heq, Hamp. fold sent in Heq, Hamp.
  assert (query = "" ↔ sent = []) as Hsent.
  { rewrite Hempty. split.
    - intros Hnone. apply length_zero_iff_nil.
      unfold sent. by rewrite <- queryParams_length, Hnone.
    - intros Hnone. apply length_zero_iff_nil.
      rewrite queryParams_length. fold sent. by rewrite Hnone. }
  split; [done |]. split; [done |]. split; [done |]. split.
  - intros Hnone. apply Hsent in Hnone. unfold buildUrl. fold query url.
    by rewrite Hnone.
  - intros Hsome. assert (query ≠ "") as Hquery by (by rewrite Hsent).
    split; [done |]. unfold buildUrl. fold query url.
    apply String.eqb_neq in Hquery. by rewrite Hquery.
Qed.

Lemma call_query_is_well_formed_witness :
  buildUrl "https://aap.example" searchTool [("q", VStr "a&b=c d"); ("page", VNum 0)]
  = "https://aap.example/widgets?q=a%26b%3Dc+d&page=0" ∧
  countChar "&" (queryString (queryParams [("q", VStr "a&b=c d"); ("page", VNum 0)]
                                (toolParameters searchTool))) = 1%nat.
Proof.
  assert (∀ p, In p (toolParameters searchTool) → paramName p ∉ objectPrototypeKeys) as Hown.
  { intros p [<- | [<- | []]]; apply (bool_decide_eq_false_1 _); vm_compute; reflexivity. }
  destruct (call_query_is_well_formed "https://aap.example" searchTool
              [("q", VStr "a&b=c d"); ("page", VNum 0)] Hown) as (_ & _ & Hamp & _ & Hurl).
  split.
  - destruct Hurl as [_ ->]; [discriminate | reflexivity].
  - rewrite Hamp. reflexivity.
Defined.

(** ** The outcome of a call and what is counted *)

(** X19.  How a tool call ends.  The client gets a result exactly when the
    service answered with a status from 200 to 299 and a body that could
    be read, and the result is then the body; every other call ends in an
    error whose message starts with the fixed words.  With recording off
    nothing is recorded.  With recording on, a call is recorded once
    unless the service answered with another status and a readable body:
    that call is recorded twice, first with the body and then with the
    error, both times with the status; a call without a response is
    recorded with the status 0. *)
Theorem call_outcome_and_records (recordApiQueries : bool) (fullUrl : string)
        (tool : AAPMcpToolDefinition) (userAgent : string) (outcome : FetchOutcome) :
  let reply := fst (completeCall recordApiQueries fullUrl tool userAgent outcome) in
  let records := snd (completeCall recordApiQueries fullUrl tool userAgent outcome) in
  (∀ text, reply = Result text ↔
           ∃ status compact, outcome = Responded status compact text ∧
                             (200 ≤ status ≤ 299)%nat) ∧
  (∀ message, reply = Failure message →
              ∃ reason, message = "Tool execution failed: " +:+ reason) ∧
  (recordApiQueries = false → records = []) ∧
  (recordApiQueries = true →
   map accessReturnCode records
   = match outcome with
     | FetchFailed _ => [O]
     | BodyUnreadable status _ => [status]
     | Responded status _ _ =>
         if (200 <=? status)%nat && (status <=? 299)%nat then [status] else [status; status]
     end ∧
   ∀ r, In r records →
        accessEndpoint r = fullUrl ∧
        accessUserAgent r = userAgent ∧
        accessMethod r = toUpperCase (methodName (method tool))).
Proof.
  intros reply records. unfold reply, records, completeCall.
  split; [| split; [| split]].
  - intros text. destruct outcome as [m | st m | st compact pretty]; simpl.
    + split; [done | by intros (? & ? & ? & _)].
    + split; [done | by intros (? & ? & ? & _)].
    + destruct (responseOk st) eqn:Hok; simpl.
      * apply andb_true_iff in Hok as [Hlo%Nat.leb_le Hhi%Nat.leb_le].
        split.
        -- intros [= <-]. by exists st, compact.
        -- by intros (? & ? & [= <- <- <-] & _).
      * split; [done |]. intros (st' & ? & [= <- <- <-] & Hlo & Hhi).
        apply andb_false_iff in Hok as [Hok%Nat.leb_gt | Hok%Nat.leb_gt]; lia.
  - intros message. destruct outcome as [m | st m | st compact pretty]; simpl.
    + intros [= <-]. by eexists.
    + intros [= <-]. by eexists.
    + destruct (responseOk st); simpl; [done |]. intros [= <-]. by eexists.
  - intros ->. destruct outcome as [m | st m | st compact pretty]; simpl; [done | done |].
    by destruct (responseOk st).
  - intros ->. destruct outcome as [m | st m | st compact pretty]; simpl.
    + split; [done |]. by intros r [<- | []].
    + split; [done |]. by intros r [<- | []].
    + unfold responseOk. destruct (_ && _); simpl.
      * split; [done |]. by intros r [<- | []].
      * split; [done |]. by intros r [<- | [<- | []]].
Qed.

Lemma logToolAccess_code (tool : AAPMcpToolDefinition) (category endpoint m agent : string)
      (response : AccessResponse) (returnCode : nat) :
  logToolAccess tool category
    {| accessEndpoint := endpoint; accessMethod := m; accessUserAgent := agent;
       accessResponse := response; accessReturnCode := returnCode |}
  = let counted := if String.eqb category "" then "uncategorized" else category in
    [ToolExecution (name tool) (serviceOf tool) counted
       (if (200 <=? returnCode)%nat && (returnCode <? 400)%nat then "success" else "error");
     ApiCall (serviceOf tool) endpoint "POST" returnCode]
      ++ (if (200 <=? returnCode)%nat && (returnCode <? 400)%nat then []
          else [ToolError (name tool) (serviceOf tool) counted
                  (if (400 <=? returnCode)%nat && (returnCode <? 500)%nat
                   then "client_error" else "server_error")]).
Proof.
  unfold logToolAccess. cbn [accessReturnCode accessEndpoint].
  by destruct ((200 <=? returnCode)%nat && (returnCode <? 400)%nat).
Qed.

(** X20.  What the metrics make of a call whose answer has a status
    outside 200 to 299 and a readable body.  The client gets an error,
    and the call is counted as two executions of the tool.  For a status
    from 300 to 399 both are counted as successes and no error is counted;
    for any other status two errors are counted, client errors for 400 to
    499 and server errors otherwise.  Every upstream call is counted
    under the method POST, whatever the method of the tool. *)
Theorem refused_call_is_counted_twice (fullUrl : string) (tool : AAPMcpToolDefinition)
        (userAgent category : string) (status : nat) (compact pretty : string) :
  responseOk status = false →
  let outcome := completeCall true fullUrl tool userAgent (Responded status compact pretty) in
  let events := callMetrics tool category (snd outcome) in
  let counted := if String.eqb category "" then "uncategorized" else category in
  fst outcome = Failure ("Tool execution failed: HTTP " +:+ ofNat status +:+ ": " +:+ compact) ∧
  List.filter isToolExecution events
  = repeat (ToolExecution (name tool) (serviceOf tool) counted
              (if (300 <=? status)%nat && (status <? 400)%nat then "success" else "error")) 2 ∧
  List.filter isToolError events
  = (if (300 <=? status)%nat && (status <? 400)%nat then []
     else repeat (ToolError (name tool) (serviceOf tool) counted
                    (if (400 <=? status)%nat && (status <? 500)%nat
                     then "client_error" else "server_error")) 2) ∧
  ∀ s endpoint m code, In (ApiCall s endpoint m code) events →
                       m = "POST" ∧ endpoint = fullUrl ∧ code = status.
Proof.
  intros Hok outcome events counted.
  unfold events, outcome, completeCall, callMetrics. rewrite Hok.
  cbn [fst snd map concat]. rewrite !logToolAccess_code. fold counted.
  assert ((200 <=? status)%nat && (status <? 400)%nat
          = (300 <=? status)%nat && (status <? 400)%nat) as ->.
  { unfold responseOk in Hok.
    destruct (200 <=? status)%nat eqn:H200, (status <=? 299)%nat eqn:H299,
      (300 <=? status)%nat eqn:H300, (status <? 400)%nat eqn:H400; try done;
      (apply Nat.leb_le in H200 || apply Nat.leb_gt in H200);
      (apply Nat.leb_le in H299 || apply Nat.leb_gt in H299);
      (apply Nat.leb_le in H300 || apply Nat.leb_gt in H300);
      (apply Nat.ltb_lt in H400 || apply Nat.ltb_ge in H400); lia. }
  split; [done |].
  destruct ((300 <=? status)%nat && (status <? 400)%nat).
  - split; [done |]. split; [done |].
    intros s endpoint m code [[=] | [[= <- <- <- <-] | [[=] | [[= <- <- <- <-] | []]]]];
      done.
  - split; [done |]. split; [done |].
    intros s endpoint m code
      [[=] | [[= <- <- <- <-] | [[=] | [[=] | [[= <- <- <- <-] | [[=] | []]]]]]];
      done.
Qed.

Lemma refused_call_is_counted_twice_witness :
  List.filter isToolError
    (callMetrics (sampleTool "getWidget" GET) "readonly"
       (snd (completeCall true "https://aap.example/widgets/7" (sampleTool "getWidget" GET)
               "agent" (Responded 404 "{}" "{}"))))
  = repeat (ToolError "getWidget" "unknown" "readonly" "client_error") 2.
Proof.
  destruct (refused_call_is_counted_twice "https://aap.example/widgets/7"
              (sampleTool "getWidget" GET) "agent" "readonly" 404 "{}" "{}" eq_refl)
    as (_ & _ & Herrors & _).
  exact Herrors.
Defined.

(** ** The spelling of a boolean flag *)

Lemma trimStart_white (w : string) : allChars isWhiteSpace w = true → trimStart w = "".
Proof.
  induction w as [| c w IH]; [done |]. simpl.
  intros [Hc Hw]%andb_true_iff. rewrite Hc. by apply IH.
Qed.

Lemma trimEnd_white (w : string) : allChars isWhiteSpace w = true → trimEnd w = "".
Proof.
  induction w as [| c w IH]; [done |]. simpl.
  intros [Hc Hw]%andb_true_iff. by rewrite (IH Hw), Hc.
Qed.

Lemma trimEnd_append_white (s w : string) :
  allChars isWhiteSpace w = true → trimEnd (s +:+ w) = trimEnd s.
Proof.
  intros Hw. induction s as [| c s IH].
  - rewrite append_empty_l. by apply trimEnd_white.
  - rewrite append_cons. simpl. by rewrite IH.
Qed.

Lemma trim_padded (left s right : string) :
  allChars isWhiteSpace left = true →
  allChars isWhiteSpace right = true →
  trim (left +:+ s +:+ right) = trim s.
Proof.
  intros Hleft Hright. unfold trim.
  induction left as [| c left IH].
  - rewrite append_empty_l. induction s as [| d s IHs].
    + rewrite append_empty_l. by rewrite (trimStart_white _ Hright).
    + rewrite append_cons. simpl. destruct (isWhiteSpace d); [exact IHs |].
      by rewrite <- append_cons, trimEnd_append_white.
  - rewrite append_cons. simpl in *.
    apply andb_true_iff in Hleft as [Hc Hleft]. rewrite Hc. by apply IH.
Qed.

Lemma charToLowerCase_upper (c : ascii) :
  charToLowerCase (charToUpperCase c) = charToLowerCase c.
Proof. destruct c as [[] [] [] [] [] [] [] []]; reflexivity. Qed.

Lemma isWhiteSpace_upper (c : ascii) : isWhiteSpace (charToUpperCase c) = isWhiteSpace c.
Proof. destruct c as [[] [] [] [] [] [] [] []]; reflexivity. Qed.

Lemma mapChars_cons (f : ascii → ascii) (c : ascii) (s : string) :
  mapChars f (String c s) = String (f c) (mapChars f s).
Proof. reflexivity. Qed.

Lemma toLowerCase_toUpperCase (s : string) : toLowerCase (toUpperCase s) = toLowerCase s.
Proof.
  unfold toLowerCase, toUpperCase. induction s as [| c s IH]; [done |].
  by rewrite !mapChars_cons, charToLowerCase_upper, IH.
Qed.

Lemma trimStart_toUpperCase (s : string) : trimStart (toUpperCase s) = toUpperCase (trimStart s).
Proof.
  unfold toUpperCase. induction s as [| c s IH]; [done |].
  rewrite mapChars_cons. simpl. rewrite isWhiteSpace_upper.
  destruct (isWhiteSpace c); [exact IH | done].
Qed.

Lemma trimEnd_toUpperCase (s : string) : trimEnd (toUpperCase s) = toUpperCase (trimEnd s).
Proof.
  unfold toUpperCase. induction s as [| c s IH]; [done |].
  rewrite mapChars_cons. simpl. rewrite IH, isWhiteSpace_upper.
  destruct (trimEnd s); [by destruct (isWhiteSpace c) | done].
Qed.

(** X21.  [normalizeBoolean] reads a string without regard to the white
    space around it and, for a string of ASCII code units, to the case of
    its letters: a padded or upper-cased spelling of a value is read as
    the value is. *)
Theorem normalizeBoolean_ignores_case_and_padding (s left right : string) :
  allChars isWhiteSpace left = true →
  allChars isWhiteSpace right = true →
  normalizeBoolean (VStr (left +:+ s +:+ right)) = normalizeBoolean (VStr s) ∧
  (allChars isAscii s = true →
   normalizeBoolean (VStr (left +:+ toUpperCase s +:+ right)) = normalizeBoolean (VStr s)).
Proof.
  intros Hleft Hright. unfold normalizeBoolean.
  rewrite !trim_padded by done. split; [done |]. intros _.
  unfold trim. by rewrite trimStart_toUpperCase, trimEnd_toUpperCase, toLowerCase_toUpperCase.
Qed.

Lemma normalizeBoolean_ignores_case_and_padding_witness :
  normalizeBoolean (VStr (" " +:+ toUpperCase "yes" +:+ String LF EmptyString)) = Some true.
Proof.
  destruct (normalizeBoolean_ignores_case_and_padding "yes" " " (String LF EmptyString)
              eq_refl eq_refl) as [_ Hupper].
  rewrite Hupper by reflexivity. reflexivity.
Defined.
